(** * Client-side media pipeline: thumbnail extractor and audio compositor

    A shallow embedding of [generateThumbnail], [processVideoAudio],
    [audioBufferToWav], [writeString] and [combineVideoAndAudio].

    Modelling conventions.
    - A JavaScript number is a rational ([Q]); [NaN] and the infinities are
      not values of the model.  In the mixing passes every product and sum is
      rounded to binary64 and every store into a [Float32Array] to binary32
      (module [Float]).  The products formed by the serializer (a binary32
      sample times [0x8000] or [0x7FFF]) are exact in binary64, so that
      function is written with the exact operations.
    - An [ArrayBuffer] is a list of bytes, each a [Z] in [0, 256); a [DataView]
      write outside the buffer raises [RangeError], modelled by [None].
    - A [Float32Array] is a list of numbers; reading outside it gives
      [undefined] ([None]) and writing outside it does nothing. *)

From Stdlib Require Import ZArith QArith Qabs Qround Qpower Lia Lqa String Ascii.
From stdpp Require Import base option list strings pretty.

Local Open Scope nat_scope.

(* ===================================================================== *)
(** ** Numbers *)
(* ===================================================================== *)

Module Num.

(** [Math.min] and [Math.max] on numbers. *)
Definition min (a b : Q) : Q := if Qle_bool a b then a else b.
Definition max (a b : Q) : Q := if Qle_bool a b then b else a.

(** [a < b] and [a > b] as the comparisons of the source. *)
Definition ltb (a b : Q) : bool := negb (Qle_bool b a).
Definition gtb (a b : Q) : bool := ltb b a.

(** [Math.abs]. *)
Definition abs (a : Q) : Q := Qabs a.

(** The idiom [Math.max(lo, Math.min(hi, x))]. *)
Definition clamp (lo hi x : Q) : Q := max lo (min hi x).

(** ToIntegerOrInfinity on a finite number: truncation towards zero. *)
Definition truncate (q : Q) : Z := Z.quot (Qnum q) (Zpos (Qden q)).

(** The number denoted by an integer of the program. *)
Definition of_nat (n : nat) : Q := inject_Z (Z.of_nat n).

End Num.

(* ===================================================================== *)
(** ** ArrayBuffer and DataView *)
(* ===================================================================== *)

Module DataView.

Abbreviation byte := Z (only parsing).
Abbreviation ArrayBuffer := (list Z) (only parsing).

(** [new ArrayBuffer(n)]: [n] zero bytes. *)
Definition alloc (n : nat) : ArrayBuffer := replicate n 0%Z.

(** Little-endian bytes of the low [8 * n] bits of [v]. *)
Fixpoint le_bytes (n : nat) (v : Z) : list byte :=
  match n with
  | O => []
  | S n' => (v mod 256)%Z :: le_bytes n' (v / 256)%Z
  end.

(** The number a little-endian byte string denotes. *)
Fixpoint le_value (bs : list byte) : Z :=
  match bs with
  | [] => 0%Z
  | b :: bs' => (b + 256 * le_value bs')%Z
  end.

(** Store [bs] at [off, off + length bs); [RangeError] when it does not fit. *)
Fixpoint store (view : ArrayBuffer) (off : nat) (bs : list byte) : ArrayBuffer :=
  match bs with
  | [] => view
  | b :: bs' => store (<[off := b]> view) (S off) bs'
  end.

Definition set_bytes (view : ArrayBuffer) (off : nat) (bs : list byte)
  : option ArrayBuffer :=
  if decide (off + length bs ≤ length view) then Some (store view off bs) else None.

(** [view.setUint8(off, v)]. *)
Definition setUint8 (view : ArrayBuffer) (off : nat) (v : Q) : option ArrayBuffer :=
  set_bytes view off (le_bytes 1 (Num.truncate v)).

(** [view.setUint16(off, v, true)]. *)
Definition setUint16 (view : ArrayBuffer) (off : nat) (v : Q) : option ArrayBuffer :=
  set_bytes view off (le_bytes 2 (Num.truncate v)).

(** [view.setInt16(off, v, true)]: the same two bytes, the value being
    taken modulo [2^16] in two's complement. *)
Definition setInt16 (view : ArrayBuffer) (off : nat) (v : Q) : option ArrayBuffer :=
  set_bytes view off (le_bytes 2 (Num.truncate v)).

(** [view.setUint32(off, v, true)]. *)
Definition setUint32 (view : ArrayBuffer) (off : nat) (v : Q) : option ArrayBuffer :=
  set_bytes view off (le_bytes 4 (Num.truncate v)).

(** Reading back, as a decoder of the container does. *)
Definition getUint8 (view : ArrayBuffer) (off : nat) : option Z := view !! off.

Definition getInt16 (view : ArrayBuffer) (off : nat) : option Z :=
  lo ← view !! off;
  hi ← view !! (S off);
  let u := (lo + 256 * hi)%Z in
  Some (if (u <? 32768)%Z then u else (u - 65536)%Z).

End DataView.

(** [for (let i = 0; i < n; i++) body], the body possibly throwing. *)
Definition for_loop {S : Type} (n : nat) (body : nat → S → option S) (s : S)
: option S :=
foldl (fun acc i => acc ≫= body i) (Some s) (seq 0 n).

(* ===================================================================== *)
(** ** AudioBuffer *)
(* ===================================================================== *)

Module AudioBuffer.

Record t := make {
  sampleRate : Q;
  length : nat;
  channels : list (list Q)
}.

Definition numberOfChannels (b : t) : nat := List.length (channels b).

(** [buffer.getChannelData(c)]; [IndexSizeError] outside the channels. *)
Definition getChannelData (b : t) (c : nat) : option (list Q) :=
  channels b !! c.

(** Every channel of an AudioBuffer holds [length] samples. *)
Definition well_formed (b : t) : Prop :=
  Forall (fun ch => List.length ch = length b) (channels b).

(** [audioContext.createBuffer(c, n, rate)]: silence. *)
Definition createBuffer (c n : nat) (rate : Q) : t :=
  make rate n (replicate c (replicate n 0%Q)).

End AudioBuffer.

(** Sample [i] of channel [c], when the buffer has one there. *)
Definition sample (b : AudioBuffer.t) (c i : nat) : option Q :=
  AudioBuffer.channels b !! c ≫= (.!! i).

(* ===================================================================== *)
(** ** The WAV serializer *)
(* ===================================================================== *)

Module Wav.
Import DataView.

(** [writeString(view, offset, string)]. *)
Definition writeString (view : ArrayBuffer) (offset : nat) (s : string)
  : option ArrayBuffer :=
  for_loop (String.length s)
    (fun i view =>
       match String.get i s with
       | Some ch => setUint8 view (offset + i) (Num.of_nat (nat_of_ascii ch))
       | None => Some view
       end)
    view.

Definition format : nat := 1.
Definition bitDepth : nat := 16.
Definition bytesPerSample : nat := bitDepth / 8.
Definition headerSize : nat := 44.

(** The value handed to [setInt16] for the sample [channelData[i][pos]];
    a read outside the channel gives [undefined], which the arithmetic
    turns into [NaN] and [setInt16] into [0]. *)
Definition sample_value (channelData : list (list Q)) (i pos : nat) : Q :=
  match channelData !! i ≫= (.!! pos) with
  | Some s =>
      let sample := Num.max (-1) (Num.min 1 s) in
      if Num.ltb sample 0 then (sample * 32768)%Q else (sample * 32767)%Q
  | None => 0%Q
  end.

Definition audioBufferToWav (buffer : AudioBuffer.t) : option ArrayBuffer :=
  let numChannels := AudioBuffer.numberOfChannels buffer in
  let sampleRate := AudioBuffer.sampleRate buffer in
  let blockAlign := numChannels * bytesPerSample in
  let byteRate := (sampleRate * Num.of_nat blockAlign)%Q in
  let dataSize := AudioBuffer.length buffer * blockAlign in
  let totalSize := headerSize + dataSize in
  let view := alloc totalSize in
  view ← writeString view 0 "RIFF";
  view ← setUint32 view 4 (Num.of_nat (totalSize - 8));
  view ← writeString view 8 "WAVE";
  view ← writeString view 12 "fmt ";
  view ← setUint32 view 16 (Num.of_nat 16);
  view ← setUint16 view 20 (Num.of_nat format);
  view ← setUint16 view 22 (Num.of_nat numChannels);
  view ← setUint32 view 24 sampleRate;
  view ← setUint32 view 28 byteRate;
  view ← setUint16 view 32 (Num.of_nat blockAlign);
  view ← setUint16 view 34 (Num.of_nat bitDepth);
  view ← writeString view 36 "data";
  view ← setUint32 view 40 (Num.of_nat dataSize);
  let offset := 44 in
  channelData ← for_loop numChannels
    (fun i acc => ch ← AudioBuffer.getChannelData buffer i; Some (acc ++ [ch])) [];
  for_loop (AudioBuffer.length buffer)
    (fun pos view =>
       for_loop numChannels
         (fun i view =>
            setInt16 view (offset + pos * blockAlign + i * bytesPerSample)
              (sample_value channelData i pos))
         view)
    view.

End Wav.


(* ===================================================================== *)
(** ** The container layout, as the specification words it *)
(* ===================================================================== *)

Module Layout.
Import DataView.

(** The character codes of an ASCII tag. *)
Definition ascii_bytes (s : string) : list byte :=
  map (fun ch => Z.of_nat (nat_of_ascii ch)) (list_ascii_of_string s).

(** An unsigned field of 2 or 4 bytes, least significant byte first. *)
Definition uint16_le (v : Z) : list byte := le_bytes 2 v.
Definition uint32_le (v : Z) : list byte := le_bytes 4 v.

(** A signed 16-bit field, two's complement, least significant byte first. *)
Definition int16_le (v : Z) : list byte := le_bytes 2 v.

(** The 44-byte header for [C] channels of [N] samples at rate [R]. *)
Definition header (C N : nat) (R : Q) : list byte :=
  ascii_bytes "RIFF"
  ++ uint32_le (Z.of_nat (44 + N * C * 2) - 8)
  ++ ascii_bytes "WAVE"
  ++ ascii_bytes "fmt "
  ++ uint32_le 16
  ++ uint16_le 1
  ++ uint16_le (Z.of_nat C)
  ++ uint32_le (Num.truncate R)
  ++ uint32_le (Num.truncate (R * Num.of_nat (C * 2)))
  ++ uint16_le (Z.of_nat (C * 2))
  ++ uint16_le 16
  ++ ascii_bytes "data"
  ++ uint32_le (Z.of_nat (N * C * 2)).

(** A sample clamped to [-1, 1] and scaled to the 16-bit range. *)
Definition scale (s : Q) : Q :=
  let c := Num.clamp (-1) 1 s in
  if Num.ltb c 0 then (c * 32768)%Q else (c * 32767)%Q.

(** The 16-bit integer stored for a sample. *)
Definition pcm16 (s : Q) : Z := Num.truncate (scale s).

(** Sample [pos] of channel [c]; silence where the buffer has none. *)
Definition sample_at (b : AudioBuffer.t) (c pos : nat) : Q :=
  default 0%Q (sample b c pos).

(** One frame: the samples at [pos] of all channels, in channel order. *)
Definition frame (b : AudioBuffer.t) (pos : nat) : list byte :=
  flat_map (fun c => int16_le (pcm16 (sample_at b c pos)))
           (seq 0 (AudioBuffer.numberOfChannels b)).

(** The data section: the frames in time order. *)
Definition data (b : AudioBuffer.t) : list byte :=
  flat_map (frame b) (seq 0 (AudioBuffer.length b)).

(** The inverse of the scaling, applied by a decoder to a stored integer. *)
Definition unscale (v : Z) : Q :=
  if (v <? 0)%Z then (inject_Z v / 32768)%Q else (inject_Z v / 32767)%Q.

(** The sample a decoder reads back for channel [c] at [pos]. *)
Definition decode_sample (C : nat) (wav : ArrayBuffer) (c pos : nat) : option Q :=
  unscale <$> getInt16 wav (44 + (pos * C + c) * 2).

(** Every sample of the buffer lies in [-1, 1]. *)
Definition in_unit_range (b : AudioBuffer.t) : Prop :=
  Forall (Forall (fun s => (-1 <= s)%Q ∧ (s <= 1)%Q)) (AudioBuffer.channels b).

(** The distance between sample [pos] of channel [c] and what a decoder
    reads back from the serialized buffer. *)
Definition roundtrip_error (b : AudioBuffer.t) (c pos : nat) : option Q :=
  s ← sample b c pos;
  wav ← Wav.audioBufferToWav b;
  s' ← decode_sample (AudioBuffer.numberOfChannels b) wav c pos;
  Some (Qabs (s - s')).

End Layout.

(* ===================================================================== *)
(** ** Mutable state and exceptions *)
(* ===================================================================== *)

(** The exceptions and promise rejections of the audio pipeline. *)
Inductive Exn :=
| VideoLoadError      (* 'Error cargando video: ...' from [onerror] *)
| NotSupportedError   (* [new AudioContext()] refused *)
| EncodingError       (* [decodeAudioData] rejected *)
| NetworkError        (* [fetch] or the read of its body rejected *)
| IndexSizeError      (* [getChannelData] outside the channels *)
| RangeError.         (* a [DataView] write outside the buffer *)

Inductive Result (A : Type) :=
| Ok (a : A)
| Throw (e : Exn).
Arguments Ok {A} a.
Arguments Throw {A} e.

(** A computation over a mutable state [S]: it returns or throws, and in
    both cases leaves a state behind. *)
Definition ST (S A : Type) : Type := S → Result A * S.

Definition ret {S A} (a : A) : ST S A := fun s => (Ok a, s).

Definition bind {S A B} (m : ST S A) (k : A → ST S B) : ST S B :=
  fun s => match m s with
           | (Ok a, s') => k a s'
           | (Throw e, s') => (Throw e, s')
           end.

Definition throw {S A} (e : Exn) : ST S A := fun s => (Throw e, s).

Definition get {S} : ST S S := fun s => (Ok s, s).

Definition modify {S} (f : S → S) : ST S unit := fun s => (Ok tt, f s).

(** [try { m } catch (e) { h e }]. *)
Definition try_catch {S A} (m : ST S A) (h : Exn → ST S A) : ST S A :=
  fun s => match m s with
           | (Ok a, s') => (Ok a, s')
           | (Throw e, s') => h e s'
           end.

(** [try { m } finally { f }]: [f] runs on both exits; the completion of
    [m] stands unless [f] itself throws. *)
Definition try_finally {S A} (m : ST S A) (f : ST S unit) : ST S A :=
  fun s => match m s with
           | (r, s') => match f s' with
                        | (Ok _, s'') => (r, s'')
                        | (Throw e, s'') => (Throw e, s'')
                        end
           end.

(** A fallible pure step, raising [e] on failure. *)
Definition lift_option {S A} (e : Exn) (o : option A) : ST S A :=
  match o with Some a => ret a | None => throw e end.

(** Run a computation on a component of the state. *)
Definition zoom {S T A} (proj : S → T) (inj : T → S → S) (m : ST T A) : ST S A :=
  fun s => match m (proj s) with (r, t') => (r, inj t' s) end.

Notation "x <- m ;; k" := (bind m (fun x => k))
  (at level 100, m at next level, right associativity).
Notation "m ;;; k" := (bind m (fun _ => k))
  (at level 100, right associativity).

(** [for (let i = 0; i < n; i++) body i]. *)
Fixpoint for_upto {S} (n : nat) (body : nat → ST S unit) : ST S unit :=
  match n with
  | O => ret tt
  | Datatypes.S k => for_upto k body ;;; body k
  end.

(* ===================================================================== *)
(** ** Floating-point numbers *)
(* ===================================================================== *)

(** The arithmetic of the program is that of IEEE 754: a product or a sum
    of two numbers is rounded to binary64, and a store into a
    [Float32Array] rounds to binary32, both to the nearest number, to the
    even one of two nearest.  The numbers are rationals; a result beyond
    the largest finite number, which the program turns into an infinity,
    is outside the model ([finite32] tells when a store stays inside), and
    the two zeros are one. *)
Module Float.

(** [floor (log2 |q|)], for [q] other than zero. *)
Definition exponent (q : Q) : Z :=
  let k := (Z.log2 (Z.abs (Qnum q)) - Z.log2 (Zpos (Qden q)))%Z in
  if Qle_bool (2 ^ k) (Qabs q) then k else (k - 1)%Z.

(** The integer nearest to [q]; the even one when [q] is half-way. *)
Definition nearest_even (q : Q) : Z :=
  let f := Qfloor q in
  match (q - inject_Z f ?= 1 # 2)%Q with
  | Lt => f
  | Gt => (f + 1)%Z
  | Eq => if Z.even f then f else (f + 1)%Z
  end.

(** Rounding to [prec] significant bits, the last one worth at least
    [2 ^ emin] (below the normal range the numbers are [2 ^ emin] apart). *)
Definition round (prec emin : Z) (q : Q) : Q :=
  if Qeq_bool q 0 then 0%Q
  else
    let e := Z.max (exponent q - (prec - 1)) emin in
    Qred (inject_Z (nearest_even (q / 2 ^ e)) * 2 ^ e).

(** Rounding to binary64, and [Math.fround]: rounding to binary32. *)
Definition round64 : Q → Q := round 53 (-1074).
Definition fround : Q → Q := round 24 (-149).

(** [a * b] and [a + b] on numbers. *)
Definition mul (a b : Q) : Q := round64 (a * b).
Definition add (a b : Q) : Q := round64 (a + b).

(** The number that a decimal literal of the source denotes. *)
Definition literal (q : Q) : Q := round64 q.

(** The numbers [m * 2 ^ e] with [|m| < 2 ^ prec] and [e >= emin]. *)
Definition representable (prec emin : Z) (q : Q) : Prop :=
  ∃ m e, (Z.abs m < 2 ^ prec)%Z ∧ (emin ≤ e)%Z ∧ (q == inject_Z m * 2 ^ e)%Q.

(** The finite binary32 numbers: the values of a [Float32Array]. *)
Definition binary32 (q : Q) : Prop :=
  ∃ m e, (Z.abs m < 2 ^ 24)%Z ∧ (-149 ≤ e ≤ 104)%Z
         ∧ (q == inject_Z m * 2 ^ e)%Q.

(** The numbers that a store into a [Float32Array] keeps finite. *)
Definition finite32 (q : Q) : Prop := (Qabs q < 2 ^ 128 - 2 ^ 103)%Q.

End Float.

(* ===================================================================== *)
(** ** The mixing passes, on the output buffer *)
(* ===================================================================== *)

Module Mix.

(** [const data = buffer.getChannelData(c)] on a buffer that is only read. *)
Definition channel_of {S} (b : AudioBuffer.t) (c : nat) : ST S (list Q) :=
  lift_option IndexSizeError (AudioBuffer.getChannelData b c).

(** [const outputData = outputBuffer.getChannelData(c)]: the array aliases
    the buffer, so the model keeps the index [c] and checks it. *)
Definition output_channel (c : nat) : ST AudioBuffer.t unit :=
  out <- get ;; _ <- channel_of out c ;; ret tt.

(** [data[i]] in arithmetic; on a well-formed buffer the index is in range. *)
Definition at_index (data : list Q) (i : nat) : Q := default 0%Q (data !! i).

(** [outputData[i]], read through the alias. *)
Definition read_output (c i : nat) : ST AudioBuffer.t Q :=
  out <- get ;;
  ret (at_index (default [] (AudioBuffer.channels out !! c)) i).

(** [outputData[i] = v], written through the alias: the array is a
    [Float32Array], which stores [v] rounded to binary32; a write outside
    the array does nothing. *)
Definition write_output (c i : nat) (v : Q) : ST AudioBuffer.t unit :=
  modify (fun out =>
    AudioBuffer.make (AudioBuffer.sampleRate out) (AudioBuffer.length out)
      (alter (fun data => <[i := Float.fround v]> data) c
         (AudioBuffer.channels out))).

(** Lines 52-61: copy the audio of the video with its volume. *)
Definition primary_pass (videoAudioBuffer : AudioBuffer.t) (videoVolume : Q)
  : ST AudioBuffer.t unit :=
  out <- get ;;
  for_upto (AudioBuffer.numberOfChannels out) (fun channel =>
    output_channel channel ;;;
    videoData <- channel_of videoAudioBuffer channel ;;
    for_upto (AudioBuffer.length videoAudioBuffer) (fun i =>
      let normalizedVideoVolume := Num.max 0 (Num.min 1 videoVolume) in
      write_output channel i
        (Float.mul (at_index videoData i) normalizedVideoVolume))).

(** Lines 76-91: mix a decoded audio track into the output. *)
Definition secondary_mix (videoAudioBuffer audioTrackBuffer : AudioBuffer.t)
  (audioVolume : Q) : ST AudioBuffer.t unit :=
  let audioLength :=
    Nat.min (AudioBuffer.length audioTrackBuffer)
            (AudioBuffer.length videoAudioBuffer) in
  let normalizedAudioVolume :=
    Float.mul (Num.max 0 (Num.min 1 audioVolume)) (Float.literal (8 # 10)) in
  out <- get ;;
  for_upto (AudioBuffer.numberOfChannels out) (fun channel =>
    output_channel channel ;;;
    audioData <- channel_of audioTrackBuffer
                   (channel mod AudioBuffer.numberOfChannels audioTrackBuffer) ;;
    for_upto audioLength (fun i =>
      o <- read_output channel i ;;
      let mixed :=
        Float.add o (Float.mul (at_index audioData i) normalizedAudioVolume) in
      write_output channel i (Num.max (-1) (Num.min 1 mixed)))).

(** The literal [0.001] of line 108. *)
Definition threshold : Q := Float.literal (1 # 1000).

(** Lines 104-114: is some sample above the threshold in magnitude?  The
    two loops leave at the first such sample. *)
Definition has_audio (out : AudioBuffer.t) : bool :=
  existsb (existsb (fun s => Num.gtb (Num.abs s) threshold))
          (AudioBuffer.channels out).

(** Lines 119-125: put the audio of the video back. *)
Definition restore_video (videoAudioBuffer : AudioBuffer.t) (videoVolume : Q)
  : ST AudioBuffer.t unit :=
  out <- get ;;
  for_upto (AudioBuffer.numberOfChannels out) (fun channel =>
    output_channel channel ;;;
    videoData <- channel_of videoAudioBuffer channel ;;
    for_upto (AudioBuffer.length videoAudioBuffer) (fun i =>
      write_output channel i (Float.mul (at_index videoData i) videoVolume))).

End Mix.

(* ===================================================================== *)
(** ** The audio compositor *)
(* ===================================================================== *)

Module Compositor.

(** A [Blob]; a [File] is a Blob with a name. *)
Record Blob := mkBlob {
  blob_bytes : list Z;
  blob_type : string;
  blob_name : option string
}.

(** [new Blob()]. *)
Definition empty_blob : Blob := mkBlob [] "" None.

(** [new File([b], name, { type })]. *)
Definition new_file (b : Blob) (name type : string) : Blob :=
  mkBlob (blob_bytes b) type (Some name).

(** Modelled from the spec: the declaration of [AudioTrack], imported from
    [./supabase], is not among the sources; of the descriptor (id,
    retrievable URL, volume) the function reads only the URL, as
    [audio_url]. *)
Record AudioTrack := mkAudioTrack { audio_url : string }.

Record AudioOptions := mkAudioOptions {
  opt_videoVolume : Q;
  opt_audioVolume : Q;
  isMuted : bool;
  isAudioMuted : bool
}.

Inductive Level := Log | Warn | Error.

(** What the function does to the world outside its own variables. *)
Inductive Event :=
| CreateElement
| CreateObjectURL (u : nat)
| NewAudioContext
| CloseAudioContext
| PauseVideo
| RevokeObjectURL (u : option nat)
| RemoveVideo
| Console (l : Level)
| Progress (p : Q).

(** The browser, as far as the function observes it. *)
Record Env := mkEnv {
  object_url : nat;                          (* the URL [createObjectURL] hands out *)
  load_metadata : option Q;                  (* [onloadedmetadata] with the duration, or [onerror] *)
  context_available : bool;                  (* does [new AudioContext()] succeed *)
  decodeAudioData : list Z → option AudioBuffer.t;
  fetch : string → option (list Z)          (* the body of the response *)
}.

Record VideoElement := mkVideo { src : option nat }.

(** The variables of one invocation and the trace of its effects.
    [outputBuffer] is the buffer [createBuffer] returned, empty before. *)
Record World := mkWorld {
  videoElement : option VideoElement;
  audioContext : option unit;
  outputBuffer : AudioBuffer.t;
  trace : list Event
}.

Definition init : World :=
  mkWorld None None (AudioBuffer.createBuffer 0 0 0) [].

Definition set_videoElement (v : option VideoElement) (w : World) : World :=
  mkWorld v (audioContext w) (outputBuffer w) (trace w).
Definition set_audioContext (c : option unit) (w : World) : World :=
  mkWorld (videoElement w) c (outputBuffer w) (trace w).
Definition set_outputBuffer (b : AudioBuffer.t) (w : World) : World :=
  mkWorld (videoElement w) (audioContext w) b (trace w).
Definition add_event (e : Event) (w : World) : World :=
  mkWorld (videoElement w) (audioContext w) (outputBuffer w) (trace w ++ [e]).

Definition emit (e : Event) : ST World unit := modify (add_event e).

(** A computation on the output buffer, inside the invocation. *)
Definition on_output {A} (m : ST AudioBuffer.t A) : ST World A :=
  zoom outputBuffer set_outputBuffer m.

(** Lines 22-31: the video element and the wait for its metadata. *)
Definition await_metadata (env : Env) : ST World Q :=
  emit CreateElement ;;;
  modify (set_videoElement (Some (mkVideo None))) ;;;
  emit (CreateObjectURL (object_url env)) ;;;
  modify (set_videoElement (Some (mkVideo (Some (object_url env))))) ;;;
  lift_option VideoLoadError (load_metadata env).

(** Line 34: [audioContext = new AudioContext()]. *)
Definition new_AudioContext (env : Env) : ST World unit :=
  if context_available env
  then emit NewAudioContext ;;; modify (set_audioContext (Some tt))
  else throw NotSupportedError.

(** Lines 64-101: the audio track, when there is one with volume. *)
Definition secondary_pass (env : Env) (videoAudioBuffer : AudioBuffer.t)
  (audioTrack : option AudioTrack) (audioVolume : Q) : ST World unit :=
  match audioTrack with
  | Some track =>
      if Num.gtb audioVolume 0 then
        emit (Console Log) ;;;
        try_catch
          (audioTrackArrayBuffer <-
             lift_option NetworkError (fetch env (audio_url track)) ;;
           audioTrackBuffer <-
             lift_option EncodingError (decodeAudioData env audioTrackArrayBuffer) ;;
           on_output (Mix.secondary_mix videoAudioBuffer audioTrackBuffer audioVolume))
          (fun error => emit (Console Error))
      else emit (Console Log)
  | None => emit (Console Log)
  end.

(** Lines 103-126: the check that the audio of the video was not lost. *)
Definition validate_mix (videoAudioBuffer : AudioBuffer.t) (videoVolume : Q)
  : ST World unit :=
  out <- on_output get ;;
  let hasAudio := Mix.has_audio out in
  if negb hasAudio && Num.gtb videoVolume 0 then
    emit (Console Warn) ;;;
    on_output (Mix.restore_video videoAudioBuffer videoVolume)
  else ret tt.

(** Lines 38-126: from the decoded video audio to the buffer to serialize. *)
Definition mix (env : Env) (videoAudioBuffer : AudioBuffer.t)
  (audioTrack : option AudioTrack) (videoVolume audioVolume : Q) : ST World unit :=
  modify (set_outputBuffer
            (AudioBuffer.createBuffer
               (AudioBuffer.numberOfChannels videoAudioBuffer)
               (AudioBuffer.length videoAudioBuffer)
               (AudioBuffer.sampleRate videoAudioBuffer))) ;;;
  emit (Console Log) ;;;
  on_output (Mix.primary_pass videoAudioBuffer videoVolume) ;;;
  secondary_pass env videoAudioBuffer audioTrack audioVolume ;;;
  validate_mix videoAudioBuffer videoVolume.

(** The result of the recombination step. *)
Module Combined.
Record t := make { videoBlob : Blob; thumbnailBlob : Blob }.
End Combined.

(** Lines 244-257. *)
Definition combineVideoAndAudio (videoFile audioFile : Blob) (duration : Q)
  (onProgress : Q → ST World unit) (options : AudioOptions) : ST World Combined.t :=
  ret (Combined.make videoFile empty_blob).

(** Lines 168-174: the [finally] block. *)
Definition cleanup : ST World unit :=
  w <- get ;;
  (match audioContext w with
   | Some _ => emit CloseAudioContext
   | None => ret tt
   end) ;;;
  match videoElement w with
  | Some v => emit PauseVideo ;;; emit (RevokeObjectURL (src v)) ;;; emit RemoveVideo
  | None => ret tt
  end.

Definition processVideoAudio (env : Env) (videoBlob : Blob)
  (audioTrack : option AudioTrack) (videoVolume audioVolume : Q)
  (onProgress : option (Q → ST World unit)) : ST World Blob :=
  emit (Console Log) ;;;
  try_finally
    (try_catch
       (videoDuration <- await_metadata env ;;
        new_AudioContext env ;;;
        let videoArrayBuffer := blob_bytes videoBlob in
        videoAudioBuffer <-
          lift_option EncodingError (decodeAudioData env videoArrayBuffer) ;;
        mix env videoAudioBuffer audioTrack videoVolume audioVolume ;;;
        outputBuffer <- on_output get ;;
        wav <- lift_option RangeError (Wav.audioBufferToWav outputBuffer) ;;
        let processedAudioBlob := mkBlob wav "audio/wav" None in
        emit (Console Log) ;;;
        let videoFile := new_file videoBlob "video.webm" "video/webm" in
        let audioFile := new_file processedAudioBlob "audio.wav" "audio/wav" in
        combined <- combineVideoAndAudio videoFile audioFile videoDuration
                      (default (fun progress => ret tt) onProgress)
                      (mkAudioOptions videoVolume audioVolume false false) ;;
        let processedBlob := Combined.videoBlob combined in
        emit (Console Log) ;;;
        ret processedBlob)
       (fun error => emit (Console Error) ;;; throw error))
    cleanup.

End Compositor.

(* ===================================================================== *)
(** ** The thumbnail extractor *)
(* ===================================================================== *)

Module Thumbnail.

(** What the promise of [generateThumbnail] is rejected with. *)
Inductive Error :=
| TimeoutError       (* 'Timeout después de 60 segundos' *)
| MediaError         (* the event passed to [video.onerror] *)
| CaptureError       (* whatever the [try] block of [tryCapture] threw *)
| BlobError          (* 'Error al generar el blob del thumbnail' *)
| AttemptsExceeded.  (* 'No se pudo capturar el frame después de varios intentos' *)

Inductive Settled :=
| Resolved (blob : Compositor.Blob)
| Rejected (e : Error).

(** How the wait for the video ends. *)
Inductive Load := Loaded | LoadFailed | TimedOut.

(** How the [try] block of [tryCapture] ends: it throws, or it reaches
    [canvas.toBlob], whose callback runs later. *)
Inductive Capture := Throws | Drawn.

(** What happens after the synchronous part of the executor. *)
Inductive Event :=
| Seeked (c : Capture)                        (* the video fires [seeked] *)
| Timer (c : Capture)                         (* a [setTimeout(tryCapture, 1000)] is due *)
| BlobReady (blob : option Compositor.Blob).  (* a [toBlob] callback runs *)

(** The effects, in the order in which they happen. *)
Inductive Action :=
| CreateElement
| CreateObjectURL
| Rasterize (attempt : nat)
| Settle (s : Settled)
| RevokeObjectURL
| RemoveVideo.

Record State := mkState {
  attempts : nat;
  result : option Settled;   (* the promise, settled at most once *)
  onseeked : bool;           (* is the [seeked] handler installed *)
  timers : nat;              (* retries scheduled and not yet run *)
  pending : nat;             (* [toBlob] callbacks not yet run *)
  log : list Action
}.

Definition MAX_ATTEMPTS : nat := 3.

Definition act (a : Action) (st : State) : State :=
  mkState (attempts st) (result st) (onseeked st) (timers st) (pending st)
    (log st ++ [a]).

(** [resolve(blob)] and [reject(error)]: only the first call settles. *)
Definition settle (s : Settled) (st : State) : State :=
  match result st with
  | Some _ => st
  | None =>
      mkState (attempts st) (Some s) (onseeked st) (timers st) (pending st)
        (log st ++ [Settle s])
  end.

(** Lines 47-87. *)
Definition tryCapture (c : Capture) (st : State) : State :=
  if MAX_ATTEMPTS <=? attempts st then settle (Rejected AttemptsExceeded) st
  else
    let attempts' := Datatypes.S (attempts st) in
    let st := mkState attempts' (result st) (onseeked st) (timers st)
                (pending st) (log st ++ [Rasterize attempts']) in
    match c with
    | Drawn =>
        mkState (attempts st) (result st) (onseeked st) (timers st)
          (Datatypes.S (pending st)) (log st)
    | Throws =>
        if attempts st <? MAX_ATTEMPTS
        then mkState (attempts st) (result st) (onseeked st)
               (Datatypes.S (timers st)) (pending st) (log st)
        else settle (Rejected CaptureError) st
    end.

(** Lines 2-98: the executor, from the creation of the video element to
    the end of its [finally] block.  [load] tells how the wait ends and [c]
    how the first capture goes. *)
Definition generateThumbnail (load : Load) (c : Capture) : State :=
  let st := mkState 0 None false 0 0 [CreateElement; CreateObjectURL] in
  let st :=
    match load with
    | Loaded =>
        tryCapture c
          (mkState (attempts st) (result st) true (timers st) (pending st) (log st))
    | LoadFailed => settle (Rejected MediaError) st
    | TimedOut => settle (Rejected TimeoutError) st
    end in
  act RemoveVideo (act RevokeObjectURL st).

(** One later turn of the event loop. *)
Definition step (st : State) (ev : Event) : State :=
  match ev with
  | Seeked c => if onseeked st then tryCapture c st else st
  | Timer c =>
      match timers st with
      | O => st
      | Datatypes.S k =>
          tryCapture c
            (mkState (attempts st) (result st) (onseeked st) k (pending st) (log st))
      end
  | BlobReady blob =>
      match pending st with
      | O => st
      | Datatypes.S k =>
          let st := mkState (attempts st) (result st) (onseeked st) (timers st)
                      k (log st) in
          match blob with
          | Some b => settle (Resolved b) st
          | None => settle (Rejected BlobError) st
          end
      end
  end.

Definition run (st : State) (events : list Event) : State :=
  foldl step st events.

(** How often an action occurs in a log. *)
Definition is_rasterize (a : Action) : bool :=
  match a with Rasterize _ => true | _ => false end.
Definition is_revoke (a : Action) : bool :=
  match a with RevokeObjectURL => true | _ => false end.
Definition is_remove (a : Action) : bool :=
  match a with RemoveVideo => true | _ => false end.
Definition is_create_url (a : Action) : bool :=
  match a with CreateObjectURL => true | _ => false end.
Definition is_create_element (a : Action) : bool :=
  match a with CreateElement => true | _ => false end.

Definition count (p : Action → bool) (l : list Action) : nat :=
  List.length (List.filter p l).

End Thumbnail.

(* ===================================================================== *)
(** ** The stores: [useAudioStore] and [useVideoStore]

    Modelling conventions.
    - The state of a store is a record of its data fields; an action is a
      function from the state before to the state after, with the result of
      its promise where the callers can see it.
    - The services behind [supabase] are not part of the program: each
      request is answered by a function given as argument, which tells the
      data or the error of the answer.  The requests themselves are taken to
      be answered, and an answer without error to hold its data.
    - [null] and [undefined] are both [None].
    - A string is a [string] of the library, compared with [String.eqb];
      [sanitizeFileName], which looks at single characters, works on the list
      of UTF-16 code units. *)
(* ===================================================================== *)

(** *** Values thrown by the remote calls *)

(** What a remote call reports or rejects with, as far as the stores look
    at it: whether it is an instance of [Error], its [code], its
    [message]. *)
Record Thrown := mkThrown {
  instance_of_Error : bool;
  code : option string;
  message : option string
}.

(** [new Error(message)]. *)
Definition new_Error (m : string) : Thrown := mkThrown true None (Some m).

(** How an action of a store ends. *)
Inductive Completion (A : Type) :=
| Returned (a : A)
| Rejected (e : Thrown).
Arguments Returned {A} a.
Arguments Rejected {A} e.

(* ===================================================================== *)
(** ** The audio store *)
(* ===================================================================== *)

Module AudioStore.

Record Audio := mkAudio {
  id : string;
  name : string;
  url : string;
  user_id : string;
  created_at : string;
  duration : Q;
  waveform_url : option string
}.

Record State := mkState {
  audios : list Audio;
  loading : bool;
  error : option string
}.

Definition initial : State := mkState [] false None.

(** The answer of the query on [audio_tracks]: its [data], possibly
    [null], or its [error]. *)
Inductive Response :=
| Answer (data : option (list Audio))
| Refused (e : Thrown).

(** [fetchAudios], up to its [await]. *)
Definition fetchAudios_begin (state : State) : State :=
  mkState (audios state) true None.

(** [fetchAudios], from the answer on. *)
Definition fetchAudios_end (response : Response) (state : State) : State :=
  match response with
  | Answer data => mkState (default [] data) false (error state)
  | Refused e =>
      mkState (audios state) false
        (if instance_of_Error e then message e else Some "Error fetching audios")
  end.

Definition fetchAudios (response : Response) (state : State) : State :=
  fetchAudios_end response (fetchAudios_begin state).

(** [addAudio]: [audios: [audio, ...state.audios]]. *)
Definition addAudio (audio : Audio) (state : State) : State :=
  mkState (audio :: audios state) (loading state) (error state).

(** [removeAudio]: [audios: state.audios.filter(audio => audio.id !== id)]. *)
Definition removeAudio (id' : string) (state : State) : State :=
  mkState (filter (fun audio => id audio ≠ id') (audios state))
    (loading state) (error state).

End AudioStore.

(* ===================================================================== *)
(** ** The video store *)
(* ===================================================================== *)

Module VideoStore.

(** A row of [videos].  The counters are [null] where the database has no
    value; the store reads them as [count || 0]. *)
Record Video := mkVideo {
  id : string;
  title : string;
  description : option string;
  video_url : string;
  thumbnail_url : string;
  user_id : string;
  audio_track_id : option string;
  video_volume : option Q;
  audio_volume : Q;
  likes_count : option nat;
  comments_count : option nat;
  views_count : option nat;
  created_at : string;
  updated_at : string
}.

Inductive FeedType := all | following | foryou | explore.

Record State := mkState {
  videos : list Video;
  currentVideo : option Video;
  loading : bool;
  error : option string;
  uploadProgress : nat;
  isUploading : bool;
  uploadError : option string;
  hasMore : bool;
  feedType : FeedType
}.

(** The initial state of the store. *)
Definition initial : State :=
  mkState [] None false None 0 false None true all.

Definition PAGE_SIZE : nat := 5.

(** [fileName.replace(/[^a-zA-Z0-9.-]/g, '_')], on the UTF-16 code units
    of the name. *)
Definition is_safe (c : N) : bool :=
  ((97 <=? c) && (c <=? 122)            (* a-z *)
   || (65 <=? c) && (c <=? 90)          (* A-Z *)
   || (48 <=? c) && (c <=? 57)          (* 0-9 *)
   || (c =? 46)                         (* . *)
   || (c =? 45))%N.                     (* - *)

Definition sanitizeFileName (fileName : list N) : list N :=
  map (fun c => if is_safe c then c else 95%N) fileName.

(** [count || 0]. *)
Definition or_zero (count : option nat) : nat := default 0 count.

(** [{ ...video, likes_count: video.likes_count || 0, comments_count: ...,
    views_count: ... }]. *)
Definition with_counts (video : Video) : Video :=
  mkVideo (id video) (title video) (description video) (video_url video)
    (thumbnail_url video) (user_id video) (audio_track_id video)
    (video_volume video) (audio_volume video)
    (Some (or_zero (likes_count video)))
    (Some (or_zero (comments_count video)))
    (Some (or_zero (views_count video)))
    (created_at video) (updated_at video).

Definition set_likes (n : nat) (v : Video) : Video :=
  mkVideo (id v) (title v) (description v) (video_url v) (thumbnail_url v)
    (user_id v) (audio_track_id v) (video_volume v) (audio_volume v)
    (Some n) (comments_count v) (views_count v) (created_at v) (updated_at v).

Definition set_comments (n : nat) (v : Video) : Video :=
  mkVideo (id v) (title v) (description v) (video_url v) (thumbnail_url v)
    (user_id v) (audio_track_id v) (video_volume v) (audio_volume v)
    (likes_count v) (Some n) (views_count v) (created_at v) (updated_at v).

Definition set_views (n : nat) (v : Video) : Video :=
  mkVideo (id v) (title v) (description v) (video_url v) (thumbnail_url v)
    (user_id v) (audio_track_id v) (video_volume v) (audio_volume v)
    (likes_count v) (comments_count v) (Some n) (created_at v) (updated_at v).

(** The update shared by the three counters: the videos with the id
    [videoId] in the list, and [currentVideo] when it has that id, are
    replaced by [f] of themselves. *)
Definition update_video (videoId : string) (f : Video → Video) (state : State)
  : State :=
  mkState
    (map (fun v => if String.eqb (id v) videoId then f v else v) (videos state))
    (match currentVideo state with
     | Some current =>
         if String.eqb (id current) videoId then Some (f current) else Some current
     | None => None
     end)
    (loading state) (error state) (uploadProgress state) (isUploading state)
    (uploadError state) (hasMore state) (feedType state).

(** Lines 148-157: one more view. *)
Definition count_view (videoId : string) (state : State) : State :=
  update_video videoId (fun v => set_views (or_zero (views_count v) + 1) v) state.

(** Lines 424-438: the exact number of likes. *)
Definition store_likes (videoId : string) (newLikesCount : option nat)
  (state : State) : State :=
  update_video videoId (set_likes (or_zero newLikesCount)) state.

(** Lines 494-508: the exact number of comments. *)
Definition store_comments (videoId : string) (newCommentsCount : option nat)
  (state : State) : State :=
  update_video videoId (set_comments (or_zero newCommentsCount)) state.

(** The answer of the query of [fetchVideos]: the rows of the range, or
    an error with its message. *)
Inductive Response :=
| Rows (videosData : list Video)
| Failed (e : Thrown).

(** Lines 165-219.  [query from to] is the answer to
    [.order('created_at').range(from, to)]. *)
Definition fetchVideos (query : nat → nat → Response) (page : nat)
  (state : State) : State :=
  let videos0 := videos state in
  let from := page * PAGE_SIZE in
  let to := from + PAGE_SIZE - 1 in
  let settled :=
    match query from to with
    | Rows videosData =>
        let transformedData := map with_counts videosData in
        let newVideos :=
          if page =? 0 then transformedData else videos0 ++ transformedData in
        let currentVideo' :=
          match currentVideo state with
          | Some current =>
              match List.find (fun v => String.eqb (id v) (id current))
                      transformedData with
              | Some updatedCurrentVideo => Some updatedCurrentVideo
              | None => Some current
              end
          | None => None
          end in
        mkState newVideos currentVideo' true None (uploadProgress state)
          (isUploading state) (uploadError state)
          (List.length videosData =? PAGE_SIZE) (feedType state)
    | Failed e =>
        mkState (videos state) (currentVideo state) true (message e)
          (uploadProgress state) (isUploading state) (uploadError state)
          (hasMore state) (feedType state)
    end in
  mkState (videos settled) (currentVideo settled) false (error settled)
    (uploadProgress settled) (isUploading settled) (uploadError settled)
    (hasMore settled) (feedType settled).

(** [fetchVideos(0)], [fetchVideos(1)], ..., [fetchVideos(k)], each awaited
    before the next. *)
Definition fetch_through (query : nat → nat → Response) (k : nat)
  (state : State) : State :=
  foldl (fun st page => fetchVideos query page st) state (seq 0 (Datatypes.S k)).

(** The answers over a table of [videos] that does not change between the
    requests: [.range(from, to)] is the rows [from] to [to], both included,
    of the table in the order of the query. *)
Definition range (table : list Video) (from to : nat) : Response :=
  Rows (take (to + 1 - from) (drop from table)).

(** The signed-in user, as far as the store reads it. *)
Record User := mkUser { uid : string }.

(** Lines 112-163.  [existing_view] tells whether [video_views] has a row
    for the user and the video, [insert_view] how the insertion ends. *)
Definition marcarVideoVisto (user : option User)
  (existing_view : string → string → bool)
  (insert_view : string → string → option Thrown)
  (videoId : string) (state : State) : Completion unit * State :=
  match user with
  | None => (Returned tt, state)
  | Some u =>
      if existing_view (uid u) videoId then (Returned tt, state)
      else
        match insert_view (uid u) videoId with
        | Some error' =>
            if bool_decide (code error' = Some "23505")
            then (Returned tt, state)
            else (Rejected error', state)
        | None => (Returned tt, count_view videoId state)
        end
  end.

(** [s.split(sep)] for a separator of one character. *)
Fixpoint split (sep : ascii) (s : string) : list string :=
  match s with
  | EmptyString => [EmptyString]
  | String c rest =>
      if Ascii.eqb c sep then EmptyString :: split sep rest
      else
        match split sep rest with
        | segment :: segments => String c segment :: segments
        | [] => [String c EmptyString]
        end
  end.

(** [s.split(sep).pop()], as a template literal renders it. *)
Definition last_segment (sep : ascii) (s : string) : string :=
  default "undefined" (last (split sep s)).

(** The row that [insertVideoRecord] sends. *)
Module Row.
Record t := make {
  title : string;
  description : option string;
  video_url : string;
  thumbnail_url : string;
  user_id : string;
  audio_track_id : option string;
  audio_volume : Q;
  created_at : string;
  updated_at : string
}.
End Row.

(** The argument of [insertVideoRecord]. *)
Module Data.
Record t := make {
  title : string;
  description : option string;
  video_url : string;
  thumbnail_url : string;
  user_id : string;
  audio_track_id : option string;
  audio_volume : Q
}.
End Data.

Record UploadOptions := mkUploadOptions {
  audioTrackId : option string;
  audioVolume : option Q
}.

Record File := mkFile { file_name : string; file_blob : Compositor.Blob }.

(** The remote services and the clock, as [uploadVideo] meets them:
    [Date_now k] is the [k]-th reading of the clock during the action. *)
Record Remote := mkRemote {
  getUser : option User;
  Date_now : nat → N;
  toISOString : N → string;
  storage_upload : string → string → Compositor.Blob → option Thrown;
  getPublicUrl : string → string → string;
  generateThumbnail : File → Completion Compositor.Blob;
  insert : Row.t → Completion Video
}.

(** The requests that reach the storage and the database. *)
Inductive Call :=
| Upload (bucket path : string) (body : Compositor.Blob)
| Insert (row : Row.t).

(** Lines 63-94; [tick] counts the readings of the clock made before. *)
Definition insertVideoRecord (remote : Remote) (tick : nat) (data : Data.t)
  : Completion Video * list Call :=
  let row :=
    Row.make (Data.title data) (Data.description data) (Data.video_url data)
      (Data.thumbnail_url data) (Data.user_id data) (Data.audio_track_id data)
      (Data.audio_volume data)
      (toISOString remote (Date_now remote tick))
      (toISOString remote (Date_now remote (Datatypes.S tick))) in
  match insert remote row with
  | Rejected error' => (Rejected error', [Insert row])
  | Returned record => (Returned (with_counts record), [Insert row])
  end.

(** [description || null] and [options?.audioTrackId || null]. *)
Definition or_null (s : option string) : option string :=
  match s with
  | Some EmptyString => None
  | _ => s
  end.

(** [options?.audioVolume || 0.5]. *)
Definition or_half (v : option Q) : Q :=
  match v with
  | Some q => if Qeq_bool q 0 then 0.5%Q else q
  | None => 0.5%Q
  end.

Definition set_upload (uploading : bool) (progress : nat)
  (uploadError' : option string) (state : State) : State :=
  mkState (videos state) (currentVideo state) (loading state) (error state)
    progress uploading uploadError' (hasMore state) (feedType state).

(** What the run of [uploadVideo] leaves behind: the store, the requests
    sent, and the successive values given to [uploadProgress]. *)
Record Run := mkRun {
  store : State;
  calls : list Call;
  progress : list nat
}.

(** The [catch] block of [uploadVideo]. *)
Definition upload_failed (e : Thrown) (state : State) (sent : list Call)
  (shown : list nat) : Completion Video * Run :=
  (Rejected e,
   mkRun
     (set_upload false (uploadProgress state)
        (if instance_of_Error e then message e else Some "Error uploading video")
        state)
     sent shown).

(** Lines 221-293. *)
Definition uploadVideo (remote : Remote) (file : File)
  (title description : string) (options : option UploadOptions)
  (state : State) : Completion Video * Run :=
  let st := set_upload true 0 None state in
  match getUser remote with
  | None => upload_failed (new_Error "No hay usuario autenticado") st [] [0]
  | Some user =>
      let fileExt := last_segment "." (file_name file) in
      let fileName :=
        (uid user ++ "/" ++ pretty (Date_now remote 0) ++ "." ++ fileExt)%string in
      let sent := [Upload "videos" fileName (file_blob file)] in
      match storage_upload remote "videos" fileName (file_blob file) with
      | Some uploadError' => upload_failed uploadError' st sent [0]
      | None =>
          let st := set_upload (isUploading st) 50 (uploadError st) st in
          let videoUrl := getPublicUrl remote "videos" fileName in
          match generateThumbnail remote file with
          | Rejected e => upload_failed e st sent [0; 50]
          | Returned thumbnailBlob =>
              let thumbnailFileName :=
                (uid user ++ "/" ++ pretty (Date_now remote 1) ++ "_thumb.jpg")%string in
              let sent := sent ++ [Upload "thumbnails" thumbnailFileName thumbnailBlob] in
              match storage_upload remote "thumbnails" thumbnailFileName
                      thumbnailBlob with
              | Some thumbnailError => upload_failed thumbnailError st sent [0; 50]
              | None =>
                  let st := set_upload (isUploading st) 75 (uploadError st) st in
                  let thumbnailUrl :=
                    getPublicUrl remote "thumbnails" thumbnailFileName in
                  let '(inserted, requests) :=
                    insertVideoRecord remote 2
                      (Data.make title (or_null (Some description)) videoUrl
                         thumbnailUrl (uid user)
                         (or_null (options ≫= audioTrackId))
                         (or_half (options ≫= audioVolume))) in
                  let sent := sent ++ requests in
                  match inserted with
                  | Rejected e => upload_failed e st sent [0; 50; 75]
                  | Returned videoRecord =>
                      (Returned videoRecord,
                       mkRun (set_upload false 100 (uploadError st) st) sent
                         [0; 50; 75; 100])
                  end
              end
          end
      end
  end.

(** What [uploadVideo] awaits from the extractor of thumbnails: the
    settlement of its promise, with the value that a failed capture
    threw. *)
Definition thumbnail_outcome (thrown : Thrown) (s : Thumbnail.Settled)
  : Completion Compositor.Blob :=
  match s with
  | Thumbnail.Resolved blob => Returned blob
  | Thumbnail.Rejected Thumbnail.TimeoutError =>
      Rejected (new_Error "Timeout después de 60 segundos")
  | Thumbnail.Rejected Thumbnail.MediaError =>
      Rejected (mkThrown false None None)
  | Thumbnail.Rejected Thumbnail.CaptureError => Rejected thrown
  | Thumbnail.Rejected Thumbnail.BlobError =>
      Rejected (new_Error "Error al generar el blob del thumbnail")
  | Thumbnail.Rejected Thumbnail.AttemptsExceeded =>
      Rejected (new_Error "No se pudo capturar el frame después de varios intentos")
  end.

(** The columns of a video that [deleteVideo] reads. *)
Record Stored := mkStored {
  stored_url : option string;   (* [video_url] *)
  owner : string                (* [user_id] *)
}.

(** The services as [deleteVideo] meets them: the row of the video, if
    any, or the error of the query; how the removal of a file and the
    deletion of the row end; and the answers to the [fetchVideos(0)] that
    follows. *)
Record Deletion := mkDeletion {
  select_video : string → Completion (option Stored);
  storage_remove : string → option Thrown;
  delete_row : string → option Thrown;
  refreshed : nat → nat → Response
}.

(** The requests of [deleteVideo] that change something. *)
Inductive Request :=
| Remove (path : string)
| DeleteRow (videoId : string).

Definition set_loading (loading' : bool) (error' : option string)
  (state : State) : State :=
  mkState (videos state) (currentVideo state) loading' error'
    (uploadProgress state) (isUploading state) (uploadError state)
    (hasMore state) (feedType state).

(** Lines 329-343: the path to remove from the storage, if any. *)
Definition stored_path (video : Stored) : option string :=
  match or_null (stored_url video) with
  | Some url =>
      match last_segment "/" url with
      | EmptyString => None
      | fileName => Some (owner video ++ "/" ++ fileName)%string
      end
  | None => None
  end.

(** Lines 316-361.  The result is the store, the requests made, and the
    storage errors that were only logged. *)
Definition deleteVideo (remote : Deletion) (videoId : string) (state : State)
  : State * list Request * list Thrown :=
  let st := set_loading true None state in
  let failed (e : Thrown) (sent : list Request) (logged : list Thrown) :=
    (set_loading false (message e) st, sent, logged) in
  match select_video remote videoId with
  | Rejected fetchError => failed fetchError [] []
  | Returned None => failed (new_Error "Video no encontrado") [] []
  | Returned (Some video) =>
      let '(sent, logged) :=
        match stored_path video with
        | Some path =>
            ([Remove path],
             match storage_remove remote path with
             | Some storageError => [storageError]
             | None => []
             end)
        | None => ([], [])
        end in
      let sent := sent ++ [DeleteRow videoId] in
      match delete_row remote videoId with
      | Some deleteError => failed deleteError sent logged
      | None =>
          let st := fetchVideos (refreshed remote) 0 st in
          (set_loading false (error st) st, sent, logged)
      end
  end.

End VideoStore.

(* ===================================================================== *)
(** ** What the mixing loops compute, in closed form *)
(* ===================================================================== *)

Module Closed.

(** The list [l] after a loop has replaced [l[i]] by [g i l[i]] for every
    [i < k]. *)
Definition update_upto {A} (k : nat) (g : nat → A → A) (l : list A) : list A :=
  imap (fun i x => if decide (i < k) then g i x else x) l.

(** The output buffer with channel [c] replaced. *)
Definition set_channel (out : AudioBuffer.t) (c : nat) (data : list Q)
  : AudioBuffer.t :=
  AudioBuffer.make (AudioBuffer.sampleRate out) (AudioBuffer.length out)
    (<[c := data]> (AudioBuffer.channels out)).

(** The output buffer with all channels replaced. *)
Definition set_channels (out : AudioBuffer.t) (chs : list (list Q))
  : AudioBuffer.t :=
  AudioBuffer.make (AudioBuffer.sampleRate out) (AudioBuffer.length out) chs.

(** Channel [c] of a buffer that is only read, as the loops index it. *)
Definition channel (b : AudioBuffer.t) (c : nat) : list Q :=
  default [] (AudioBuffer.channels b !! c).

(** The sample stored for the video sample [v] at the volume [factor]. *)
Definition scaled_sample (v factor : Q) : Q := Float.fround (Float.mul v factor).

(** The video audio scaled by [factor], written over the first
    [length video] samples of each output channel. *)
Definition scaled (video : AudioBuffer.t) (factor : Q) (chs : list (list Q))
  : list (list Q) :=
  imap (fun c data =>
          update_upto (AudioBuffer.length video)
            (fun i _ => scaled_sample (Mix.at_index (channel video c) i) factor)
            data)
       chs.

(** The weight of the audio track in the mix. *)
Definition weight (audioVolume : Q) : Q :=
  Float.mul (Num.clamp 0 1 audioVolume) (Float.literal (8 # 10)).

(** The weighted sum of an output sample [o] and a track sample [s], as
    line 88 computes it, and the sample that line 89 stores. *)
Definition weighted_sum (o s audioVolume : Q) : Q :=
  Float.add o (Float.mul s (weight audioVolume)).

Definition mixed_sample (o s audioVolume : Q) : Q :=
  Float.fround (Num.clamp (-1) 1 (weighted_sum o s audioVolume)).

(** The audio track mixed into the first [audioLength] samples of each
    output channel, channel [c] taking track channel [c mod n]. *)
Definition mixed (video track : AudioBuffer.t) (audioVolume : Q)
  (chs : list (list Q)) : list (list Q) :=
  imap (fun c data =>
          update_upto
            (Nat.min (AudioBuffer.length track) (AudioBuffer.length video))
            (fun i o =>
               mixed_sample o
                 (Mix.at_index
                    (channel track (c mod AudioBuffer.numberOfChannels track)) i)
                 audioVolume)
            data)
       chs.

(** The output buffer after the primary pass: the video audio scaled by
    the clamped volume. *)
Definition primary_result (video : AudioBuffer.t) (videoVolume : Q) : AudioBuffer.t :=
  let out := AudioBuffer.createBuffer (AudioBuffer.numberOfChannels video)
               (AudioBuffer.length video) (AudioBuffer.sampleRate video) in
  set_channels out
    (scaled video (Num.clamp 0 1 videoVolume) (AudioBuffer.channels out)).

(** The output buffer after the check of lines 103-126. *)
Definition validated (video : AudioBuffer.t) (videoVolume : Q)
  (out : AudioBuffer.t) : AudioBuffer.t :=
  if negb (Mix.has_audio out) && Num.gtb videoVolume 0
  then set_channels out (scaled video videoVolume (AudioBuffer.channels out))
  else out.

End Closed.

(* ===================================================================== *)
(** ** Vocabulary of the statements *)
(* ===================================================================== *)

(** Two buffers with the same number of channels and of samples. *)
Definition same_shape (a b : AudioBuffer.t) : Prop :=
  AudioBuffer.numberOfChannels a = AudioBuffer.numberOfChannels b
  ∧ AudioBuffer.length a = AudioBuffer.length b.

(** No sample exceeds the threshold [0.001] in magnitude. *)
Definition silent (b : AudioBuffer.t) : Prop :=
  Forall (Forall (fun s => (Qabs s <= Mix.threshold)%Q)) (AudioBuffer.channels b).

(** The events that acquire or release a resource. *)
Definition is_resource (e : Compositor.Event) : bool :=
  match e with
  | Compositor.Console _ | Compositor.Progress _ => false
  | _ => true
  end.

Definition resources (t : list Compositor.Event) : list Compositor.Event :=
  List.filter is_resource t.

Definition is_console (e : Compositor.Event) : Prop :=
  ∃ l, e = Compositor.Console l.

(** The invocation once the metadata has arrived and the audio context
    exists: the state in which decoding and mixing start. *)
Definition started (env : Compositor.Env) : Compositor.World :=
  Compositor.mkWorld
    (Some (Compositor.mkVideo (Some (Compositor.object_url env))))
    (Some tt)
    (AudioBuffer.createBuffer 0 0 0)
    [Compositor.Console Compositor.Log;
     Compositor.CreateElement;
     Compositor.CreateObjectURL (Compositor.object_url env);
     Compositor.NewAudioContext].

(** The buffer that [processVideoAudio] hands to the serializer when the
    video audio decodes to [video]. *)
Definition mixed_output (env : Compositor.Env) (video : AudioBuffer.t)
  (audioTrack : option Compositor.AudioTrack) (videoVolume audioVolume : Q)
  : AudioBuffer.t :=
  Compositor.outputBuffer
    (snd (Compositor.mix env video audioTrack videoVolume audioVolume (started env))).

(** The trace of resource events of an invocation that got as far as the
    audio context, and of one that did not. *)
Definition full_cycle (u : nat) : list Compositor.Event :=
  [Compositor.CreateElement; Compositor.CreateObjectURL u;
   Compositor.NewAudioContext; Compositor.CloseAudioContext;
   Compositor.PauseVideo; Compositor.RevokeObjectURL (Some u);
   Compositor.RemoveVideo].

Definition video_cycle (u : nat) : list Compositor.Event :=
  [Compositor.CreateElement; Compositor.CreateObjectURL u;
   Compositor.PauseVideo; Compositor.RevokeObjectURL (Some u);
   Compositor.RemoveVideo].


(* ===================================================================== *)
(** ** Reading a container back *)
(* ===================================================================== *)

Module Reader.

(** The [n] bytes of [view] from [off] on; [RangeError] when they are not
    all there. *)
Fixpoint bytes_at (view : list Z) (off n : nat) : option (list Z) :=
  match n with
  | O => Some []
  | Datatypes.S n' =>
      b ← view !! off;
      bs ← bytes_at view (Datatypes.S off) n';
      Some (b :: bs)
  end.

(** [view.getUint16(off, true)] and [view.getUint32(off, true)]. *)
Definition getUint16 (view : list Z) (off : nat) : option Z :=
  DataView.le_value <$> bytes_at view off 2.
Definition getUint32 (view : list Z) (off : nat) : option Z :=
  DataView.le_value <$> bytes_at view off 4.

End Reader.

(* ===================================================================== *)
(** ** Scenarios of the thumbnail extractor *)
(* ===================================================================== *)

(** A video that loads and whose first [k] captures throw; the next one
    reaches [toBlob], which delivers [blob].  The first capture is the one
    of the executor, the later ones are retries run by their timers. *)
Definition flaky (k : nat) (blob : Compositor.Blob)
  : Thumbnail.Capture * list Thumbnail.Event :=
  match k with
  | O => (Thumbnail.Drawn, [Thumbnail.BlobReady (Some blob)])
  | Datatypes.S k' =>
      (Thumbnail.Throws,
       replicate k' (Thumbnail.Timer Thumbnail.Throws)
       ++ [Thumbnail.Timer Thumbnail.Drawn; Thumbnail.BlobReady (Some blob)])
  end.

(** A video whose three counters hold a number. *)
Definition counted (v : VideoStore.Video) : Prop :=
  is_Some (VideoStore.likes_count v)
  ∧ is_Some (VideoStore.comments_count v)
  ∧ is_Some (VideoStore.views_count v).

(** A store in which every video shown, in the list or as the current
    video, has its three counters. *)
Definition normalised (state : VideoStore.State) : Prop :=
  Forall counted (VideoStore.videos state)
  ∧ ∀ current, VideoStore.currentVideo state = Some current → counted current.

(** The current video, when there is one, is one of the list. *)
Definition current_listed (state : VideoStore.State) : Prop :=
  ∃ current,
    VideoStore.currentVideo state = Some current
    ∧ current ∈ VideoStore.videos state.

(** Every row that a run of [uploadVideo] has sent to the database
    satisfies [P]. *)
Definition rows_satisfy (P : VideoStore.Row.t → Prop)
  (sent : list VideoStore.Call) : Prop :=
  Forall
    (λ call,
       match call with
       | VideoStore.Insert row => P row
       | VideoStore.Upload _ _ _ => True
       end)
    sent.

(* ===================================================================== *)
(** ** Concrete inputs *)
(* ===================================================================== *)

(** A stereo buffer of two frames. *)
Definition sample_buffer : AudioBuffer.t :=
  AudioBuffer.make 44100 2 [[1 # 2; -1]; [1; -(1 # 4)]]%Q.

(** The binary32 number [2^-15 + 2^-31], alone in a mono buffer. *)
Definition quiet_buffer : AudioBuffer.t :=
  AudioBuffer.make 44100 1 [[65537 # 2147483648]]%Q.

(** A stereo video soundtrack of two samples per channel. *)
Definition stereo_video : AudioBuffer.t :=
  AudioBuffer.make 44100 2 [[7 # 8; -(7 # 8)]; [1 # 2; 0]]%Q.

(** A mono audio track of three samples. *)
Definition mono_track : AudioBuffer.t :=
  AudioBuffer.make 44100 3 [[1; -1; 1]]%Q.

(** A mono soundtrack whose only sample is below the silence threshold. *)
Definition faint_video : AudioBuffer.t :=
  AudioBuffer.make 44100 1 [[1 # 2048]]%Q.

(** A browser in which everything loads: the bytes [[1]] decode to
    [stereo_video], the bytes [[2]] to [mono_track], and every URL
    fetches the bytes [[2]]. *)
Definition online : Compositor.Env :=
  Compositor.mkEnv 7 (Some 3%Q) true
    (fun bytes =>
       if decide (bytes = [1%Z]) then Some stereo_video
       else if decide (bytes = [2%Z]) then Some mono_track
       else None)
    (fun url => Some [2%Z]).

(** A browser without network, in which the bytes [[1]] decode to
    [faint_video]. *)
Definition offline : Compositor.Env :=
  Compositor.mkEnv 7 (Some 3%Q) true
    (fun bytes => if decide (bytes = [1%Z]) then Some faint_video else None)
    (fun url => None).

(** The uploaded video and a track to mix into it. *)
Definition upload : Compositor.Blob := Compositor.mkBlob [1%Z] "video/mp4" None.
Definition track : Compositor.AudioTrack := Compositor.mkAudioTrack "track.mp3".

(** The invocation of [validate_mix] on a silent copy of [faint_video]. *)
Definition faint_world : Compositor.World :=
  Compositor.mkWorld None (Some tt) faint_video [].

(** The image a [toBlob] callback receives. *)
Definition jpeg : Compositor.Blob := Compositor.mkBlob [255%Z; 216%Z] "image/jpeg" None.

(** A library of two audios, and an audio that is not in it. *)
Definition library : AudioStore.State :=
  AudioStore.mkState
    [AudioStore.mkAudio "a1" "Intro" "https://cdn.example/a1.mp3" "u1"
       "2024-01-01T00:00:00Z" 12 None;
     AudioStore.mkAudio "a2" "Loop" "https://cdn.example/a2.mp3" "u2"
       "2024-01-02T00:00:00Z" (7 # 2) (Some "https://cdn.example/a2.png")]
    false None.

Definition new_audio : AudioStore.Audio :=
  AudioStore.mkAudio "a3" "Outro" "https://cdn.example/a3.mp3" "u1"
    "2024-01-03T00:00:00Z" 30 None.

(** The [k]-th row of a table of videos; the database gives the rows of
    even rank no counters. *)
Definition clip (k : nat) : VideoStore.Video :=
  let count := if Nat.even k then None else Some k in
  VideoStore.mkVideo (pretty k) "clip" None "https://cdn.example/v.mp4"
    "https://cdn.example/v.jpg" "u1" None None (1 # 2) count count count
    "2024-01-01T00:00:00Z" "2024-01-01T00:00:00Z".

(** A table of seven videos. *)
Definition feed : list VideoStore.Video := map clip (seq 0 7).

(** A store showing the first page of [feed], with its second video as the
    current one. *)
Definition watching : VideoStore.State :=
  VideoStore.mkState (map VideoStore.with_counts (take 5 feed))
    (Some (VideoStore.with_counts (clip 1))) false None 0 false None true
    VideoStore.all.

(** Services that accept every request, with a clock that advances by one
    millisecond per reading; the extractor of thumbnails answers with
    [thumbnail]. *)
Definition accepting (thumbnail : Completion Compositor.Blob) : VideoStore.Remote :=
  VideoStore.mkRemote (Some (VideoStore.mkUser "u1"))
    (λ k, (1700000000000 + N.of_nat k)%N) (λ t, pretty t)
    (λ _ _ _, None)
    (λ bucket path, ("https://cdn.example/" ++ bucket ++ "/" ++ path)%string)
    (λ _, thumbnail)
    (λ row,
       Returned
         (VideoStore.mkVideo "9" (VideoStore.Row.title row)
            (VideoStore.Row.description row) (VideoStore.Row.video_url row)
            (VideoStore.Row.thumbnail_url row) (VideoStore.Row.user_id row)
            (VideoStore.Row.audio_track_id row) None
            (VideoStore.Row.audio_volume row) None None None
            (VideoStore.Row.created_at row) (VideoStore.Row.updated_at row))).

(** The file a user uploads. *)
Definition holiday : VideoStore.File := VideoStore.mkFile "holiday.2024.mp4" upload.

(* ===================================================================== *)
(** * Properties *)
(* ===================================================================== *)

(** ** Numbers *)

Section Numbers.

Lemma Qle_bool_false a b : Qle_bool a b = false → (b < a)%Q.
Proof.
  intros H. apply Qnot_le_lt. intros Hle.
  apply Qle_bool_iff in Hle. congruence.
Qed.

Lemma ltb_true a b : Num.ltb a b = true ↔ (a < b)%Q.
Proof.
  unfold Num.ltb. destruct (Qle_bool b a) eqn:E; simpl.
  - apply Qle_bool_iff in E. split; [done | intros; lra].
  - apply Qle_bool_false in E. by split.
Qed.

Lemma ltb_false a b : Num.ltb a b = false ↔ (b <= a)%Q.
Proof.
  unfold Num.ltb. destruct (Qle_bool b a) eqn:E; simpl.
  - apply Qle_bool_iff in E. by split.
  - apply Qle_bool_false in E. split; [done | intros; lra].
Qed.

Lemma gtb_true a b : Num.gtb a b = true ↔ (b < a)%Q.
Proof. apply ltb_true. Qed.

Lemma gtb_false a b : Num.gtb a b = false ↔ (a <= b)%Q.
Proof. apply ltb_false. Qed.

Lemma min_cases a b :
  ((a <= b)%Q ∧ Num.min a b = a) ∨ ((b < a)%Q ∧ Num.min a b = b).
Proof.
  unfold Num.min. destruct (Qle_bool a b) eqn:E.
  - left. by apply Qle_bool_iff in E.
  - right. by apply Qle_bool_false in E.
Qed.

Lemma max_cases a b :
  ((a <= b)%Q ∧ Num.max a b = b) ∨ ((b < a)%Q ∧ Num.max a b = a).
Proof.
  unfold Num.max. destruct (Qle_bool a b) eqn:E.
  - left. by apply Qle_bool_iff in E.
  - right. by apply Qle_bool_false in E.
Qed.

Lemma clamp_cases lo hi x :
  (lo <= hi)%Q →
  ((x < lo)%Q ∧ Num.clamp lo hi x = lo)
  ∨ ((lo <= x)%Q ∧ (x < hi)%Q ∧ Num.clamp lo hi x = x)
  ∨ ((hi <= x)%Q ∧ Num.clamp lo hi x = hi).
Proof.
  intros Hlh. unfold Num.clamp.
  destruct (min_cases hi x) as [[H1 ->]|[H1 ->]];
    destruct (max_cases lo hi) as [[H2 E2]|[H2 E2]];
    destruct (max_cases lo x) as [[H3 E3]|[H3 E3]];
    rewrite ?E2, ?E3; try lra; auto.
Qed.

Lemma clamp_bounds lo hi x :
  (lo <= hi)%Q → (lo <= Num.clamp lo hi x)%Q ∧ (Num.clamp lo hi x <= hi)%Q.
Proof.
  intros Hlh.
  destruct (clamp_cases lo hi x Hlh) as [[? ->]|[(? & ? & ->)|[? ->]]]; lra.
Qed.

Lemma clamp_id lo hi x :
  (lo <= x)%Q → (x <= hi)%Q → (Num.clamp lo hi x == x)%Q.
Proof.
  intros H1 H2. assert (lo <= hi)%Q by lra.
  destruct (clamp_cases lo hi x) as [[? ->]|[(? & ? & ->)|[? ->]]]; lra.
Qed.

(** Truncation moves a number towards zero by less than one. *)
Lemma truncate_nonneg q :
  (0 <= q)%Q →
  (inject_Z (Num.truncate q) <= q)%Q ∧ (q < inject_Z (Num.truncate q) + 1)%Q.
Proof.
  destruct q as [n d]. unfold Qle, Qlt, Num.truncate. simpl. intros Hn.
  pose proof (Z.quot_rem' n (Z.pos d)) as Hqr.
  pose proof (Z.rem_bound_pos n (Z.pos d) ltac:(lia) ltac:(lia)) as Hr.
  split; nia.
Qed.

Lemma truncate_nonpos q :
  (q <= 0)%Q →
  (q <= inject_Z (Num.truncate q))%Q ∧ (inject_Z (Num.truncate q) - 1 < q)%Q.
Proof.
  destruct q as [n d]. unfold Qle, Qlt, Num.truncate. simpl. intros Hn.
  pose proof (Z.quot_rem' n (Z.pos d)) as Hqr.
  pose proof (Z.rem_bound_pos_neg n (Z.pos d) ltac:(lia) ltac:(lia)) as Hr.
  split; nia.
Qed.

Lemma truncate_mono_bounds q (lo hi : Z) :
  (inject_Z lo <= q)%Q → (q <= inject_Z hi)%Q → (lo <= 0)%Z → (0 <= hi)%Z →
  (lo ≤ Num.truncate q ≤ hi)%Z.
Proof.
  destruct q as [n d]. unfold Qle, Num.truncate. simpl. intros Hlo Hhi Hl0 Hh0.
  pose proof (Z.quot_rem' n (Z.pos d)) as Hqr.
  destruct (Z.le_ge_cases 0 n) as [Hn|Hn].
  - pose proof (Z.rem_bound_pos n (Z.pos d) ltac:(lia) ltac:(lia)) as Hr.
    split; nia.
  - pose proof (Z.rem_bound_pos_neg n (Z.pos d) ltac:(lia) ltac:(lia)) as Hr.
    split; nia.
Qed.

End Numbers.
(** ** Rounding *)

Section Rounding.
Import Float.
Local Open Scope Q_scope.

Lemma pow2_pos (k : Z) : 0 < 2 ^ k.
Proof. apply Qpower_0_lt. reflexivity. Qed.

Lemma pow2_plus (a b : Z) : 2 ^ (a + b) == 2 ^ a * 2 ^ b.
Proof. apply Qpower_plus. discriminate. Qed.

Lemma pow2_lt (a b : Z) : (a < b)%Z <-> 2 ^ a < 2 ^ b.
Proof.
  split; intros H.
  - apply Qpower_lt_compat_l; [exact H | reflexivity].
  - apply (Qpower_lt_compat_l_inv 2); [exact H | reflexivity].
Qed.

Lemma pow2_le (a b : Z) : (a <= b)%Z <-> 2 ^ a <= 2 ^ b.
Proof.
  split; intros H.
  - apply Qpower_le_compat_l; [exact H | discriminate].
  - apply (Qpower_le_compat_l_inv 2); [exact H | reflexivity].
Qed.

Lemma pow2_Z (n : Z) : (0 <= n)%Z -> inject_Z (2 ^ n) == 2 ^ n.
Proof. intros H. apply (Zpower_Qpower 2 n H). Qed.

Lemma Qabs_make (q : Q) : Qabs q == inject_Z (Z.abs (Qnum q)) / inject_Z (Zpos (Qden q)).
Proof. destruct q as [n d]. cbn [Qabs Qnum Qden]. apply Qmake_Qdiv. Qed.

Lemma log2_bracket (a : Z) :
  (0 < a)%Z -> 2 ^ Z.log2 a <= inject_Z a /\ inject_Z a < 2 ^ (Z.log2 a + 1).
Proof.
  intros Ha. destruct (Z.log2_spec a Ha) as [Hlo Hhi].
  pose proof (Z.log2_nonneg a) as Hnn.
  split.
  - rewrite <- pow2_Z by exact Hnn. rewrite <- Zle_Qle. exact Hlo.
  - rewrite <- pow2_Z by lia. rewrite <- Zlt_Qlt.
    replace (Z.log2 a + 1)%Z with (Z.succ (Z.log2 a)) by lia. exact Hhi.
Qed.

Lemma Qabs_num_den (q : Q) :
  Qabs q * inject_Z (Zpos (Qden q)) == inject_Z (Z.abs (Qnum q)).
Proof.
  destruct q as [n d]. unfold Qeq, Qabs, Qmult, inject_Z. cbn [Qnum Qden].
  rewrite Z.mul_1_r, Pos.mul_1_r. reflexivity.
Qed.

Lemma num_nonzero (q : Q) : ~ q == 0 -> (0 < Z.abs (Qnum q))%Z.
Proof.
  intros Hq. destruct q as [n d]. cbn [Qnum].
  destruct (Z.eq_dec n 0%Z) as [->|Hn]; [|lia].
  exfalso. apply Hq. reflexivity.
Qed.

Lemma exponent_bracket (q : Q) :
  ~ q == 0 ->
  2 ^ exponent q <= Qabs q /\ Qabs q < 2 ^ (exponent q + 1).
Proof.
  intros Hq. unfold exponent. cbv zeta.
  set (a := Z.abs (Qnum q)). set (d := Zpos (Qden q)).
  set (k := (Z.log2 a - Z.log2 d)%Z).
  destruct (log2_bracket a (num_nonzero q Hq)) as [Ha1 Ha2].
  destruct (log2_bracket d ltac:(reflexivity)) as [Hd1 Hd2].
  pose proof (Qabs_num_den q) as HX. fold a in HX. fold d in HX.
  pose proof (Qabs_nonneg q) as HX0.
  set (X := Qabs q) in *.
  destruct (Qle_bool (2 ^ k) X) eqn:Hb.
  - apply Qle_bool_iff in Hb. split; [exact Hb|].
    assert (Hp : 2 ^ (k + 1) * 2 ^ Z.log2 d == 2 ^ (Z.log2 a + 1)).
    { rewrite <- pow2_plus. unfold k.
      replace (Z.log2 a - Z.log2 d + 1 + Z.log2 d)%Z with (Z.log2 a + 1)%Z by lia.
      reflexivity. }
    pose proof (pow2_pos (k + 1)) as P1. pose proof (pow2_pos (Z.log2 d)) as P2.
    destruct (Qlt_le_dec X (2 ^ (k + 1))) as [Hlt|Hge]; [exact Hlt|].
    exfalso.
    assert (2 ^ (k + 1) * 2 ^ Z.log2 d <= X * inject_Z d) by nra.
    lra.
  - assert (Hlt : X < 2 ^ k).
    { apply Qnot_le_lt. intros H. apply Qle_bool_iff in H. congruence. }
    split.
    + assert (Hp : 2 ^ (k - 1) * 2 ^ (Z.log2 d + 1) == 2 ^ Z.log2 a).
      { rewrite <- pow2_plus. unfold k.
        replace (Z.log2 a - Z.log2 d - 1 + (Z.log2 d + 1))%Z with (Z.log2 a) by lia.
        reflexivity. }
      pose proof (pow2_pos (k - 1)) as P1. pose proof (pow2_pos (Z.log2 d)) as P2.
      destruct (Qlt_le_dec X (2 ^ (k - 1))) as [Hlt'|Hge]; [|exact Hge].
      exfalso.
      assert (X * inject_Z d < 2 ^ (k - 1) * 2 ^ (Z.log2 d + 1)) by nra.
      lra.
    + replace (k - 1 + 1)%Z with k by lia. exact Hlt.
Qed.

Lemma bracket_unique (x y : Z) (a b : Q) :
  a == b ->
  2 ^ x <= a -> a < 2 ^ (x + 1) -> 2 ^ y <= b -> b < 2 ^ (y + 1) -> x = y.
Proof.
  intros Hab H1 H2 H3 H4.
  assert (2 ^ x < 2 ^ (y + 1)) as Hxy by lra.
  assert (2 ^ y < 2 ^ (x + 1)) as Hyx by lra.
  apply pow2_lt in Hxy. apply pow2_lt in Hyx. lia.
Qed.

Lemma exponent_proper (q q' : Q) :
  q == q' -> ~ q == 0 -> exponent q = exponent q'.
Proof.
  intros Heq Hq.
  assert (Hq' : ~ q' == 0) by (intros H; apply Hq; rewrite Heq; exact H).
  destruct (exponent_bracket q Hq) as [H1 H2].
  destruct (exponent_bracket q' Hq') as [H3 H4].
  apply (bracket_unique _ _ (Qabs q) (Qabs q')); try assumption.
  rewrite Heq. reflexivity.
Qed.

Lemma nearest_even_proper (q q' : Q) : q == q' -> nearest_even q = nearest_even q'.
Proof.
  intros Heq. unfold nearest_even. cbv zeta.
  rewrite (Qfloor_comp _ _ Heq).
  assert (Hc : (q - inject_Z (Qfloor q') ?= 1 # 2) = (q' - inject_Z (Qfloor q') ?= 1 # 2)).
  { apply Qcompare_comp; [rewrite Heq|]; reflexivity. }
  rewrite Hc. reflexivity.
Qed.

Lemma round_proper (prec emin : Z) (q q' : Q) :
  q == q' -> round prec emin q = round prec emin q'.
Proof.
  intros Heq. unfold round.
  destruct (Qeq_bool q 0) eqn:H0.
  - apply Qeq_bool_iff in H0.
    assert (Qeq_bool q' 0 = true) as -> by (apply Qeq_bool_iff; rewrite <- Heq; exact H0).
    reflexivity.
  - assert (Hq : ~ q == 0) by (apply Qeq_bool_neq; exact H0).
    assert (Qeq_bool q' 0 = false) as ->.
    { destruct (Qeq_bool q' 0) eqn:H0'; [|reflexivity].
      apply Qeq_bool_iff in H0'. exfalso. apply Hq. rewrite Heq. exact H0'. }
    cbv zeta. rewrite <- (exponent_proper q q' Heq Hq).
    set (e := Z.max (exponent q - (prec - 1)) emin).
    apply Qred_complete.
    assert (nearest_even (q / 2 ^ e) = nearest_even (q' / 2 ^ e)) as ->
      by (apply nearest_even_proper; rewrite Heq; reflexivity).
    reflexivity.
Qed.

Lemma round_zero (prec emin : Z) (q : Q) : q == 0 -> round prec emin q = 0.
Proof.
  intros H. unfold round. apply Qeq_bool_iff in H. rewrite H. reflexivity.
Qed.

Lemma nearest_even_Z (z : Z) : nearest_even (inject_Z z) = z.
Proof.
  unfold nearest_even. cbv zeta. rewrite Qfloor_Z.
  assert ((inject_Z z - inject_Z z ?= 1 # 2) = Lt) as ->; [|reflexivity].
  apply Qlt_alt.
  assert (H : inject_Z z - inject_Z z == 0) by ring.
  rewrite H. reflexivity.
Qed.

Lemma nearest_even_bounds (a b : Z) (q : Q) :
  inject_Z a <= q -> q <= inject_Z b ->
  (a <= nearest_even q <= b)%Z.
Proof.
  intros Ha Hb. unfold nearest_even. cbv zeta.
  pose proof (Qfloor_le q) as Hf1. pose proof (Qlt_floor q) as Hf2.
  assert (Hfa : (a <= Qfloor q)%Z).
  { rewrite <- (Qfloor_Z a). apply Qfloor_resp_le. exact Ha. }
  assert (Hfb : (Qfloor q <= b)%Z).
  { rewrite <- (Qfloor_Z b). apply Qfloor_resp_le. exact Hb. }
  assert (Hup : 0 < q - inject_Z (Qfloor q) -> (Qfloor q + 1 <= b)%Z).
  { intros Hpos.
    assert (inject_Z (Qfloor q) < inject_Z b) as Hlt by lra.
    rewrite <- Zlt_Qlt in Hlt. lia. }
  destruct (q - inject_Z (Qfloor q) ?= 1 # 2) eqn:Hc.
  - apply Qeq_alt in Hc. destruct (Z.even (Qfloor q)); [lia|].
    split; [lia|]. apply Hup. lra.
  - lia.
  - apply Qgt_alt in Hc. split; [lia|]. apply Hup. lra.
Qed.

Lemma pow2_inv (e : Z) : 2 ^ (- e) * 2 ^ e == 1.
Proof.
  rewrite <- pow2_plus. replace (- e + e)%Z with 0%Z by lia. reflexivity.
Qed.

Lemma div_pow2 (q : Q) (e : Z) : q / 2 ^ e == q * 2 ^ (- e).
Proof.
  unfold Qdiv. rewrite Qpower_opp. reflexivity.
Qed.

Lemma round_eq (prec emin : Z) (q : Q) :
  ~ q == 0 ->
  let e := Z.max (exponent q - (prec - 1)) emin in
  round prec emin q == inject_Z (nearest_even (q * 2 ^ (- e))) * 2 ^ e.
Proof.
  intros Hq e. unfold round.
  destruct (Qeq_bool q 0) eqn:H0; [apply Qeq_bool_iff in H0; contradiction|].
  cbv zeta. fold e. rewrite Qred_correct.
  rewrite (nearest_even_proper _ _ (div_pow2 q e)). reflexivity.
Qed.

Lemma round_unit (prec emin : Z) (q : Q) :
  (1 <= prec)%Z -> (emin <= 0)%Z -> -1 <= q -> q <= 1 ->
  -1 <= round prec emin q /\ round prec emin q <= 1.
Proof.
  intros Hp He Hlo Hhi.
  destruct (Qeq_dec q 0) as [H0|Hq].
  { rewrite (round_zero _ _ _ H0). split; discriminate. }
  rewrite (round_eq prec emin q Hq). cbv zeta.
  set (e := Z.max (exponent q - (prec - 1)) emin).
  destruct (exponent_bracket q Hq) as [Hex _].
  assert (Habs : Qabs q <= 1) by (apply Qabs_Qle_condition; split; assumption).
  assert (Hex0 : (exponent q <= 0)%Z).
  { apply pow2_le. change (2 ^ 0) with 1. lra. }
  assert (He0 : (e <= 0)%Z) by (unfold e; lia).
  pose proof (pow2_Z (- e) ltac:(lia)) as HN.
  pose proof (pow2_pos (- e)) as HNpos. pose proof (pow2_pos e) as Hepos.
  pose proof (pow2_inv e) as Hinv.
  destruct (nearest_even_bounds (- 2 ^ (- e)) (2 ^ (- e)) (q * 2 ^ (- e))) as [H1 H2].
  - rewrite inject_Z_opp, HN. nra.
  - rewrite HN. nra.
  - rewrite Zle_Qle in H1, H2. rewrite inject_Z_opp, HN in H1. rewrite HN in H2.
    set (n := inject_Z (nearest_even (q * 2 ^ (- e)))) in *.
    split; nra.
Qed.

Lemma round_representable (prec emin : Z) (q : Q) :
  (0 < prec)%Z -> representable prec emin q -> round prec emin q == q.
Proof.
  intros Hp (m & e & Hm & He & Hq).
  destruct (Qeq_dec q 0) as [H0|Hq0].
  { rewrite (round_zero _ _ _ H0). symmetry. exact H0. }
  rewrite (round_eq prec emin q Hq0). cbv zeta.
  set (e' := Z.max (exponent q - (prec - 1)) emin).
  destruct (exponent_bracket q Hq0) as [Hex _].
  assert (Habs : Qabs q == inject_Z (Z.abs m) * 2 ^ e).
  { rewrite Hq, Qabs_Qmult. rewrite (Qabs_pos (2 ^ e)) by (apply Qlt_le_weak, pow2_pos).
    reflexivity. }
  assert (Hlt : Qabs q < 2 ^ (prec + e)).
  { rewrite Habs, pow2_plus, <- (pow2_Z prec) by lia.
    apply Qmult_lt_compat_r; [apply pow2_pos|].
    rewrite <- Zlt_Qlt. exact Hm. }
  assert (Hex' : (exponent q < prec + e)%Z) by (apply pow2_lt; lra).
  assert (He' : (e' <= e)%Z) by (unfold e'; lia).
  assert (Hint : q * 2 ^ (- e') == inject_Z (m * 2 ^ (e - e'))).
  { rewrite inject_Z_mult, (pow2_Z (e - e')) by lia.
    rewrite Hq. replace (e - e')%Z with (e + - e')%Z by lia.
    rewrite pow2_plus. ring. }
  rewrite (nearest_even_proper _ _ Hint), nearest_even_Z.
  rewrite inject_Z_mult, (pow2_Z (e - e')) by lia.
  rewrite Hq. rewrite <- Qmult_assoc, <- pow2_plus.
  replace (e - e' + e')%Z with e by lia. reflexivity.
Qed.

Lemma binary32_representable (q : Q) :
  binary32 q -> representable 24 (-149) q /\ representable 53 (-1074) q.
Proof.
  intros (m & e & Hm & He & Hq). split; exists m, e; repeat split; try lia; try exact Hq.
Qed.

Lemma fround_binary32 (q : Q) : binary32 q -> fround q == q.
Proof. intros H. apply round_representable; [lia | apply binary32_representable, H]. Qed.

Lemma round64_binary32 (q : Q) : binary32 q -> round64 q == q.
Proof. intros H. apply round_representable; [lia | apply binary32_representable, H]. Qed.

Lemma fround_mul_one (v one : Q) : binary32 v -> one == 1 -> fround (mul v one) == v.
Proof.
  intros Hv H1. unfold mul.
  assert (Hq : v * one == v) by (rewrite H1; ring).
  unfold fround. rewrite (round_proper 24 (-149) _ v).
  - apply fround_binary32, Hv.
  - unfold round64. rewrite (round_proper 53 (-1074) _ v Hq). apply round64_binary32, Hv.
Qed.

(** The two stores that clip: [1] and [-1] are binary32 numbers. *)
Lemma fround_one : fround 1 = 1.
Proof. reflexivity. Qed.

Lemma fround_minus_one : fround (-1) = -1.
Proof. reflexivity. Qed.

Lemma fround_unit (q : Q) : -1 <= q -> q <= 1 -> -1 <= fround q /\ fround q <= 1.
Proof. intros. apply round_unit; [lia | lia | assumption | assumption]. Qed.

Lemma mul_proper (a a' b b' : Q) : a == a' -> b == b' -> mul a b = mul a' b'.
Proof.
  intros Ha Hb. unfold mul, round64. apply round_proper. rewrite Ha, Hb. reflexivity.
Qed.

Lemma mul_zero_r (a b : Q) : b == 0 -> mul a b = 0.
Proof. intros Hb. unfold mul, round64. apply round_zero. rewrite Hb. ring. Qed.

Lemma fround_zero : fround 0 = 0.
Proof. reflexivity. Qed.

(** The literal [0.8] is not eight tenths, nor is [0.001] a thousandth. *)
Lemma literal_eight_tenths :
  literal (8 # 10) = 3602879701896397 # 4503599627370496.
Proof. vm_compute. reflexivity. Qed.

Lemma literal_thousandth :
  literal (1 # 1000) = 1152921504606847 # 1152921504606846976.
Proof. vm_compute. reflexivity. Qed.

End Rounding.


(** ** Loops *)

Section Loops.
Context {S : Type}.
Implicit Types (body : nat → S → option S) (s : S).

Lemma for_loop_0 body s : for_loop 0 body s = Some s.
Proof. reflexivity. Qed.

Lemma for_loop_S n body s :
  for_loop (Datatypes.S n) body s = for_loop n body s ≫= body n.
Proof. unfold for_loop. rewrite seq_S, foldl_app. reflexivity. Qed.

Lemma for_loop_ext n body body' s :
  (∀ i s', i < n → body i s' = body' i s') →
  for_loop n body s = for_loop n body' s.
Proof.
  induction n as [|n IH]; intros Hb; [reflexivity|].
  rewrite !for_loop_S, IH by (intros; apply Hb; lia).
  destruct (for_loop n body' s); simpl; [apply Hb; lia | reflexivity].
Qed.

End Loops.

(** ** DataView stores *)

Section Stores.
Import DataView.

Lemma length_le_bytes n v : List.length (le_bytes n v) = n.
Proof. revert v; induction n; intros; simpl; auto. Qed.

Lemma store_middle (pre old post bs : list byte) :
  List.length old = List.length bs →
  store (pre ++ old ++ post) (List.length pre) bs = pre ++ bs ++ post.
Proof.
  revert pre old. induction bs as [|b bs IH]; intros pre old Hlen.
  - destruct old; [reflexivity | discriminate].
  - destruct old as [|o old]; [discriminate|]. simpl in Hlen.
    cbn [store]. rewrite insert_app_r_alt by lia.
    replace (List.length pre - List.length pre) with 0 by lia. simpl.
    replace (Datatypes.S (List.length pre)) with (List.length (pre ++ [b]))
      by (rewrite length_app; simpl; lia).
    replace (pre ++ b :: old ++ post) with ((pre ++ [b]) ++ old ++ post)
      by (rewrite <- app_assoc; reflexivity).
    rewrite IH by lia. rewrite <- app_assoc. reflexivity.
Qed.

Lemma set_bytes_middle (pre old post bs : list byte) off :
  off = List.length pre →
  List.length old = List.length bs →
  set_bytes (pre ++ old ++ post) off bs = Some (pre ++ bs ++ post).
Proof.
  intros -> Hlen. unfold set_bytes.
  rewrite decide_True by (rewrite !length_app; lia).
  by rewrite store_middle.
Qed.

Lemma length_store (view bs : list byte) off :
  List.length (store view off bs) = List.length view.
Proof.
  revert view off. induction bs as [|b bs IH]; intros; simpl; [done|].
  by rewrite IH, length_insert.
Qed.

Lemma store_snoc (view bs : list byte) off b :
  store view off (bs ++ [b]) = <[off + List.length bs := b]> (store view off bs).
Proof.
  revert view off. induction bs as [|c bs IH]; intros; simpl.
  - by rewrite Nat.add_0_r.
  - rewrite IH. f_equal. lia.
Qed.

Lemma set_bytes_fits (view bs : list byte) off :
  off + List.length bs ≤ List.length view →
  set_bytes view off bs = Some (store view off bs).
Proof. intros H. unfold set_bytes. by rewrite decide_True. Qed.


(** A field of [n] bytes holds its value modulo [2^(8n)]. *)
Lemma le_value_le_bytes n v :
  le_value (le_bytes n v) = (v mod 2 ^ (8 * Z.of_nat n))%Z.
Proof.
  revert v. induction n as [|n IH]; intros v.
  - simpl. by rewrite Z.mod_1_r.
  - cbn [le_bytes le_value]. rewrite IH.
    replace (8 * Z.of_nat (Datatypes.S n))%Z with (8 + 8 * Z.of_nat n)%Z by lia.
    rewrite Z.pow_add_r by lia. change (2 ^ 8)%Z with 256%Z.
    rewrite Z.rem_mul_r by lia. reflexivity.
Qed.

Lemma truncate_of_nat n : Num.truncate (Num.of_nat n) = Z.of_nat n.
Proof. unfold Num.truncate, Num.of_nat. simpl. apply Z.quot_1_r. Qed.

End Stores.

(** ** writeString *)

Section WriteString.
Import DataView Wav Layout.

Lemma get_list_ascii s k : String.get k s = list_ascii_of_string s !! k.
Proof.
  revert k. induction s as [|a s IH]; intros [|k]; simpl; auto.
Qed.

Lemma length_list_ascii s : List.length (list_ascii_of_string s) = String.length s.
Proof. induction s; simpl; auto. Qed.

Lemma length_ascii_bytes s : List.length (ascii_bytes s) = String.length s.
Proof. unfold ascii_bytes. by rewrite length_map, length_list_ascii. Qed.

Lemma nat_of_ascii_byte ch : (Z.of_nat (nat_of_ascii ch) mod 256 = Z.of_nat (nat_of_ascii ch))%Z.
Proof.
  apply Z.mod_small. pose proof (nat_ascii_bounded ch). lia.
Qed.

Lemma writeString_prefix (view : list byte) off s k :
  off + String.length s ≤ List.length view →
  k ≤ String.length s →
  for_loop k
    (fun i view =>
       match String.get i s with
       | Some ch => setUint8 view (off + i) (Num.of_nat (nat_of_ascii ch))
       | None => Some view
       end) view
  = Some (store view off (take k (ascii_bytes s))).
Proof.
  intros Hfit. induction k as [|k IH]; intros Hk; [reflexivity|].
  rewrite for_loop_S, IH by lia. simpl.
  rewrite get_list_ascii.
  destruct (list_ascii_of_string s !! k) as [ch|] eqn:Hch.
  2:{ apply lookup_ge_None in Hch. rewrite length_list_ascii in Hch. lia. }
  unfold setUint8. rewrite set_bytes_fits
    by (rewrite length_store, length_le_bytes; lia).
  f_equal. simpl. rewrite truncate_of_nat, nat_of_ascii_byte.
  assert (Hb : ascii_bytes s !! k = Some (Z.of_nat (nat_of_ascii ch))).
  { unfold ascii_bytes. by rewrite list_lookup_fmap, Hch. }
  rewrite (take_S_r _ _ _ Hb), store_snoc, length_take, length_ascii_bytes.
  f_equal. lia.
Qed.


End WriteString.

(** ** Writing at the frontier of a zero-filled buffer *)

Section Frontier.
Import DataView Wav Layout.

Lemma set_bytes_frontier (pre bs : list byte) n off :
  off = List.length pre →
  List.length bs ≤ n →
  set_bytes (pre ++ replicate n 0%Z) off bs
  = Some ((pre ++ bs) ++ replicate (n - List.length bs) 0%Z).
Proof.
  intros Hoff Hn.
  replace n with (List.length bs + (n - List.length bs)) at 1 by lia.
  rewrite replicate_add, <- (app_assoc pre bs).
  apply set_bytes_middle; [done | by rewrite length_replicate].
Qed.

Lemma writeString_frontier (pre : list byte) n off s :
  off = List.length pre →
  String.length s ≤ n →
  writeString (pre ++ replicate n 0%Z) off s
  = Some ((pre ++ ascii_bytes s) ++ replicate (n - String.length s) 0%Z).
Proof.
  intros Hoff Hn. unfold writeString.
  rewrite writeString_prefix
    by (rewrite ?length_app, ?length_replicate; lia).
  rewrite firstn_all2 by (rewrite length_ascii_bytes; lia).
  f_equal. subst off.
  replace n with (List.length (ascii_bytes s) + (n - String.length s)) at 1
    by (rewrite length_ascii_bytes; lia).
  rewrite replicate_add, <- (app_assoc pre).
  apply store_middle. by rewrite length_replicate.
Qed.

End Frontier.

(** ** The sample loops of the serializer *)

Section SampleLoops.
Import DataView Wav Layout.

Lemma collect_channels (b : AudioBuffer.t) k :
  k ≤ AudioBuffer.numberOfChannels b →
  for_loop k
    (fun i acc => ch ← AudioBuffer.getChannelData b i; Some (acc ++ [ch])) []
  = Some (take k (AudioBuffer.channels b)).
Proof.
  induction k as [|k IH]; intros Hk; [reflexivity|].
  rewrite for_loop_S, IH by lia. simpl.
  unfold AudioBuffer.getChannelData, AudioBuffer.numberOfChannels in *.
  destruct (AudioBuffer.channels b !! k) as [ch|] eqn:Hch.
  - simpl. by rewrite (take_S_r _ _ _ Hch).
  - apply lookup_ge_None in Hch. lia.
Qed.

Lemma scale_clamped s :
  (let sample := Num.max (-1) (Num.min 1 s) in
   if Num.ltb sample 0 then (sample * 32768)%Q else (sample * 32767)%Q)
  = scale s.
Proof. reflexivity. Qed.

Lemma sample_value_pcm16 (b : AudioBuffer.t) i pos :
  Num.truncate (sample_value (AudioBuffer.channels b) i pos)
  = pcm16 (sample_at b i pos).
Proof.
  unfold sample_value, pcm16, sample_at, sample.
  destruct (AudioBuffer.channels b !! i ≫= (.!! pos)); reflexivity.
Qed.

Lemma flat_map_seq_S {A} (f : nat → list A) k :
  flat_map f (seq 0 (Datatypes.S k)) = flat_map f (seq 0 k) ++ f k.
Proof. rewrite seq_S, flat_map_app. simpl. by rewrite app_nil_r. Qed.

Lemma length_flat_map_const {A} (f : nat → list A) m l :
  (∀ i, List.length (f i) = m) →
  List.length (flat_map f l) = List.length l * m.
Proof.
  intros Hf. induction l as [|x l IH]; simpl; [done|].
  by rewrite length_app, Hf, IH.
Qed.

Lemma length_frame b pos :
  List.length (frame b pos) = AudioBuffer.numberOfChannels b * 2.
Proof.
  unfold frame. rewrite (length_flat_map_const _ 2), length_seq; [done|].
  intros. apply length_le_bytes.
Qed.

Lemma length_data b :
  List.length (data b) = AudioBuffer.length b * AudioBuffer.numberOfChannels b * 2.
Proof.
  unfold data.
  rewrite (length_flat_map_const _ (AudioBuffer.numberOfChannels b * 2)), length_seq.
  - lia.
  - apply length_frame.
Qed.

Lemma frame_loop (b : AudioBuffer.t) (pre : list byte) pos n k :
  let C := AudioBuffer.numberOfChannels b in
  List.length pre = 44 + pos * (C * 2) →
  k * 2 ≤ n →
  for_loop k
    (fun i view =>
       setInt16 view (44 + pos * (C * 2) + i * 2)
         (sample_value (AudioBuffer.channels b) i pos))
    (pre ++ replicate n 0%Z)
  = Some ((pre ++ flat_map (fun c => int16_le (pcm16 (sample_at b c pos))) (seq 0 k))
          ++ replicate (n - k * 2) 0%Z).
Proof.
  intros C Hpre. induction k as [|k IH]; intros Hk.
  - rewrite for_loop_0. simpl. by rewrite app_nil_r, Nat.sub_0_r.
  - rewrite for_loop_S, IH by lia. cbn [mbind option_bind].
    unfold setInt16. rewrite set_bytes_frontier.
    + rewrite flat_map_seq_S, length_le_bytes, sample_value_pcm16.
      rewrite <- (app_assoc pre). unfold int16_le.
      by replace (n - Datatypes.S k * 2) with (n - k * 2 - 2) by lia.
    + rewrite length_app, (length_flat_map_const _ 2), length_seq, Hpre; [lia|].
      intros. apply length_le_bytes.
    + rewrite length_le_bytes. lia.
Qed.

Lemma data_loop (b : AudioBuffer.t) (hdr : list byte) k :
  let C := AudioBuffer.numberOfChannels b in
  let N := AudioBuffer.length b in
  List.length hdr = 44 →
  k ≤ N →
  for_loop k
    (fun pos view =>
       for_loop C
         (fun i view =>
            setInt16 view (44 + pos * (C * 2) + i * 2)
              (sample_value (AudioBuffer.channels b) i pos))
         view)
    (hdr ++ replicate (N * (C * 2)) 0%Z)
  = Some ((hdr ++ flat_map (frame b) (seq 0 k))
          ++ replicate ((N - k) * (C * 2)) 0%Z).
Proof.
  cbv zeta. intros Hhdr.
  set (C := AudioBuffer.numberOfChannels b). set (N := AudioBuffer.length b).
  induction k as [|k IH]; intros Hk.
  - rewrite for_loop_0. simpl. by rewrite app_nil_r, Nat.sub_0_r.
  - rewrite for_loop_S, IH by lia. cbn [mbind option_bind].
    unfold C at 1 2. rewrite frame_loop; fold C.
    + rewrite flat_map_seq_S, <- (app_assoc hdr). unfold frame. fold C.
      by replace ((N - k) * (C * 2) - C * 2) with ((N - Datatypes.S k) * (C * 2)) by nia.
    + rewrite length_app, (length_flat_map_const _ (C * 2)), length_seq, Hhdr.
      * lia.
      * apply length_frame.
    + nia.
Qed.

End SampleLoops.

(** ** C1: the byte layout of the serializer's output *)

Section Serializer.
Import DataView Wav Layout.

Lemma length_header C N R : List.length (header C N R) = 44.
Proof. reflexivity. Qed.

Lemma setUint32_frontier (pre : list byte) n off v :
  off = List.length pre → 4 ≤ n →
  setUint32 (pre ++ replicate n 0%Z) off v
  = Some ((pre ++ uint32_le (Num.truncate v)) ++ replicate (n - 4) 0%Z).
Proof. intros. unfold setUint32. by rewrite set_bytes_frontier. Qed.

Lemma setUint16_frontier (pre : list byte) n off v :
  off = List.length pre → 2 ≤ n →
  setUint16 (pre ++ replicate n 0%Z) off v
  = Some ((pre ++ uint16_le (Num.truncate v)) ++ replicate (n - 2) 0%Z).
Proof. intros. unfold setUint16. by rewrite set_bytes_frontier. Qed.

Local Ltac header_write :=
  first [ rewrite writeString_frontier by (first [reflexivity | simpl; lia])
        | rewrite setUint32_frontier by (first [reflexivity | simpl; lia])
        | rewrite setUint16_frontier by (first [reflexivity | simpl; lia]) ];
  cbn [mbind option_bind String.length].

(** The serializer never raises and returns the header followed by the
    frames. *)
Lemma audioBufferToWav_bytes (b : AudioBuffer.t) :
  audioBufferToWav b
  = Some (header (AudioBuffer.numberOfChannels b) (AudioBuffer.length b)
            (AudioBuffer.sampleRate b) ++ data b).
Proof.
  unfold audioBufferToWav.
  set (C := AudioBuffer.numberOfChannels b).
  set (N := AudioBuffer.length b).
  set (R := AudioBuffer.sampleRate b).
  change bytesPerSample with 2. change headerSize with 44.
  change (alloc (44 + N * (C * 2))) with ([] ++ replicate (44 + N * (C * 2)) 0%Z).
  do 13 header_write.
  rewrite collect_channels by done.
  cbn [mbind option_bind].
  rewrite (firstn_all (AudioBuffer.channels b)
           : take C (AudioBuffer.channels b) = AudioBuffer.channels b).
  rewrite !truncate_of_nat.
  match goal with
  | |- for_loop _ _ (?h ++ replicate ?n _) = _ =>
      replace n with (N * (C * 2)) by lia;
      replace h with (header C N R)
  end.
  + unfold C at 1 2, N at 1 2.
    rewrite data_loop by (done || lia).
    fold N C. unfold data. fold N.
    by rewrite Nat.sub_diag, app_nil_r.
  + unfold header.
    replace (Z.of_nat (44 + N * C * 2) - 8)%Z
      with (Z.of_nat (44 + N * (C * 2) - 8)) by lia.
    replace (N * C * 2) with (N * (C * 2)) by lia.
    rewrite <- !app_assoc. reflexivity.
Qed.

(** C1.  For every sample buffer with [C] channels of [N] samples at rate
    [R], [audioBufferToWav] returns, without raising, exactly
    [44 + N * C * 2] bytes: the 44-byte header ["RIFF"], total size minus 8
    (uint32, little-endian), ["WAVE"], ["fmt "], 16 (uint32), 1 (uint16),
    [C] (uint16), [R] (uint32), [R * C * 2] (uint32), [C * 2] (uint16),
    16 (uint16), ["data"], [N * C * 2] (uint32), followed by the frames in
    time order, each holding one signed 16-bit little-endian integer per
    channel: the sample clamped to [-1, 1], scaled by 32768 when negative
    and by 32767 otherwise, and truncated.  A field of [n] bytes holds its
    value modulo [2^(8n)] ([le_value_le_bytes]), as [DataView] stores it. *)
Theorem audioBufferToWav_layout (b : AudioBuffer.t) :
  let C := AudioBuffer.numberOfChannels b in
  let N := AudioBuffer.length b in
  let R := AudioBuffer.sampleRate b in
  audioBufferToWav b = Some (header C N R ++ data b)
  ∧ List.length (header C N R) = 44
  ∧ List.length (header C N R ++ data b) = 44 + N * C * 2.
Proof.
  cbv zeta. split; [apply audioBufferToWav_bytes|]. split.
  - apply length_header.
  - rewrite length_app, length_header, length_data. reflexivity.
Qed.

End Serializer.

(** ** C9: quantization error of the round trip *)

Section RoundTrip.
Import DataView Wav Layout.

Lemma lookup_flat_map_const {A B} (f : A → list B) m (l : list A) i j x :
  (∀ a, List.length (f a) = m) →
  l !! i = Some x → j < m →
  flat_map f l !! (i * m + j) = f x !! j.
Proof.
  intros Hf. revert i. induction l as [|a l IH]; intros i Hi Hj; [done|].
  destruct i as [|i]; simpl in *.
  - injection Hi as ->. by rewrite lookup_app_l by (rewrite Hf; lia).
  - rewrite lookup_app_r by (rewrite Hf; lia).
    rewrite Hf. replace (m + i * m + j - m) with (i * m + j) by lia.
    by apply IH.
Qed.

Lemma lookup_data (b : AudioBuffer.t) c pos j :
  c < AudioBuffer.numberOfChannels b → pos < AudioBuffer.length b → j < 2 →
  data b !! ((pos * AudioBuffer.numberOfChannels b + c) * 2 + j)
  = int16_le (pcm16 (sample_at b c pos)) !! j.
Proof.
  intros Hc Hpos Hj. unfold data.
  set (C := AudioBuffer.numberOfChannels b) in *.
  replace ((pos * C + c) * 2 + j) with (pos * (C * 2) + (c * 2 + j)) by lia.
  rewrite (lookup_flat_map_const _ (C * 2) _ _ _ pos);
    [ | apply length_frame | by apply lookup_seq_lt | lia ].
  unfold frame. fold C.
  rewrite (lookup_flat_map_const _ 2 _ _ _ c);
    [ done | intros; apply length_le_bytes | by apply lookup_seq_lt | done ].
Qed.

Lemma getInt16_lookup (view : list byte) off z :
  view !! off = int16_le z !! 0 →
  view !! Datatypes.S off = int16_le z !! 1 →
  (-32768 ≤ z < 32768)%Z →
  getInt16 view off = Some z.
Proof.
  intros H0 H1 Hz. unfold getInt16. rewrite H0, H1.
  cbn [int16_le le_bytes lookup list_lookup mbind option_bind]. f_equal.
  pose proof (Z.div_mod z 256 ltac:(lia)) as Hdm.
  pose proof (Z.mod_pos_bound z 256 ltac:(lia)).
  pose proof (Z.mod_pos_bound (z / 256) 256 ltac:(lia)) as Hhi.
  pose proof (Z.div_mod (z / 256) 256 ltac:(lia)) as Hdm2.
  assert (-128 ≤ z / 256 < 128)%Z as Hq by lia.
  destruct (Z.ltb_spec (z mod 256 + 256 * ((z / 256) mod 256)) 32768); lia.
Qed.

Lemma scale_range s : (-32768 <= scale s)%Q ∧ (scale s <= 32767)%Q.
Proof.
  unfold scale.
  destruct (clamp_bounds (-1) 1 s ltac:(lra)) as [Hlo Hhi].
  destruct (Num.ltb (Num.clamp (-1) 1 s) 0) eqn:E.
  - apply ltb_true in E. lra.
  - apply ltb_false in E. lra.
Qed.

Lemma pcm16_range s : (-32768 ≤ pcm16 s < 32768)%Z.
Proof.
  destruct (scale_range s) as [Hlo Hhi].
  pose proof (truncate_mono_bounds (scale s) (-32768) 32767 Hlo Hhi
                ltac:(lia) ltac:(lia)).
  unfold pcm16. lia.
Qed.

Lemma decode_wav (b : AudioBuffer.t) c pos :
  let C := AudioBuffer.numberOfChannels b in
  let N := AudioBuffer.length b in
  c < C → pos < N →
  decode_sample C (header C N (AudioBuffer.sampleRate b) ++ data b) c pos
  = Some (unscale (pcm16 (sample_at b c pos))).
Proof.
  intros C N Hc Hpos. unfold decode_sample.
  rewrite (getInt16_lookup _ _ (pcm16 (sample_at b c pos))); [done| | |].
  - rewrite lookup_app_r by (rewrite length_header; lia).
    rewrite length_header.
    replace (44 + (pos * C + c) * 2 - 44) with ((pos * C + c) * 2 + 0) by lia.
    apply lookup_data; [exact Hc | exact Hpos | lia].
  - rewrite lookup_app_r by (rewrite length_header; lia).
    rewrite length_header.
    replace (Datatypes.S (44 + (pos * C + c) * 2) - 44)
      with ((pos * C + c) * 2 + 1) by lia.
    apply lookup_data; [exact Hc | exact Hpos | lia].
  - apply pcm16_range.
Qed.

Lemma inject_Z_lt_0 z : (inject_Z z < 0)%Q ↔ (z < 0)%Z.
Proof. unfold Qlt. simpl. lia. Qed.

Lemma inject_Z_nonneg z : (0 <= inject_Z z)%Q ↔ (0 ≤ z)%Z.
Proof. unfold Qle. simpl. lia. Qed.

(** The error of quantizing one sample and scaling it back. *)
Lemma quantization s :
  (-1 <= s)%Q → (s <= 1)%Q →
  (Qabs (s - unscale (pcm16 s)) < 1 # 32767)%Q
  ∧ ((s < 0)%Q → (Qabs (s - unscale (pcm16 s)) < 1 # 32768)%Q).
Proof.
  intros Hlo Hhi. unfold pcm16, scale.
  pose proof (clamp_id (-1) 1 s Hlo Hhi) as Hc.
  set (c := Num.clamp (-1) 1 s) in *.
  destruct (Num.ltb c 0) eqn:E.
  - apply ltb_true in E.
    destruct (truncate_nonpos (c * 32768) ltac:(lra)) as [H1 H2].
    set (z := Num.truncate (c * 32768)) in *.
    unfold unscale, Qdiv.
    change (/ 32768)%Q with (1 # 32768)%Q. change (/ 32767)%Q with (1 # 32767)%Q.
    destruct (Z.ltb_spec z 0) as [Hz|Hz].
    + assert (Qabs (s - inject_Z z * (1 # 32768)) < 1 # 32768)%Q;
        [apply Qabs_Qlt_condition; split; lra | split; [lra | done]].
    + assert (inject_Z z == 0)%Q as Hz0.
      { assert (-32768 <= c * 32768)%Q as Hb1 by lra.
        assert (c * 32768 <= 0)%Q as Hb2 by lra.
        assert (z ≤ 0)%Z
          by (apply (truncate_mono_bounds (c * 32768) (-32768) 0 Hb1 Hb2); lia).
        replace z with 0%Z by lia. reflexivity. }
      assert (Qabs (s - inject_Z z * (1 # 32767)) < 1 # 32768)%Q;
        [apply Qabs_Qlt_condition; split; lra | split; [lra | done]].
  - apply ltb_false in E.
    destruct (truncate_nonneg (c * 32767) ltac:(lra)) as [H1 H2].
    set (z := Num.truncate (c * 32767)) in *.
    assert (0 <= inject_Z z)%Q as Hz0.
    { assert (0 <= c * 32767)%Q as Hb1 by lra.
      assert (c * 32767 <= 32767)%Q as Hb2 by lra.
      apply inject_Z_nonneg.
      apply (truncate_mono_bounds (c * 32767) 0 32767 Hb1 Hb2); lia. }
    unfold unscale, Qdiv.
    change (/ 32768)%Q with (1 # 32768)%Q. change (/ 32767)%Q with (1 # 32767)%Q.
    destruct (Z.ltb_spec z 0) as [Hz|Hz].
    + apply inject_Z_lt_0 in Hz. lra.
    + split; [apply Qabs_Qlt_condition; split; lra | intros; lra].
Qed.

Lemma lookup_sample (b : AudioBuffer.t) c pos s :
  AudioBuffer.well_formed b →
  sample b c pos = Some s →
  c < AudioBuffer.numberOfChannels b ∧ pos < AudioBuffer.length b
  ∧ sample_at b c pos = s.
Proof.
  intros Hwf Hs. unfold sample_at. rewrite Hs. unfold sample in Hs.
  destruct (AudioBuffer.channels b !! c) as [ch|] eqn:Hch; [|done].
  simpl in Hs.
  split; [by eapply lookup_lt_Some|]. split; [|done].
  unfold AudioBuffer.well_formed in Hwf. rewrite Forall_lookup in Hwf.
  rewrite <- (Hwf _ _ Hch). by eapply lookup_lt_Some.
Qed.

Lemma lookup_in_unit_range (b : AudioBuffer.t) c pos s :
  in_unit_range b →
  sample b c pos = Some s →
  (-1 <= s)%Q ∧ (s <= 1)%Q.
Proof.
  intros Hr Hs. unfold sample in Hs.
  destruct (AudioBuffer.channels b !! c) as [ch|] eqn:Hch; [|done].
  simpl in Hs. unfold in_unit_range in Hr.
  rewrite Forall_lookup in Hr. specialize (Hr _ _ Hch).
  rewrite Forall_lookup in Hr. exact (Hr _ _ Hs).
Qed.

(** The round trip of one sample, computed. *)
Lemma roundtrip_error_eq (b : AudioBuffer.t) c pos s :
  AudioBuffer.well_formed b →
  sample b c pos = Some s →
  roundtrip_error b c pos = Some (Qabs (s - unscale (pcm16 s))).
Proof.
  intros Hwf Hs.
  destruct (lookup_sample b c pos s Hwf Hs) as (Hc & Hpos & Hat).
  unfold roundtrip_error. rewrite Hs. cbn [mbind option_bind].
  rewrite audioBufferToWav_bytes. cbn [mbind option_bind].
  rewrite decode_wav by done. cbn [mbind option_bind]. by rewrite Hat.
Qed.

(** C9, as the code has it.  For every well-formed sample buffer with
    samples in [-1, 1], serializing and decoding reproduces each sample
    with an error strictly below [1/32767], and strictly below [1/32768]
    for a negative sample. *)
Theorem roundtrip_quantization (b : AudioBuffer.t) c pos s :
  AudioBuffer.well_formed b →
  in_unit_range b →
  sample b c pos = Some s →
  ∃ e, roundtrip_error b c pos = Some e
       ∧ (e < 1 # 32767)%Q
       ∧ ((s < 0)%Q → (e < 1 # 32768)%Q).
Proof.
  intros Hwf Hr Hs.
  destruct (lookup_in_unit_range b c pos s Hr Hs) as [Hlo Hhi].
  exists (Qabs (s - unscale (pcm16 s))).
  split; [by apply roundtrip_error_eq|].
  by apply quantization.
Qed.

Lemma sample_buffer_well_formed : AudioBuffer.well_formed sample_buffer.
Proof. repeat constructor. Qed.

Lemma sample_buffer_in_unit_range : in_unit_range sample_buffer.
Proof. repeat constructor; discriminate. Qed.

Lemma roundtrip_quantization_witness :
  ∃ e, roundtrip_error sample_buffer 1 1 = Some e
       ∧ (e < 1 # 32767)%Q
       ∧ ((-(1 # 4) < 0)%Q → (e < 1 # 32768)%Q).
Proof.
  apply (roundtrip_quantization sample_buffer 1 1 (-(1 # 4))%Q).
  - exact sample_buffer_well_formed.
  - exact sample_buffer_in_unit_range.
  - reflexivity.
Defined.

(** C9, as stated, fails: the sample [2^-15 + 2^-31] is stored as the
    integer 0 and read back as 0, an error above [1/32768]. *)
Lemma roundtrip_32768_counterexample :
  AudioBuffer.well_formed quiet_buffer
  ∧ in_unit_range quiet_buffer
  ∧ ∃ e, roundtrip_error quiet_buffer 0 0 = Some e
         ∧ (e == 65537 # 2147483648)%Q
         ∧ ¬ (e <= 1 # 32768)%Q.
Proof.
  split; [repeat constructor|].
  split; [repeat constructor; discriminate|].
  eexists. split; [vm_compute; reflexivity|].
  split; [reflexivity|].
  intros H. vm_compute in H. by apply H.
Qed.

End RoundTrip.

(** ** The state and exception monad *)

Section Monad.
Context {S : Type}.

Lemma bind_ok {A B} (m : ST S A) (k : A → ST S B) s a s' :
  m s = (Ok a, s') → bind m k s = k a s'.
Proof. intros H. unfold bind. by rewrite H. Qed.

Lemma bind_throw {A B} (m : ST S A) (k : A → ST S B) s e s' :
  m s = (Throw e, s') → bind m k s = (Throw e, s').
Proof. intros H. unfold bind. by rewrite H. Qed.

Lemma for_upto_S n (body : nat → ST S unit) :
  for_upto (Datatypes.S n) body = (for_upto n body ;;; body n).
Proof. reflexivity. Qed.

Lemma for_upto_ext n (body body' : nat → ST S unit) s :
  (∀ i s', body i s' = body' i s') →
  for_upto n body s = for_upto n body' s.
Proof.
  intros Hb. induction n as [|n IH]; [done|].
  rewrite !for_upto_S. unfold bind. rewrite IH.
  destruct (for_upto n body' s) as [[u|e] s']; [apply Hb | done].
Qed.

End Monad.

(** ** Loops over the output buffer *)

Section OutputLoops.
Import Mix Closed.

Lemma lookup_update_upto {A} k (g : nat → A → A) (l : list A) i :
  update_upto k g l !! i = (fun x => if decide (i < k) then g i x else x) <$> l !! i.
Proof. unfold update_upto. by rewrite list_lookup_imap. Qed.

Lemma length_update_upto {A} k (g : nat → A → A) (l : list A) :
  List.length (update_upto k g l) = List.length l.
Proof. unfold update_upto. by rewrite length_imap. Qed.

Lemma update_upto_0 {A} (g : nat → A → A) (l : list A) : update_upto 0 g l = l.
Proof.
  apply list_eq. intros i. rewrite lookup_update_upto.
  destruct (l !! i); cbn [fmap option_fmap option_map]; [|done]. by rewrite decide_False by lia.
Qed.

Lemma update_upto_S {A} k (g : nat → A → A) (l : list A) x :
  l !! k = Some x →
  <[k := g k x]> (update_upto k g l) = update_upto (Datatypes.S k) g l.
Proof.
  intros Hx. apply list_eq. intros i. rewrite lookup_update_upto.
  destruct (decide (i = k)) as [->|Hne].
  - rewrite list_lookup_insert_eq
      by (rewrite length_update_upto; by eapply lookup_lt_Some).
    rewrite Hx. cbn [fmap option_fmap option_map]. by rewrite decide_True by lia.
  - rewrite list_lookup_insert_ne by done. rewrite lookup_update_upto.
    destruct (l !! i); cbn [fmap option_fmap option_map]; [|done].
    destruct (decide (i < k)); [by rewrite decide_True by lia
                               | by rewrite decide_False by lia].
Qed.

Lemma update_upto_S_ge {A} k (g : nat → A → A) (l : list A) :
  List.length l ≤ k →
  update_upto (Datatypes.S k) g l = update_upto k g l.
Proof.
  intros Hk. apply list_eq. intros i. rewrite !lookup_update_upto.
  destruct (l !! i) eqn:Hi; cbn [fmap option_fmap option_map]; [|done].
  apply lookup_lt_Some in Hi.
  by rewrite !decide_True by lia.
Qed.

Lemma update_upto_all {A} k (g : nat → A → A) (l : list A) :
  List.length l ≤ k → update_upto k g l = imap g l.
Proof.
  intros Hk. apply list_eq. intros i.
  rewrite lookup_update_upto, list_lookup_imap.
  destruct (l !! i) eqn:Hi; cbn [fmap option_fmap option_map]; [|done].
  apply lookup_lt_Some in Hi. by rewrite decide_True by lia.
Qed.

Lemma alter_insert {A} (f : A → A) c d (l : list A) :
  alter f c (<[c := d]> l) = <[c := f d]> l.
Proof.
  apply list_eq. intros j. destruct (decide (c = j)) as [->|Hne].
  - rewrite list_lookup_alter_eq.
    destruct (decide (j < List.length l)).
    + by rewrite !list_lookup_insert_eq.
    + rewrite !list_insert_ge by lia.
      by rewrite (lookup_ge_None_2 l j) by lia.
  - by rewrite list_lookup_alter_ne, !list_lookup_insert_ne.
Qed.

(** The inner loops: read [outputData[i]], write it back changed; the
    write rounds to binary32. *)
Lemma update_loop c (g : nat → Q → Q) k out data :
  AudioBuffer.channels out !! c = Some data →
  for_upto k (fun i => o <- read_output c i ;; write_output c i (g i o)) out
  = (Ok tt, set_channel out c
              (update_upto k (fun i o => Float.fround (g i o)) data)).
Proof.
  intros Hc. induction k as [|k IH].
  - simpl. unfold ret, set_channel. rewrite update_upto_0.
    rewrite list_insert_id by done. by destruct out.
  - rewrite for_upto_S. rewrite (bind_ok _ _ _ _ _ IH).
    unfold read_output, write_output, bind, get, ret, modify, set_channel.
    cbn [AudioBuffer.channels AudioBuffer.sampleRate AudioBuffer.length].
    rewrite list_lookup_insert_eq by (by eapply lookup_lt_Some).
    rewrite alter_insert. unfold at_index. cbn [from_option id].
    rewrite lookup_update_upto. do 3 f_equal.
    destruct (data !! k) as [x|] eqn:Hk.
    + cbn [fmap option_fmap option_map default].
      rewrite decide_False by lia.
      by apply (update_upto_S k (fun i o => Float.fround (g i o))).
    + cbn [fmap option_fmap option_map default].
      apply lookup_ge_None in Hk.
      rewrite list_insert_ge by (by rewrite length_update_upto).
      by rewrite update_upto_S_ge.
Qed.

(** The same loop when the body writes without reading. *)
Lemma write_loop c (f : nat → Q) k out data :
  AudioBuffer.channels out !! c = Some data →
  for_upto k (fun i => write_output c i (f i)) out
  = (Ok tt, set_channel out c
              (update_upto k (fun i _ => Float.fround (f i)) data)).
Proof.
  intros Hc. rewrite <- (update_loop c (fun i _ => f i) k out data Hc).
  by apply for_upto_ext.
Qed.

(** The outer loops: one channel after the other. *)
Lemma channel_loop (body : nat → ST AudioBuffer.t unit)
  (h : nat → list Q → list Q) k out :
  (∀ c o data, c < k → AudioBuffer.channels o !! c = Some data →
               body c o = (Ok tt, set_channel o c (h c data))) →
  k ≤ AudioBuffer.numberOfChannels out →
  for_upto k body out
  = (Ok tt, set_channels out (update_upto k h (AudioBuffer.channels out))).
Proof.
  induction k as [|k IH]; intros Hbody Hk.
  - simpl. unfold ret, set_channels. rewrite update_upto_0. by destruct out.
  - rewrite for_upto_S.
    rewrite (bind_ok _ _ _ _ _
               (IH ltac:(intros; apply Hbody; [lia | done]) ltac:(lia))).
    unfold AudioBuffer.numberOfChannels in Hk.
    destruct (AudioBuffer.channels out !! k) as [data|] eqn:Hd;
      [|apply lookup_ge_None in Hd; lia].
    rewrite (Hbody k _ data); [ | lia | ].
    + unfold set_channel, set_channels.
      cbn [AudioBuffer.channels AudioBuffer.sampleRate AudioBuffer.length].
      by rewrite (update_upto_S _ _ _ _ Hd).
    + cbn [set_channels AudioBuffer.channels].
      rewrite lookup_update_upto, Hd. cbn [fmap option_fmap option_map].
      by rewrite decide_False by lia.
Qed.

Lemma output_channel_ok c out data :
  AudioBuffer.channels out !! c = Some data →
  output_channel c out = (Ok tt, out).
Proof.
  intros Hc. unfold output_channel, channel_of, AudioBuffer.getChannelData,
    bind, get, lift_option, ret. by rewrite Hc.
Qed.

Lemma channel_of_ok {S} (b : AudioBuffer.t) c (s : S) :
  c < AudioBuffer.numberOfChannels b →
  channel_of b c s = (Ok (channel b c), s).
Proof.
  intros Hc. unfold channel_of, AudioBuffer.getChannelData, channel.
  destruct (AudioBuffer.channels b !! c) eqn:E; [done|].
  apply lookup_ge_None in E. unfold AudioBuffer.numberOfChannels in Hc. lia.
Qed.

Lemma channel_of_throw {S} (b : AudioBuffer.t) c (s : S) :
  AudioBuffer.numberOfChannels b ≤ c →
  channel_of b c s = (Throw IndexSizeError, s).
Proof.
  intros Hc. unfold channel_of, AudioBuffer.getChannelData.
  by rewrite lookup_ge_None_2.
Qed.

(** The copy loops of lines 52-61 and 119-125. *)
Lemma copy_loop (video : AudioBuffer.t) factor out :
  AudioBuffer.numberOfChannels out ≤ AudioBuffer.numberOfChannels video →
  for_upto (AudioBuffer.numberOfChannels out) (fun channel =>
    output_channel channel ;;;
    videoData <- channel_of video channel ;;
    for_upto (AudioBuffer.length video) (fun i =>
      write_output channel i (Float.mul (at_index videoData i) factor))) out
  = (Ok tt, set_channels out (scaled video factor (AudioBuffer.channels out))).
Proof.
  intros Hn.
  rewrite (channel_loop _
    (fun c data => update_upto (AudioBuffer.length video)
       (fun i _ => scaled_sample (at_index (channel video c) i) factor) data)).
  - unfold scaled. by rewrite update_upto_all.
  - intros c o data Hc Ho.
    rewrite (bind_ok _ _ _ _ _ (output_channel_ok c o data Ho)).
    rewrite (bind_ok _ _ _ _ _ (channel_of_ok video c o ltac:(lia))).
    by apply write_loop.
  - done.
Qed.

Lemma primary_pass_eq (video : AudioBuffer.t) videoVolume out :
  AudioBuffer.numberOfChannels out ≤ AudioBuffer.numberOfChannels video →
  primary_pass video videoVolume out
  = (Ok tt, set_channels out
              (scaled video (Num.clamp 0 1 videoVolume) (AudioBuffer.channels out))).
Proof. intros Hn. unfold primary_pass. by apply copy_loop. Qed.

Lemma restore_video_eq (video : AudioBuffer.t) videoVolume out :
  AudioBuffer.numberOfChannels out ≤ AudioBuffer.numberOfChannels video →
  restore_video video videoVolume out
  = (Ok tt, set_channels out (scaled video videoVolume (AudioBuffer.channels out))).
Proof. intros Hn. unfold restore_video. by apply copy_loop. Qed.

Lemma secondary_mix_eq (video track : AudioBuffer.t) audioVolume out :
  0 < AudioBuffer.numberOfChannels track →
  secondary_mix video track audioVolume out
  = (Ok tt, set_channels out
              (mixed video track audioVolume (AudioBuffer.channels out))).
Proof.
  intros Hn. unfold secondary_mix. unfold bind at 1. unfold get.
  rewrite (channel_loop _
    (fun c data =>
       update_upto
         (Nat.min (AudioBuffer.length track) (AudioBuffer.length video))
         (fun i o =>
            mixed_sample o
              (at_index (channel track (c mod AudioBuffer.numberOfChannels track)) i)
              audioVolume)
         data)).
  - unfold mixed. by rewrite update_upto_all.
  - intros c o data Hc Ho.
    rewrite (bind_ok _ _ _ _ _ (output_channel_ok c o data Ho)).
    rewrite (bind_ok _ _ _ _ _
               (channel_of_ok track _ o ltac:(by apply Nat.mod_upper_bound; lia))).
    by apply update_loop.
  - done.
Qed.

(** A track without channels makes [getChannelData] throw before any
    sample is written. *)
Lemma secondary_mix_no_channels (video track : AudioBuffer.t) audioVolume out :
  AudioBuffer.numberOfChannels track = 0 →
  0 < AudioBuffer.numberOfChannels out →
  secondary_mix video track audioVolume out = (Throw IndexSizeError, out).
Proof.
  intros Hn Hout. unfold secondary_mix. unfold bind at 1. unfold get.
  destruct (AudioBuffer.numberOfChannels out) as [|k] eqn:Hk; [lia|].
  clear Hout. unfold AudioBuffer.numberOfChannels in Hk.
  assert (Hfirst : ∀ body : nat → ST AudioBuffer.t unit,
    (∀ s, body 0 s = (Throw IndexSizeError, s)) →
    ∀ n, for_upto (Datatypes.S n) body out = (Throw IndexSizeError, out)).
  { intros body Hb n. induction n as [|n IH].
    - simpl. unfold bind, ret. apply Hb.
    - rewrite for_upto_S. by rewrite (bind_throw _ _ _ _ _ IH). }
  apply Hfirst. intros s.
  assert (Hempty : AudioBuffer.channels track = []).
  { unfold AudioBuffer.numberOfChannels in Hn.
    by destruct (AudioBuffer.channels track). }
  cbv beta iota delta [bind output_channel get channel_of lift_option
    AudioBuffer.getChannelData ret throw].
  rewrite Hempty, lookup_nil. by destruct (AudioBuffer.channels s !! 0).
Qed.

End OutputLoops.

(** ** The rounding at work *)

(** Three runs in which the rounding decides the 16-bit integer, or the
    outcome of the silence check.  A video sample [0.5] and a track sample
    [fround 0.522], mixed at full volume, are stored as [0.9176000356...]
    and serialized as 30067; the exact sum would give 30066. *)
Lemma mixed_sample_rounds :
  Closed.mixed_sample (1 # 2) (Float.fround (522 # 1000)) 1
  = (7697387 # 8388608)%Q
  ∧ Layout.pcm16 (Closed.mixed_sample (1 # 2) (Float.fround (522 # 1000)) 1)
    = 30067%Z
  ∧ Layout.pcm16 ((1 # 2) + Float.fround (522 # 1000) * (8 # 10))%Q = 30066%Z.
Proof. vm_compute. repeat split. Qed.

(** The video sample [2996023 / 2^36] at the volume [0.7] is stored as
    [32769 / 2^30] and serialized as 0; the exact product would give 1. *)
Lemma scaled_sample_rounds :
  Closed.scaled_sample (2996023 # 68719476736) (Float.literal (7 # 10))
  = (32769 # 1073741824)%Q
  ∧ Layout.pcm16
      (Closed.scaled_sample (2996023 # 68719476736) (Float.literal (7 # 10)))
    = 0%Z
  ∧ Layout.pcm16 ((2996023 # 68719476736) * (7 # 10))%Q = 1%Z.
Proof. vm_compute. repeat split. Qed.

(** A track sample [1] at the volume [0.00124999999] over a silent video:
    the exact weighted sum is below a thousandth, the stored sample is
    above the threshold of the silence check. *)
Lemma threshold_rounds :
  let audioVolume := Float.literal (124999999 # 100000000000) in
  Closed.mixed_sample 0 1 audioVolume = (8589935 # 8589934592)%Q
  ∧ Num.gtb (Num.abs (Closed.mixed_sample 0 1 audioVolume)) Mix.threshold = true
  ∧ (audioVolume * (8 # 10) < 1 # 1000)%Q.
Proof. vm_compute. repeat split. Qed.

(** ** C7 and C8: the secondary mixing pass *)

Section SecondaryMix.
Import Mix Closed.

Lemma clamp_proper lo hi x y :
  (lo <= hi)%Q → (x == y)%Q → (Num.clamp lo hi x == Num.clamp lo hi y)%Q.
Proof.
  intros Hlh Hxy.
  destruct (clamp_cases lo hi x Hlh) as [[? ->]|[(? & ? & ->)|[? ->]]];
  destruct (clamp_cases lo hi y Hlh) as [[? ->]|[(? & ? & ->)|[? ->]]]; lra.
Qed.

Lemma clamp_above lo hi x : (lo <= hi)%Q → (hi < x)%Q → Num.clamp lo hi x = hi.
Proof.
  intros Hlh Hx.
  destruct (clamp_cases lo hi x Hlh) as [[? ?]|[(? & ? & ?)|[? ?]]];
    [lra | lra | done].
Qed.

Lemma clamp_below lo hi x : (lo <= hi)%Q → (x < lo)%Q → Num.clamp lo hi x = lo.
Proof.
  intros Hlh Hx.
  destruct (clamp_cases lo hi x Hlh) as [[? ?]|[(? & ? & ?)|[? ?]]];
    [done | lra | lra].
Qed.

Lemma sample_set_channels out chs c i :
  sample (set_channels out chs) c i = chs !! c ≫= (.!! i).
Proof. reflexivity. Qed.

Lemma sample_mixed video track audioVolume out c i :
  sample (set_channels out (mixed video track audioVolume (AudioBuffer.channels out))) c i
  = (fun o =>
       if decide (i < Nat.min (AudioBuffer.length track) (AudioBuffer.length video))
       then mixed_sample o
              (at_index (channel track (c mod AudioBuffer.numberOfChannels track)) i)
              audioVolume
       else o) <$> sample out c i.
Proof.
  rewrite sample_set_channels. unfold mixed, sample.
  rewrite list_lookup_imap.
  destruct (AudioBuffer.channels out !! c) as [data|]; [|done].
  cbn [fmap option_fmap option_map mbind option_bind].
  by rewrite lookup_update_upto.
Qed.

Lemma sample_scaled video factor out c i :
  sample (set_channels out (scaled video factor (AudioBuffer.channels out))) c i
  = (fun o =>
       if decide (i < AudioBuffer.length video)
       then scaled_sample (at_index (channel video c) i) factor
       else o) <$> sample out c i.
Proof.
  rewrite sample_set_channels. unfold scaled, sample.
  rewrite list_lookup_imap.
  destruct (AudioBuffer.channels out !! c) as [data|]; [|done].
  cbn [fmap option_fmap option_map mbind option_bind].
  by rewrite lookup_update_upto.
Qed.

Lemma at_index_channel b c i s :
  sample b c i = Some s → at_index (channel b c) i = s.
Proof.
  unfold sample, at_index, channel.
  destruct (AudioBuffer.channels b !! c) as [data|]; [|done].
  cbn [mbind option_bind from_option id]. by intros ->.
Qed.

(** C7.  In the secondary mixing pass, for every channel [c] and index
    [i] below [audioLength], the sample stored in the output is
    [clamp (primary + secondary * (clamp audioVolume 0 1 * 0.8)) (-1) 1],
    where [secondary] is taken from track channel [c mod n]: the products
    and the sum are those of the program, rounded to binary64 with [0.8]
    the number the literal denotes, and the store rounds to binary32.  When
    the weighted sum exceeds 1 the stored sample is exactly 1, and when it
    is below -1 the stored sample is exactly -1. *)
Theorem secondary_mix_clips (video track out : AudioBuffer.t)
  (audioVolume : Q) (c i : nat) (p s : Q) :
  0 < AudioBuffer.numberOfChannels track →
  i < Nat.min (AudioBuffer.length track) (AudioBuffer.length video) →
  sample out c i = Some p →
  sample track (c mod AudioBuffer.numberOfChannels track) i = Some s →
  let sum :=
    Float.add p
      (Float.mul s
         (Float.mul (Num.clamp 0 1 audioVolume) (Float.literal (8 # 10)))) in
  ∃ out' v,
    secondary_mix video track audioVolume out = (Ok tt, out')
    ∧ sample out' c i = Some v
    ∧ v = Float.fround (Num.clamp (-1) 1 sum)
    ∧ ((1 < sum)%Q → v = 1%Q)
    ∧ ((sum < -1)%Q → v = (-1)%Q).
Proof.
  intros Hn Hi Hp Hs sum.
  exists (set_channels out (mixed video track audioVolume (AudioBuffer.channels out))),
         (Float.fround (Num.clamp (-1) 1 sum)).
  split; [by apply secondary_mix_eq|].
  split.
  { rewrite sample_mixed, Hp. cbn [fmap option_fmap option_map].
    rewrite decide_True by done. by rewrite (at_index_channel _ _ _ _ Hs). }
  split; [reflexivity|].
  split; intros H.
  - rewrite clamp_above by lra. apply fround_one.
  - rewrite clamp_below by lra. apply fround_minus_one.
Qed.

Lemma secondary_mix_clips_witness :
  0 < AudioBuffer.numberOfChannels mono_track
  ∧ 1 < Nat.min (AudioBuffer.length mono_track) (AudioBuffer.length stereo_video)
  ∧ sample stereo_video 0 1 = Some (-(7 # 8))%Q
  ∧ sample mono_track (0 mod AudioBuffer.numberOfChannels mono_track) 1
    = Some (-1)%Q
  ∧ ∃ out' v,
      secondary_mix stereo_video mono_track 1 stereo_video = (Ok tt, out')
      ∧ sample out' 0 1 = Some v
      ∧ v = (-1)%Q.
Proof.
  split; [compute; lia|]. split; [compute; lia|].
  split; [reflexivity|]. split; [reflexivity|].
  destruct (secondary_mix_clips stereo_video mono_track stereo_video 1 0 1
              (-(7 # 8))%Q (-1)%Q)
    as (out' & v & Hrun & Hv & _ & _ & Hlow);
    [compute; lia | compute; lia | reflexivity | reflexivity |].
  exists out', v. split; [exact Hrun|]. split; [exact Hv|].
  apply Hlow. vm_compute. reflexivity.
Defined.

(** C8.  Whatever the channel counts of the output and of the audio
    track, as long as the track has a channel the secondary mixing pass
    does not throw, and output channel [c] is mixed with track channel
    [c mod n]; a mono track is mixed into every output channel.  The sample
    stored is the weighted sum as the program computes it, clipped and
    rounded to binary32. *)
Theorem secondary_mix_channel_mismatch (video track out : AudioBuffer.t)
  (audioVolume : Q) :
  0 < AudioBuffer.numberOfChannels track →
  ∃ out',
    secondary_mix video track audioVolume out = (Ok tt, out')
    ∧ (∀ c i p,
         i < Nat.min (AudioBuffer.length track) (AudioBuffer.length video) →
         sample out c i = Some p →
         sample out' c i
         = Some (Float.fround
                   (Num.clamp (-1) 1
                      (Float.add p
                         (Float.mul
                            (at_index
                               (channel track
                                  (c mod AudioBuffer.numberOfChannels track)) i)
                            (weight audioVolume))))))
    ∧ (AudioBuffer.numberOfChannels track = 1 →
       ∀ c i p,
         i < Nat.min (AudioBuffer.length track) (AudioBuffer.length video) →
         sample out c i = Some p →
         sample out' c i
         = Some (Float.fround
                   (Num.clamp (-1) 1
                      (Float.add p
                         (Float.mul (at_index (channel track 0) i)
                            (weight audioVolume)))))).
Proof.
  intros Hn.
  exists (set_channels out (mixed video track audioVolume (AudioBuffer.channels out))).
  split; [by apply secondary_mix_eq|].
  assert (Hgen : ∀ c i p,
    i < Nat.min (AudioBuffer.length track) (AudioBuffer.length video) →
    sample out c i = Some p →
    sample (set_channels out (mixed video track audioVolume (AudioBuffer.channels out))) c i
    = Some (Float.fround
              (Num.clamp (-1) 1
                 (Float.add p
                    (Float.mul
                       (at_index
                          (channel track
                             (c mod AudioBuffer.numberOfChannels track)) i)
                       (weight audioVolume)))))).
  { intros c i p Hi Hp. rewrite sample_mixed, Hp.
    cbn [fmap option_fmap option_map]. by rewrite decide_True by done. }
  split; [exact Hgen|].
  intros H1 c i p Hi Hp. rewrite (Hgen c i p Hi Hp), H1.
  by rewrite Nat.mod_1_r.
Qed.

Lemma secondary_mix_channel_mismatch_witness :
  AudioBuffer.numberOfChannels stereo_video = 2
  ∧ AudioBuffer.numberOfChannels mono_track = 1
  ∧ ∃ out',
      secondary_mix stereo_video mono_track 1 stereo_video = (Ok tt, out')
      ∧ sample out' 0 0 = Some 1%Q
      ∧ sample out' 1 0 = Some 1%Q.
Proof.
  split; [reflexivity|]. split; [reflexivity|].
  destruct (secondary_mix_channel_mismatch stereo_video mono_track stereo_video 1
              ltac:(compute; lia)) as (out' & Hrun & _ & Hmono).
  exists out'. split; [exact Hrun|].
  split.
  - rewrite (Hmono eq_refl 0 0 (7 # 8)%Q);
      [vm_compute; reflexivity | compute; lia | reflexivity].
  - rewrite (Hmono eq_refl 1 0 (1 # 2)%Q);
      [vm_compute; reflexivity | compute; lia | reflexivity].
Defined.

End SecondaryMix.

(** ** The compositor, step by step *)

Section Pipeline.
Import Mix Closed Compositor.

Lemma on_output_run {A} (m : ST AudioBuffer.t A) w r b' :
  m (outputBuffer w) = (r, b') →
  on_output m w = (r, set_outputBuffer b' w).
Proof. intros H. unfold on_output, zoom. by rewrite H. Qed.

Lemma is_console_Console l : is_console (Console l).
Proof. by exists l. Qed.

Lemma resources_app t1 t2 : resources (t1 ++ t2) = resources t1 ++ resources t2.
Proof. unfold resources. apply List.filter_app. Qed.

Lemma resources_console logs : Forall is_console logs → resources logs = [].
Proof.
  induction 1 as [|e logs [l ->] _ IH]; [done|]. simpl. exact IH.
Qed.

Lemma has_audio_false out : Mix.has_audio out = false ↔ silent out.
Proof.
  unfold Mix.has_audio, silent.
  induction (AudioBuffer.channels out) as [|ch chs IH]; simpl.
  - split; [constructor | done].
  - rewrite orb_false_iff, IH, Forall_cons.
    enough (existsb (λ s, Num.gtb (Num.abs s) Mix.threshold) ch = false
            ↔ Forall (λ s, (Qabs s <= Mix.threshold)%Q) ch) as -> by done.
    clear. induction ch as [|s ch IH]; simpl.
    + split; [constructor | done].
    + by rewrite orb_false_iff, IH, Forall_cons, gtb_false.
Qed.

(** Lines 64-101 never raise, touch only the output buffer and the
    console, and keep the number of channels. *)
Lemma secondary_pass_frame env video audioTrack audioVolume w :
  ∃ out' logs,
    secondary_pass env video audioTrack audioVolume w
    = (Ok tt, mkWorld (videoElement w) (audioContext w) out' (trace w ++ logs))
    ∧ Forall is_console logs
    ∧ AudioBuffer.numberOfChannels out' = AudioBuffer.numberOfChannels (outputBuffer w).
Proof.
  assert (Hlog : ∀ l, ∃ out' logs,
    emit (Console l) w
    = (Ok tt, mkWorld (videoElement w) (audioContext w) out' (trace w ++ logs))
    ∧ Forall is_console logs
    ∧ AudioBuffer.numberOfChannels out' = AudioBuffer.numberOfChannels (outputBuffer w)).
  { intros l. exists (outputBuffer w), [Console l].
    split; [done|]. split; [|done]. repeat constructor. apply is_console_Console. }
  unfold secondary_pass.
  destruct audioTrack as [track|]; [|apply Hlog].
  destruct (Num.gtb audioVolume 0); [|apply Hlog].
  clear Hlog.
  assert (Herr : ∃ out' logs,
    (Ok tt, add_event (Console Error) (add_event (Console Log) w))
    = (Ok tt, mkWorld (videoElement w) (audioContext w) out' (trace w ++ logs))
    ∧ Forall is_console logs
    ∧ AudioBuffer.numberOfChannels out' = AudioBuffer.numberOfChannels (outputBuffer w)).
  { exists (outputBuffer w), [Console Log; Console Error].
    split; [unfold add_event; simpl; by rewrite <- app_assoc|].
    split; [|done]. repeat constructor; apply is_console_Console. }
  unfold bind at 1. unfold emit at 1, modify. unfold try_catch, bind.
  destruct (fetch env (audio_url track)) as [bytes|]; [|exact Herr].
  cbn [lift_option ret].
  destruct (decodeAudioData env bytes) as [buf|]; [|exact Herr].
  cbn [lift_option ret].
  destruct (Nat.eq_dec (AudioBuffer.numberOfChannels buf) 0) as [H0|H0].
  - destruct (Nat.eq_dec (AudioBuffer.numberOfChannels (outputBuffer w)) 0) as [Ho|Ho].
    + rewrite (on_output_run _ _ (Ok tt) (outputBuffer w)).
      * exists (outputBuffer w), [Console Log].
        split; [by destruct w|]. split; [|done].
        repeat constructor; apply is_console_Console.
      * unfold secondary_mix, bind, get. cbn [add_event outputBuffer].
        by rewrite Ho.
    + rewrite (on_output_run _ _ (Throw IndexSizeError) (outputBuffer w)).
      * exists (outputBuffer w), [Console Log; Console Error].
        split; [unfold emit, modify, add_event; simpl; by rewrite <- app_assoc|].
        split; [|done]. repeat constructor; apply is_console_Console.
      * apply secondary_mix_no_channels; [done | cbn [add_event outputBuffer]; lia].
  - erewrite on_output_run by (apply secondary_mix_eq; lia).
    eexists _, [Console Log]. split; [reflexivity|].
    split; [repeat constructor; apply is_console_Console|].
    unfold AudioBuffer.numberOfChannels, mixed.
    cbn [add_event outputBuffer set_outputBuffer set_channels AudioBuffer.channels].
    apply length_imap.
Qed.

(** Lines 64-101 when no track is mixed: nothing is asked for, the fetch
    fails, or the decoding fails.  The output buffer is left as it was. *)
Lemma secondary_pass_absent env video audioTrack audioVolume w :
  (audioTrack = None
   ∨ Num.gtb audioVolume 0 = false
   ∨ ∃ track, audioTrack = Some track ∧
       (fetch env (audio_url track) = None
        ∨ ∃ bytes, fetch env (audio_url track) = Some bytes
                   ∧ decodeAudioData env bytes = None)) →
  ∃ logs,
    secondary_pass env video audioTrack audioVolume w
    = (Ok tt, mkWorld (videoElement w) (audioContext w) (outputBuffer w)
                (trace w ++ logs))
    ∧ Forall is_console logs
    ∧ (logs = [Console Log] ∨ logs = [Console Log; Console Error])
    ∧ (audioTrack ≠ None → Num.gtb audioVolume 0 = true →
       logs = [Console Log; Console Error]).
Proof.
  intros Hcase. unfold secondary_pass.
  assert (Hlog : ∃ logs,
    emit (Console Log) w
    = (Ok tt, mkWorld (videoElement w) (audioContext w) (outputBuffer w)
                (trace w ++ logs))
    ∧ Forall is_console logs
    ∧ (logs = [Console Log] ∨ logs = [Console Log; Console Error])).
  { exists [Console Log]. split; [done|]. split; [|by left].
    repeat constructor; apply is_console_Console. }
  destruct audioTrack as [track|].
  2:{ destruct Hlog as (logs & ? & ? & ?). exists logs. by repeat split. }
  destruct (Num.gtb audioVolume 0) eqn:Hgt.
  2:{ destruct Hlog as (logs & ? & ? & ?). exists logs. by repeat split. }
  destruct Hcase as [?|[?|(track' & [= <-] & Hfail)]]; [done|done|].
  exists [Console Log; Console Error].
  split.
  { unfold bind at 1. unfold emit at 1, modify. unfold try_catch, bind.
    destruct Hfail as [->|(bytes & -> & Hdec)].
    - unfold emit, modify, add_event. simpl. by rewrite <- app_assoc.
    - cbn [lift_option ret]. rewrite Hdec.
      unfold emit, modify, add_event. simpl. by rewrite <- app_assoc. }
  split; [repeat constructor; apply is_console_Console|].
  split; [by right | done].
Qed.

Lemma numberOfChannels_scaled out video factor :
  AudioBuffer.numberOfChannels
    (set_channels out (scaled video factor (AudioBuffer.channels out)))
  = AudioBuffer.numberOfChannels out.
Proof. unfold AudioBuffer.numberOfChannels, scaled. simpl. apply length_imap. Qed.

(** Lines 103-126, computed. *)
Lemma validate_mix_eq video videoVolume w :
  AudioBuffer.numberOfChannels (outputBuffer w) ≤ AudioBuffer.numberOfChannels video →
  ∃ logs,
    validate_mix video videoVolume w
    = (Ok tt, mkWorld (videoElement w) (audioContext w)
                (validated video videoVolume (outputBuffer w)) (trace w ++ logs))
    ∧ Forall is_console logs
    ∧ (logs = [] ∨ logs = [Console Warn])
    ∧ (negb (Mix.has_audio (outputBuffer w)) && Num.gtb videoVolume 0 = false
       → logs = []).
Proof.
  intros Hn. unfold validate_mix, validated.
  unfold bind at 1. rewrite (on_output_run get w (Ok (outputBuffer w)) (outputBuffer w))
    by done.
  destruct (negb (Mix.has_audio (outputBuffer w)) && Num.gtb videoVolume 0) eqn:E.
  - exists [Console Warn].
    split.
    + unfold bind, emit, modify.
      erewrite on_output_run by (apply restore_video_eq; by destruct w).
      by destruct w.
    + split; [repeat constructor; apply is_console_Console|].
      split; [by right | done].
  - exists []. split; [destruct w; unfold ret; simpl; by rewrite app_nil_r|].
    split; [constructor|]. split; [by left | done].
Qed.

Lemma numberOfChannels_primary_result video videoVolume :
  AudioBuffer.numberOfChannels (primary_result video videoVolume)
  = AudioBuffer.numberOfChannels video.
Proof.
  unfold primary_result. rewrite numberOfChannels_scaled.
  unfold AudioBuffer.numberOfChannels, AudioBuffer.createBuffer. simpl.
  apply length_replicate.
Qed.

(** Lines 38-61: the output buffer is created and the primary pass run. *)
Lemma mix_unfold env video audioTrack videoVolume audioVolume w :
  mix env video audioTrack videoVolume audioVolume w
  = (secondary_pass env video audioTrack audioVolume ;;;
     validate_mix video videoVolume)
      (mkWorld (videoElement w) (audioContext w)
         (primary_result video videoVolume) (trace w ++ [Console Log])).
Proof.
  unfold mix. unfold bind at 1 2 3. unfold modify at 1. unfold emit at 1, modify.
  erewrite on_output_run.
  2:{ apply primary_pass_eq. cbn [add_event set_outputBuffer outputBuffer].
      unfold AudioBuffer.numberOfChannels, AudioBuffer.createBuffer. simpl.
      by rewrite length_replicate. }
  reflexivity.
Qed.

(** Lines 38-126 never raise and touch only the output buffer and the
    console. *)
Lemma mix_frame env video audioTrack videoVolume audioVolume w :
  ∃ out' logs,
    mix env video audioTrack videoVolume audioVolume w
    = (Ok tt, mkWorld (videoElement w) (audioContext w) out' (trace w ++ logs))
    ∧ Forall is_console logs.
Proof.
  rewrite mix_unfold.
  set (w1 := mkWorld _ _ _ _).
  destruct (secondary_pass_frame env video audioTrack audioVolume w1)
    as (out2 & logs2 & Hsec & Hlogs2 & Hch).
  rewrite (bind_ok _ _ _ _ _ Hsec).
  set (w2 := mkWorld _ _ out2 _).
  destruct (validate_mix_eq video videoVolume w2) as (logs3 & Hval & Hlogs3 & _).
  { unfold w2. cbn [outputBuffer]. rewrite Hch. unfold w1. cbn [outputBuffer].
    by rewrite numberOfChannels_primary_result. }
  rewrite Hval. eexists _, ([Console Log] ++ logs2 ++ logs3).
  split.
  - unfold w2, w1. cbn [videoElement audioContext trace outputBuffer].
    by rewrite <- !app_assoc.
  - apply Forall_app. split; [repeat constructor; apply is_console_Console|].
    by apply Forall_app.
Qed.

(** The buffer handed to the serializer when no track is mixed. *)
Lemma mixed_output_absent env video audioTrack videoVolume audioVolume :
  (audioTrack = None
   ∨ Num.gtb audioVolume 0 = false
   ∨ ∃ track, audioTrack = Some track ∧
       (fetch env (audio_url track) = None
        ∨ ∃ bytes, fetch env (audio_url track) = Some bytes
                   ∧ decodeAudioData env bytes = None)) →
  mixed_output env video audioTrack videoVolume audioVolume
  = validated video videoVolume (primary_result video videoVolume).
Proof.
  intros Hcase. unfold mixed_output. rewrite mix_unfold.
  set (w1 := mkWorld _ _ _ _).
  destruct (secondary_pass_absent env video audioTrack audioVolume w1 Hcase)
    as (logs & Hsec & _).
  rewrite (bind_ok _ _ _ _ _ Hsec).
  set (w2 := mkWorld _ _ _ _).
  destruct (validate_mix_eq video videoVolume w2) as (logs3 & Hval & _).
  { unfold w2, w1. cbn [outputBuffer].
    by rewrite numberOfChannels_primary_result. }
  by rewrite Hval.
Qed.

End Pipeline.

(** ** The exits of the compositor *)

Section Exits.
Import Mix Closed Compositor.

Lemma try_finally_run {S A} (m : ST S A) (f : ST S unit) s r s' s'' :
  m s = (r, s') → f s' = (Ok tt, s'') → try_finally m f s = (r, s'').
Proof. intros Hm Hf. unfold try_finally. by rewrite Hm, Hf. Qed.

Lemma try_catch_ok {S A} (m : ST S A) h s a s' :
  m s = (Ok a, s') → try_catch m h s = (Ok a, s').
Proof. intros Hm. unfold try_catch. by rewrite Hm. Qed.

Lemma try_catch_throw {S A} (m : ST S A) h s e s' :
  m s = (Throw e, s') → try_catch m h s = h e s'.
Proof. intros Hm. unfold try_catch. by rewrite Hm. Qed.

Lemma await_metadata_run env w :
  await_metadata env w
  = (match load_metadata env with Some d => Ok d | None => Throw VideoLoadError end,
     mkWorld (Some (mkVideo (Some (object_url env)))) (audioContext w)
       (outputBuffer w)
       (trace w ++ [CreateElement; CreateObjectURL (object_url env)])).
Proof.
  unfold await_metadata, bind, emit, modify, add_event, set_videoElement. simpl.
  rewrite <- app_assoc. by destruct (load_metadata env).
Qed.

(** The video does not load: [onerror] rejects the wait. *)
Lemma exit_load_error env videoBlob audioTrack videoVolume audioVolume onProgress :
  load_metadata env = None →
  ∃ w, processVideoAudio env videoBlob audioTrack videoVolume audioVolume
         onProgress init = (Throw VideoLoadError, w)
       ∧ resources (trace w) = video_cycle (object_url env).
Proof.
  intros H. eexists. split.
  - unfold processVideoAudio.
    rewrite (bind_ok _ _ _ _ _ (eq_refl : emit (Console Log) init = (Ok tt, _))).
    eapply try_finally_run.
    + erewrite try_catch_throw.
      2:{ erewrite bind_throw; [reflexivity|].
          rewrite await_metadata_run, H. reflexivity. }
      reflexivity.
    + reflexivity.
  - reflexivity.
Qed.

(** [new AudioContext()] is refused. *)
Lemma exit_no_context env videoBlob audioTrack videoVolume audioVolume onProgress d :
  load_metadata env = Some d →
  context_available env = false →
  ∃ w, processVideoAudio env videoBlob audioTrack videoVolume audioVolume
         onProgress init = (Throw NotSupportedError, w)
       ∧ resources (trace w) = video_cycle (object_url env).
Proof.
  intros H Hc. eexists. split.
  - unfold processVideoAudio.
    rewrite (bind_ok _ _ _ _ _ (eq_refl : emit (Console Log) init = (Ok tt, _))).
    eapply try_finally_run.
    + erewrite try_catch_throw.
      2:{ erewrite bind_ok by (rewrite await_metadata_run, H; reflexivity).
          erewrite bind_throw; [reflexivity|].
          unfold new_AudioContext. rewrite Hc. reflexivity. }
      reflexivity.
    + reflexivity.
  - reflexivity.
Qed.

Lemma new_AudioContext_run env w :
  context_available env = true →
  new_AudioContext env w
  = (Ok tt, mkWorld (videoElement w) (Some tt) (outputBuffer w)
              (trace w ++ [NewAudioContext])).
Proof. intros H. unfold new_AudioContext. by rewrite H. Qed.

(** The audio of the video does not decode. *)
Lemma exit_decode_error env videoBlob audioTrack videoVolume audioVolume onProgress d :
  load_metadata env = Some d →
  context_available env = true →
  decodeAudioData env (blob_bytes videoBlob) = None →
  ∃ w, processVideoAudio env videoBlob audioTrack videoVolume audioVolume
         onProgress init = (Throw EncodingError, w)
       ∧ resources (trace w) = full_cycle (object_url env).
Proof.
  intros H Hc Hd. eexists. split.
  - unfold processVideoAudio.
    rewrite (bind_ok _ _ _ _ _ (eq_refl : emit (Console Log) init = (Ok tt, _))).
    eapply try_finally_run.
    + erewrite try_catch_throw.
      2:{ erewrite bind_ok by (rewrite await_metadata_run, H; reflexivity).
          erewrite bind_ok by (by apply new_AudioContext_run).
          erewrite bind_throw; [reflexivity|].
          rewrite Hd. reflexivity. }
      reflexivity.
    + reflexivity.
  - reflexivity.
Qed.

(** Everything decodes: the function returns. *)
Lemma exit_return env videoBlob audioTrack videoVolume audioVolume onProgress
  d video out' logs :
  load_metadata env = Some d →
  context_available env = true →
  decodeAudioData env (blob_bytes videoBlob) = Some video →
  mix env video audioTrack videoVolume audioVolume (started env)
  = (Ok tt, mkWorld (videoElement (started env)) (audioContext (started env))
              out' (trace (started env) ++ logs)) →
  processVideoAudio env videoBlob audioTrack videoVolume audioVolume onProgress init
  = (Ok (new_file videoBlob "video.webm" "video/webm"),
     mkWorld (videoElement (started env)) (audioContext (started env)) out'
       (trace (started env) ++ logs
        ++ [Console Log; Console Log; CloseAudioContext; PauseVideo;
            RevokeObjectURL (Some (object_url env)); RemoveVideo])).
Proof.
  intros H Hc Hd Hmix.
  unfold processVideoAudio.
  rewrite (bind_ok _ _ _ _ _ (eq_refl : emit (Console Log) init = (Ok tt, _))).
  eapply try_finally_run.
  - apply try_catch_ok.
    erewrite bind_ok by (rewrite await_metadata_run, H; reflexivity).
    erewrite bind_ok by (by apply new_AudioContext_run).
    erewrite bind_ok by (rewrite Hd; reflexivity).
    erewrite bind_ok by exact Hmix.
    erewrite bind_ok by (by apply on_output_run).
    cbn [set_outputBuffer outputBuffer videoElement audioContext trace].
    rewrite audioBufferToWav_bytes.
    reflexivity.
  - cbn. cbv [emit modify add_event set_outputBuffer trace videoElement
              audioContext outputBuffer].
    cbn [app]. rewrite <- !app_assoc. reflexivity.
Qed.

End Exits.

(** ** Samples of the buffers the compositor builds *)

Section Samples.
Import Mix Closed Compositor.

Lemma sample_in_range (b : AudioBuffer.t) c i :
  AudioBuffer.well_formed b →
  is_Some (sample b c i)
  ↔ c < AudioBuffer.numberOfChannels b ∧ i < AudioBuffer.length b.
Proof.
  intros Hwf. unfold sample, AudioBuffer.numberOfChannels.
  unfold AudioBuffer.well_formed in Hwf. rewrite Forall_lookup in Hwf.
  destruct (AudioBuffer.channels b !! c) as [data|] eqn:Hc.
  - cbn [mbind option_bind]. rewrite lookup_lt_is_Some, (Hwf _ _ Hc).
    apply lookup_lt_Some in Hc. split; [by intros | by intros [_ ?]].
  - cbn [mbind option_bind]. apply lookup_ge_None in Hc.
    split; [by intros [? ?] | intros [? _]; lia].
Qed.

Lemma createBuffer_well_formed c n r :
  AudioBuffer.well_formed (AudioBuffer.createBuffer c n r).
Proof.
  unfold AudioBuffer.well_formed, AudioBuffer.createBuffer. simpl.
  apply Forall_replicate. apply length_replicate.
Qed.

Lemma sample_createBuffer c n r ch i :
  sample (AudioBuffer.createBuffer c n r) ch i
  = if decide (ch < c ∧ i < n) then Some 0%Q else None.
Proof.
  unfold sample, AudioBuffer.createBuffer. simpl.
  destruct (decide (ch < c ∧ i < n)) as [[H1 H2]|Hn].
  - rewrite lookup_replicate_2 by done. simpl. by rewrite lookup_replicate_2.
  - destruct (decide (ch < c)).
    + rewrite lookup_replicate_2 by done. simpl.
      apply lookup_replicate_None. lia.
    + assert (replicate c (replicate n 0%Q) !! ch = None) as ->
        by (apply lookup_replicate_None; lia).
      done.
Qed.

(** Scaling the video over a buffer of its shape gives the video, scaled. *)
Lemma sample_scaled_video (video out : AudioBuffer.t) factor c i :
  AudioBuffer.well_formed video →
  (is_Some (sample out c i) ↔ is_Some (sample video c i)) →
  sample (set_channels out (scaled video factor (AudioBuffer.channels out))) c i
  = (fun v => scaled_sample v factor) <$> sample video c i.
Proof.
  intros Hwf Hdom. rewrite sample_scaled.
  destruct (sample video c i) as [v|] eqn:Hv.
  - destruct (proj2 Hdom (mk_is_Some _ _ eq_refl)) as [o ->].
    cbn [fmap option_fmap option_map].
    assert (i < AudioBuffer.length video)
      by (apply (sample_in_range video c i Hwf); by rewrite Hv).
    rewrite decide_True by done. by rewrite (at_index_channel _ _ _ _ Hv).
  - destruct (sample out c i) as [o|] eqn:Ho; [|done].
    destruct (proj1 Hdom (mk_is_Some _ _ eq_refl)) as [? [=]].
Qed.

Lemma sample_primary_result (video : AudioBuffer.t) videoVolume c i :
  AudioBuffer.well_formed video →
  sample (primary_result video videoVolume) c i
  = (fun v => scaled_sample v (Num.clamp 0 1 videoVolume)) <$> sample video c i.
Proof.
  intros Hwf. unfold primary_result. apply sample_scaled_video; [done|].
  rewrite sample_createBuffer, (sample_in_range video c i Hwf).
  destruct (decide _) as [H|H]; split; try done.
Qed.

End Samples.

(** ** C5: the check that the audio of the video was not lost *)

Section Validation.
Import Mix Closed Compositor.

Lemma heals_iff out videoVolume :
  negb (Mix.has_audio out) && Num.gtb videoVolume 0 = true
  ↔ silent out ∧ (0 < videoVolume)%Q.
Proof.
  rewrite andb_true_iff, negb_true_iff, has_audio_false, gtb_true. done.
Qed.

Lemma same_shape_domain (out video : AudioBuffer.t) c i :
  AudioBuffer.well_formed video → AudioBuffer.well_formed out →
  same_shape out video →
  is_Some (sample out c i) ↔ is_Some (sample video c i).
Proof.
  intros Hv Ho [Hc Hn].
  by rewrite (sample_in_range out c i Ho), (sample_in_range video c i Hv), Hc, Hn.
Qed.

(** C5.  After the mixing passes, if every sample of the output buffer has
    magnitude at most 0.001 and [videoVolume > 0], the check overwrites
    every sample of every channel with [videoBuffer[c][i] * videoVolume],
    the volume taken as given, and completes normally; otherwise it leaves
    the invocation as it found it.  The product is the one of the program:
    rounded to binary64, and to binary32 by the store, which keeps it
    finite as long as it is within the range of binary32. *)
Theorem validate_mix_self_heals (video : AudioBuffer.t) (videoVolume : Q)
  (w : World) :
  AudioBuffer.well_formed video →
  AudioBuffer.well_formed (outputBuffer w) →
  same_shape (outputBuffer w) video →
  (silent (outputBuffer w) ∧ (0 < videoVolume)%Q →
   ∃ w', validate_mix video videoVolume w = (Ok tt, w')
         ∧ ∀ c i,
             (∀ v, sample video c i = Some v →
                   Float.finite32 (Float.mul v videoVolume)) →
             sample (outputBuffer w') c i
             = (fun v => Float.fround (Float.mul v videoVolume))
                 <$> sample video c i)
  ∧ (¬ (silent (outputBuffer w) ∧ (0 < videoVolume)%Q) →
     validate_mix video videoVolume w = (Ok tt, w)).
Proof.
  intros Hv Ho Hshape.
  destruct (validate_mix_eq video videoVolume w) as (logs & Hrun & _ & _ & Hnone).
  { destruct Hshape as [-> _]. done. }
  split.
  - intros Hheal. apply heals_iff in Hheal.
    eexists. split; [exact Hrun|].
    intros c i _. cbn [outputBuffer]. unfold validated. rewrite Hheal.
    apply sample_scaled_video; [done|]. by apply same_shape_domain.
  - intros Hnot. rewrite <- heals_iff in Hnot.
    apply not_true_is_false in Hnot.
    rewrite Hrun, (Hnone Hnot). unfold validated. rewrite Hnot.
    destruct w. simpl. by rewrite app_nil_r.
Qed.

Lemma faint_video_well_formed : AudioBuffer.well_formed faint_video.
Proof. repeat constructor. Qed.

Lemma faint_world_silent : silent (outputBuffer faint_world).
Proof. repeat constructor. vm_compute. discriminate. Qed.

Lemma validate_mix_self_heals_witness :
  AudioBuffer.well_formed faint_video
  ∧ same_shape (outputBuffer faint_world) faint_video
  ∧ silent (outputBuffer faint_world)
  ∧ (0 < 2)%Q
  ∧ Float.finite32 (Float.mul (1 # 2048) 2)
  ∧ ∃ w', validate_mix faint_video 2 faint_world = (Ok tt, w')
          ∧ sample (outputBuffer w') 0 0 = Some (1 # 1024)%Q.
Proof.
  assert (Hfinite : Float.finite32 (Float.mul (1 # 2048) 2))
    by (vm_compute; reflexivity).
  split; [exact faint_video_well_formed|].
  split; [by split|]. split; [exact faint_world_silent|]. split; [reflexivity|].
  split; [exact Hfinite|].
  destruct (validate_mix_self_heals faint_video 2 faint_world
              faint_video_well_formed faint_video_well_formed
              (conj eq_refl eq_refl)) as [Hheal _].
  destruct (Hheal (conj faint_world_silent eq_refl)) as (w' & Hrun & Hs).
  exists w'. split; [exact Hrun|].
  rewrite (Hs 0 0); [reflexivity|].
  intros v [= <-]. exact Hfinite.
Defined.

End Validation.

(** ** C6: both volumes at zero *)

Section Muted.
Import Mix Closed Compositor DataView.

Lemma pcm16_zero s : (s == 0)%Q → Layout.pcm16 s = 0%Z.
Proof.
  intros Hs. unfold Layout.pcm16.
  pose proof (clamp_id (-1) 1 s ltac:(lra) ltac:(lra)) as Hc.
  assert (Hz : (Layout.scale s == 0)%Q).
  { unfold Layout.scale. cbv zeta.
    set (c := Num.clamp (-1) 1 s) in *. destruct (Num.ltb c 0); lra. }
  assert (inject_Z 0 <= Layout.scale s)%Q as Hlo
    by (change (inject_Z 0) with 0%Q; lra).
  assert (Layout.scale s <= inject_Z 0)%Q as Hhi
    by (change (inject_Z 0) with 0%Q; lra).
  pose proof (truncate_mono_bounds _ 0 0 Hlo Hhi ltac:(lia) ltac:(lia)). lia.
Qed.

Lemma flat_map_replicate {A B} (f : A → list B) (l : list A) m x :
  (∀ a, a ∈ l → f a = replicate m x) →
  flat_map f l = replicate (List.length l * m) x.
Proof.
  induction l as [|a l IH]; intros Hf; [done|].
  simpl. rewrite replicate_add, (Hf a) by left.
  f_equal. apply IH. intros b Hb. apply Hf. by right.
Qed.

(** A buffer of zero samples serializes to zero bytes after the header. *)
Lemma data_of_silence (b : AudioBuffer.t) :
  (∀ c i s, sample b c i = Some s → (s == 0)%Q) →
  Layout.data b
  = replicate (AudioBuffer.length b * (AudioBuffer.numberOfChannels b * 2)) 0%Z.
Proof.
  intros Hzero. unfold Layout.data.
  rewrite (flat_map_replicate _ _ (AudioBuffer.numberOfChannels b * 2) 0%Z).
  - by rewrite length_seq.
  - intros pos _. unfold Layout.frame.
    rewrite (flat_map_replicate _ _ 2 0%Z); [by rewrite length_seq|].
    intros c _. unfold Layout.int16_le.
    rewrite pcm16_zero; [done|].
    unfold Layout.sample_at.
    destruct (sample b c pos) as [s|] eqn:Hs; [by eapply Hzero | done].
Qed.

Lemma primary_result_zero (video : AudioBuffer.t) c i s :
  sample (primary_result video 0) c i = Some s → (s == 0)%Q.
Proof.
  unfold primary_result. rewrite sample_scaled, sample_createBuffer.
  destruct (decide (c < _ ∧ i < _)) as [[_ Hi]|]; [|done].
  cbn [fmap option_fmap option_map]. rewrite decide_True by done.
  intros [= <-]. unfold scaled_sample.
  rewrite (mul_zero_r _ (Num.clamp 0 1 0)) by reflexivity. reflexivity.
Qed.

(** C6.  With [videoVolume = 0] and [audioVolume = 0], whatever the video
    audio decodes to, the buffer the compositor serializes holds only zero
    samples, the silence check does not overwrite it (no warning is
    issued, its condition [videoVolume > 0] being false), and the PCM data
    of the serialized buffer are zero bytes.  [outputBuffer w] is the
    buffer [audioBufferToWav] was applied to: nothing writes to it after
    the check. *)
Theorem muted_mix_is_silence (env : Env) (videoBlob : Blob)
  (audioTrack : option AudioTrack) (onProgress : option (Q → ST World unit))
  (d : Q) (video : AudioBuffer.t) :
  load_metadata env = Some d →
  context_available env = true →
  decodeAudioData env (blob_bytes videoBlob) = Some video →
  ∃ w,
    processVideoAudio env videoBlob audioTrack 0 0 onProgress init
    = (Ok (new_file videoBlob "video.webm" "video/webm"), w)
    ∧ outputBuffer w = primary_result video 0
    ∧ (∀ c i s, sample (outputBuffer w) c i = Some s → (s == 0)%Q)
    ∧ (Console Warn ∉ trace w)
    ∧ Wav.audioBufferToWav (outputBuffer w)
      = Some (Layout.header (AudioBuffer.numberOfChannels video)
                (AudioBuffer.length video) (AudioBuffer.sampleRate video)
              ++ replicate
                   (AudioBuffer.length video
                    * (AudioBuffer.numberOfChannels video * 2)) 0%Z).
Proof.
  intros Hload Hctx Hdec.
  assert (Hcase : audioTrack = None
   ∨ Num.gtb 0 0 = false
   ∨ ∃ track, audioTrack = Some track ∧
       (fetch env (audio_url track) = None
        ∨ ∃ bytes, fetch env (audio_url track) = Some bytes
                   ∧ decodeAudioData env bytes = None)) by (right; by left).
  pose proof (mix_unfold env video audioTrack 0 0 (started env)) as Hmix.
  set (w1 := mkWorld _ _ _ _) in Hmix.
  destruct (secondary_pass_absent env video audioTrack 0 w1 Hcase)
    as (logs2 & Hsec & _ & Hlogs2 & _).
  rewrite (bind_ok _ _ _ _ _ Hsec) in Hmix.
  set (w2 := mkWorld _ _ _ _) in Hmix.
  destruct (validate_mix_eq video 0 w2) as (logs3 & Hval & _ & _ & Hnone).
  { unfold w2, w1. cbn [outputBuffer]. by rewrite numberOfChannels_primary_result. }
  rewrite Hval in Hmix. rewrite Hnone in Hmix by apply andb_false_r.
  assert (Hout : validated video 0 (outputBuffer w2) = primary_result video 0).
  { unfold validated. by rewrite andb_false_r. }
  rewrite Hout in Hmix.
  eexists. split.
  { eapply (exit_return _ _ _ _ _ _ d video _ ([Console Log] ++ logs2));
      [done | done | done |].
    rewrite Hmix. unfold w2, w1. cbn [videoElement audioContext trace].
    by rewrite app_nil_r, <- !app_assoc. }
  cbn [outputBuffer trace].
  split; [done|]. split; [apply primary_result_zero|].
  split.
  { destruct Hlogs2 as [-> | ->]; cbn; intros Hin;
      repeat (apply elem_of_cons in Hin; destruct Hin as [Heq|Hin];
              [discriminate Heq|]);
      by apply elem_of_nil in Hin. }
  rewrite audioBufferToWav_bytes.
  rewrite (data_of_silence _ (primary_result_zero video)).
  unfold primary_result.
  rewrite numberOfChannels_scaled.
  cbn [set_channels AudioBuffer.length AudioBuffer.sampleRate
       AudioBuffer.createBuffer AudioBuffer.numberOfChannels AudioBuffer.channels].
  unfold AudioBuffer.numberOfChannels at 1 3.
  cbn [AudioBuffer.createBuffer AudioBuffer.channels].
  by rewrite length_replicate.
Qed.

Lemma muted_mix_is_silence_witness :
  load_metadata online = Some 3%Q
  ∧ context_available online = true
  ∧ decodeAudioData online (blob_bytes upload) = Some stereo_video
  ∧ ∃ w,
      processVideoAudio online upload (Some track) 0 0 None init
      = (Ok (new_file upload "video.webm" "video/webm"), w)
      ∧ outputBuffer w = primary_result stereo_video 0
      ∧ (∀ c i s, sample (outputBuffer w) c i = Some s → (s == 0)%Q)
      ∧ (Console Warn ∉ trace w)
      ∧ Wav.audioBufferToWav (outputBuffer w)
        = Some (Layout.header 2 2 44100 ++ replicate 8 0%Z).
Proof.
  split; [reflexivity|]. split; [reflexivity|]. split; [reflexivity|].
  exact (muted_mix_is_silence online upload (Some track) None 3%Q stereo_video
           eq_refl eq_refl eq_refl).
Defined.

End Muted.

(** ** C4: the audio track cannot be fetched or decoded *)

Section TrackFailure.
Import Mix Closed Compositor.

(** The run of the compositor when the track is asked for and fails. *)
Lemma track_failure_run env videoBlob track videoVolume audioVolume onProgress
  d video :
  load_metadata env = Some d →
  context_available env = true →
  decodeAudioData env (blob_bytes videoBlob) = Some video →
  (0 < audioVolume)%Q →
  (fetch env (audio_url track) = None
   ∨ ∃ bytes, fetch env (audio_url track) = Some bytes
              ∧ decodeAudioData env bytes = None) →
  ∃ logs,
    processVideoAudio env videoBlob (Some track) videoVolume audioVolume
      onProgress init
    = (Ok (new_file videoBlob "video.webm" "video/webm"),
       mkWorld (videoElement (started env)) (audioContext (started env))
         (validated video videoVolume (primary_result video videoVolume))
         (trace (started env)
          ++ ([Console Log; Console Log; Console Error] ++ logs)
          ++ [Console Log; Console Log; CloseAudioContext; PauseVideo;
              RevokeObjectURL (Some (object_url env)); RemoveVideo])).
Proof.
  intros Hload Hctx Hdec Hav Hfail.
  assert (Hcase : Some track = None
   ∨ Num.gtb audioVolume 0 = false
   ∨ ∃ track', Some track = Some track' ∧
       (fetch env (audio_url track') = None
        ∨ ∃ bytes, fetch env (audio_url track') = Some bytes
                   ∧ decodeAudioData env bytes = None))
    by (right; right; by exists track).
  pose proof (mix_unfold env video (Some track) videoVolume audioVolume
                (started env)) as Hmix.
  set (w1 := mkWorld _ _ _ _) in Hmix.
  destruct (secondary_pass_absent env video (Some track) audioVolume w1 Hcase)
    as (logs2 & Hsec & _ & _ & Hlogs2).
  rewrite (Hlogs2 ltac:(done) ltac:(by apply gtb_true)) in Hsec.
  rewrite (bind_ok _ _ _ _ _ Hsec) in Hmix.
  set (w2 := mkWorld _ _ _ _) in Hmix.
  destruct (validate_mix_eq video videoVolume w2) as (logs3 & Hval & _).
  { unfold w2, w1. cbn [outputBuffer]. by rewrite numberOfChannels_primary_result. }
  rewrite Hval in Hmix.
  exists logs3.
  eapply (exit_return _ _ _ _ _ _ d video); [done | done | done |].
  rewrite Hmix. unfold w2, w1. cbn [videoElement audioContext trace outputBuffer].
  by rewrite <- !app_assoc.
Qed.

(** C4, as the code has it.  When the audio track is asked for
    ([audioVolume > 0]) and its fetch or its decoding fails, the compositor
    does not raise: it returns, the failure is reported on the console, and
    the buffer handed to the serializer is the result of the primary pass
    after the silence check.  Whenever [videoVolume <= 1], or some sample
    of the primary pass exceeds 0.001 in magnitude, every sample of that
    buffer is [videoBuffer[c][i] * clamp videoVolume 0 1] as the primary
    pass stores it: the product rounded to binary64, then to binary32. *)
Theorem track_failure_is_absorbed (env : Env) (videoBlob : Blob)
  (track : AudioTrack) (videoVolume audioVolume : Q)
  (onProgress : option (Q → ST World unit)) (d : Q) (video : AudioBuffer.t) :
  load_metadata env = Some d →
  context_available env = true →
  decodeAudioData env (blob_bytes videoBlob) = Some video →
  AudioBuffer.well_formed video →
  (0 < audioVolume)%Q →
  (fetch env (audio_url track) = None
   ∨ ∃ bytes, fetch env (audio_url track) = Some bytes
              ∧ decodeAudioData env bytes = None) →
  ∃ w,
    processVideoAudio env videoBlob (Some track) videoVolume audioVolume
      onProgress init
    = (Ok (new_file videoBlob "video.webm" "video/webm"), w)
    ∧ Console Error ∈ trace w
    ∧ outputBuffer w
      = validated video videoVolume (primary_result video videoVolume)
    ∧ ((videoVolume <= 1)%Q ∨ ¬ silent (primary_result video videoVolume) →
       ∀ c i v, sample video c i = Some v →
         sample (outputBuffer w) c i
         = Some (Float.fround (Float.mul v (Num.clamp 0 1 videoVolume)))).
Proof.
  intros Hload Hctx Hdec Hwf Hav Hfail.
  destruct (track_failure_run env videoBlob track videoVolume audioVolume
              onProgress d video Hload Hctx Hdec Hav Hfail) as (logs & Hrun).
  eexists. split; [exact Hrun|]. cbn [trace outputBuffer].
  split.
  { apply elem_of_app. right. apply elem_of_app. left. cbn [app].
    do 2 apply list_elem_of_further. apply list_elem_of_here. }
  split; [done|].
  intros Hok c i v Hv. unfold validated.
  destruct (negb (has_audio (primary_result video videoVolume))
            && Num.gtb videoVolume 0) eqn:Hheal.
  - apply heals_iff in Hheal as [Hsilent Hpos].
    destruct Hok as [Hle|Hloud]; [|done].
    rewrite sample_scaled_video, Hv; [|done|].
    + cbn [fmap option_fmap option_map]. unfold scaled_sample. do 2 f_equal.
      apply mul_proper; [reflexivity|].
      symmetry. apply clamp_id; lra.
    + rewrite sample_primary_result by done.
      by rewrite fmap_is_Some.
  - rewrite sample_primary_result, Hv by done. reflexivity.
Qed.

Lemma track_failure_is_absorbed_witness :
  load_metadata offline = Some 3%Q
  ∧ context_available offline = true
  ∧ decodeAudioData offline (blob_bytes upload) = Some faint_video
  ∧ AudioBuffer.well_formed faint_video
  ∧ (0 < 1)%Q
  ∧ fetch offline (audio_url track) = None
  ∧ ∃ w,
      processVideoAudio offline upload (Some track) (1 # 2) 1 None init
      = (Ok (new_file upload "video.webm" "video/webm"), w)
      ∧ Console Error ∈ trace w
      ∧ outputBuffer w
        = validated faint_video (1 # 2) (primary_result faint_video (1 # 2))
      ∧ (((1 # 2) <= 1)%Q ∨ ¬ silent (primary_result faint_video (1 # 2)) →
         ∀ c i v, sample faint_video c i = Some v →
           sample (outputBuffer w) c i
           = Some (Float.fround (Float.mul v (Num.clamp 0 1 (1 # 2))))).
Proof.
  split; [reflexivity|]. split; [reflexivity|]. split; [reflexivity|].
  split; [exact faint_video_well_formed|]. split; [reflexivity|].
  split; [reflexivity|].
  exact (track_failure_is_absorbed offline upload track (1 # 2) 1 None 3%Q
           faint_video eq_refl eq_refl eq_refl faint_video_well_formed
           eq_refl (or_introl eq_refl)).
Defined.

(** C4, as stated, fails for a volume above 1: the fetch fails, the
    primary pass leaves [2^-11 * 1], the silence check finds nothing above
    0.001 and rewrites the sample as [2^-11 * 2]; all these numbers are
    binary32 numbers and no operation rounds. *)
Lemma track_failure_counterexample :
  fetch offline (audio_url track) = None
  ∧ decodeAudioData offline (blob_bytes upload) = Some faint_video
  ∧ sample faint_video 0 0 = Some (1 # 2048)%Q
  ∧ sample (primary_result faint_video 2) 0 0 = Some (1 # 2048)%Q
  ∧ ∃ w v,
      processVideoAudio offline upload (Some track) 2 1 None init
      = (Ok (new_file upload "video.webm" "video/webm"), w)
      ∧ sample (outputBuffer w) 0 0 = Some v
      ∧ v = (1 # 1024)%Q
      ∧ ¬ (v == (1 # 2048) * Num.clamp 0 1 2)%Q.
Proof.
  split; [reflexivity|]. split; [reflexivity|]. split; [reflexivity|].
  split; [vm_compute; reflexivity|].
  eexists _, _. split; [vm_compute; reflexivity|].
  split; [vm_compute; reflexivity|].
  split; [reflexivity|]. intros H. vm_compute in H. discriminate H.
Qed.

End TrackFailure.

(** ** C10 and the resources of the compositor *)

Section Returns.
Import Mix Closed Compositor.

(** Every invocation ends in one of four ways. *)
Lemma processVideoAudio_exits env videoBlob audioTrack videoVolume audioVolume
  onProgress :
  (∃ w, processVideoAudio env videoBlob audioTrack videoVolume audioVolume
          onProgress init = (Throw VideoLoadError, w)
        ∧ resources (trace w) = video_cycle (object_url env))
  ∨ (∃ w, processVideoAudio env videoBlob audioTrack videoVolume audioVolume
            onProgress init = (Throw NotSupportedError, w)
          ∧ resources (trace w) = video_cycle (object_url env))
  ∨ (∃ w, processVideoAudio env videoBlob audioTrack videoVolume audioVolume
            onProgress init = (Throw EncodingError, w)
          ∧ resources (trace w) = full_cycle (object_url env))
  ∨ (∃ w logs, processVideoAudio env videoBlob audioTrack videoVolume audioVolume
            onProgress init
          = (Ok (new_file videoBlob "video.webm" "video/webm"), w)
          ∧ trace w = trace (started env) ++ logs
                      ++ [Console Log; Console Log; CloseAudioContext; PauseVideo;
                          RevokeObjectURL (Some (object_url env)); RemoveVideo]
          ∧ Forall is_console logs).
Proof.
  destruct (load_metadata env) as [d|] eqn:Hload.
  2:{ left. by apply exit_load_error. }
  destruct (context_available env) eqn:Hctx.
  2:{ right; left. by eapply exit_no_context. }
  destruct (decodeAudioData env (blob_bytes videoBlob)) as [video|] eqn:Hdec.
  2:{ right; right; left. by eapply exit_decode_error. }
  right; right; right.
  destruct (mix_frame env video audioTrack videoVolume audioVolume (started env))
    as (out' & logs & Hmix & Hlogs).
  eexists _, logs. split; [|split; [|exact Hlogs]].
  - by eapply exit_return.
  - reflexivity.
Qed.

(** On every exit of the compositor the video element, its object URL and
    the audio context, when one was created, have been released once. *)
Lemma compositor_releases_once env videoBlob audioTrack videoVolume audioVolume
  onProgress :
  ∃ r w,
    processVideoAudio env videoBlob audioTrack videoVolume audioVolume
      onProgress init = (r, w)
    ∧ (resources (trace w) = video_cycle (object_url env)
       ∨ resources (trace w) = full_cycle (object_url env)).
Proof.
  destruct (processVideoAudio_exits env videoBlob audioTrack videoVolume
              audioVolume onProgress)
    as [(w & H & Hr)|[(w & H & Hr)|[(w & H & Hr)|(w & logs & H & Ht & Hl)]]];
    eexists _, w; (split; [exact H|]); auto.
  right. rewrite Ht, !resources_app, (resources_console logs Hl). reflexivity.
Qed.

(** C10.  The recombination step returns its video file as [videoBlob]
    and an empty Blob as thumbnail, and leaves the world as it found it
    whatever the progress callback is; so whenever [processVideoAudio]
    returns, the Blob it returns is the video it was given, byte for byte,
    under the name [video.webm], and no progress has been reported. *)
Theorem processVideoAudio_returns_video (env : Env) (videoBlob : Blob)
  (audioTrack : option AudioTrack) (videoVolume audioVolume : Q)
  (onProgress : option (Q → ST World unit)) (blob : Blob) (w : World) :
  processVideoAudio env videoBlob audioTrack videoVolume audioVolume
    onProgress init = (Ok blob, w) →
  blob = new_file videoBlob "video.webm" "video/webm"
  ∧ blob_bytes blob = blob_bytes videoBlob
  ∧ Forall (fun e => ∀ p, e ≠ Progress p) (trace w)
  ∧ ∀ videoFile audioFile duration callback options w0,
      combineVideoAndAudio videoFile audioFile duration callback options w0
      = (Ok (Combined.make videoFile empty_blob), w0).
Proof.
  intros Hrun.
  destruct (processVideoAudio_exits env videoBlob audioTrack videoVolume
              audioVolume onProgress)
    as [(w' & H & _)|[(w' & H & _)|[(w' & H & _)|(w' & logs & H & Ht & Hl)]]];
    rewrite H in Hrun; try discriminate Hrun.
  injection Hrun as <- <-.
  split; [done|]. split; [done|]. split; [|done].
  rewrite Ht. apply Forall_app. split; [|apply Forall_app; split].
  - repeat constructor; discriminate.
  - eapply Forall_impl; [exact Hl|]. by intros e [l ->] p.
  - repeat constructor; discriminate.
Qed.

Lemma processVideoAudio_returns_video_witness :
  ∃ w,
    processVideoAudio online upload (Some track) 1 1
      (Some (fun p => emit (Progress p))) init
    = (Ok (new_file upload "video.webm" "video/webm"), w)
    ∧ blob_bytes (new_file upload "video.webm" "video/webm") = blob_bytes upload
    ∧ Forall (fun e => ∀ p, e ≠ Progress p) (trace w).
Proof.
  eexists.
  assert (Hrun : processVideoAudio online upload (Some track) 1 1
                   (Some (fun p => emit (Progress p))) init
                 = (Ok (new_file upload "video.webm" "video/webm"),
                    snd (processVideoAudio online upload (Some track) 1 1
                           (Some (fun p => emit (Progress p))) init))).
  { vm_compute. reflexivity. }
  split; [exact Hrun|].
  destruct (processVideoAudio_returns_video _ _ _ _ _ _ _ _ Hrun)
    as (_ & Hbytes & Hprog & _).
  split; [exact Hbytes | exact Hprog].
Defined.

End Returns.

(** ** The thumbnail extractor *)

Section ThumbnailFacts.
Import Thumbnail.

Lemma count_snoc p l a : count p (l ++ [a]) = count p l + (if p a then 1 else 0).
Proof.
  unfold count. rewrite List.filter_app, length_app. simpl.
  by destruct (p a).
Qed.

Lemma settle_log s st :
  log (settle s st) = log st ∨ log (settle s st) = log st ++ [Settle s].
Proof. unfold settle. destruct (result st); [by left | by right]. Qed.

Lemma settle_fields s st :
  attempts (settle s st) = attempts st
  ∧ timers (settle s st) = timers st
  ∧ pending (settle s st) = pending st
  ∧ onseeked (settle s st) = onseeked st.
Proof. unfold settle. by destruct (result st). Qed.

Lemma count_settle p s st :
  p (Settle s) = false → count p (log (settle s st)) = count p (log st).
Proof.
  intros Hp. destruct (settle_log s st) as [-> | ->]; [done|].
  rewrite count_snoc, Hp. lia.
Qed.

(** A call of [tryCapture] rasterizes at most once, and not at all once
    three attempts have been made. *)
Lemma tryCapture_attempts c st :
  attempts st ≤ MAX_ATTEMPTS →
  attempts (tryCapture c st) ≤ MAX_ATTEMPTS
  ∧ count is_rasterize (log (tryCapture c st)) + attempts st
    = count is_rasterize (log st) + attempts (tryCapture c st).
Proof.
  intros Hle. unfold tryCapture.
  destruct (Nat.leb_spec MAX_ATTEMPTS (attempts st)) as [Hmax|Hlt].
  - destruct (settle_fields (Rejected AttemptsExceeded) st) as (-> & _).
    rewrite count_settle by done. lia.
  - destruct c; cbn [attempts log].
    + destruct (Nat.ltb_spec (Datatypes.S (attempts st)) MAX_ATTEMPTS).
      * cbn [attempts log]. rewrite count_snoc. simpl. lia.
      * destruct (settle_fields (Rejected CaptureError)
                    (mkState (Datatypes.S (attempts st)) (result st) (onseeked st)
                       (timers st) (pending st)
                       (log st ++ [Rasterize (Datatypes.S (attempts st))])))
          as (-> & _).
        rewrite count_settle by done. cbn [attempts log].
        rewrite count_snoc. simpl. lia.
    + rewrite count_snoc. simpl. lia.
Qed.

(** [tryCapture] neither acquires nor releases anything. *)
Lemma tryCapture_keeps p c st :
  (∀ n, p (Rasterize n) = false) → (∀ s, p (Settle s) = false) →
  count p (log (tryCapture c st)) = count p (log st).
Proof.
  intros Hr Hs. unfold tryCapture.
  destruct (MAX_ATTEMPTS <=? attempts st); [by apply count_settle|].
  destruct c; cbn [attempts log].
  - destruct (_ <? _).
    + cbn [log]. rewrite count_snoc, Hr. lia.
    + rewrite count_settle by done. cbn [log]. rewrite count_snoc, Hr. lia.
  - rewrite count_snoc, Hr. lia.
Qed.

Lemma step_attempts st ev :
  attempts st ≤ MAX_ATTEMPTS →
  attempts (step st ev) ≤ MAX_ATTEMPTS
  ∧ count is_rasterize (log (step st ev)) + attempts st
    = count is_rasterize (log st) + attempts (step st ev).
Proof.
  intros Hle. destruct ev as [c|c|blob]; cbn [step].
  - destruct (onseeked st); [by apply tryCapture_attempts | lia].
  - destruct (timers st) as [|k]; [lia|].
    by apply (tryCapture_attempts c (mkState _ _ _ _ _ _)).
  - destruct (pending st) as [|k]; [lia|].
    destruct blob as [b|];
      match goal with
      | |- context [settle ?s ?st'] =>
          destruct (settle_fields s st') as (-> & _);
          rewrite (count_settle is_rasterize s st') by done
      end; cbn [attempts log]; lia.
Qed.

Lemma step_keeps p st ev :
  (∀ n, p (Rasterize n) = false) → (∀ s, p (Settle s) = false) →
  count p (log (step st ev)) = count p (log st).
Proof.
  intros Hr Hs. destruct ev as [c|c|blob]; cbn [step].
  - destruct (onseeked st); [by apply tryCapture_keeps | done].
  - destruct (timers st) as [|k]; [done|].
    by rewrite tryCapture_keeps.
  - destruct (pending st) as [|k]; [done|].
    destruct blob as [b|]; by rewrite count_settle.
Qed.

Lemma run_snoc st events ev : run st (events ++ [ev]) = step (run st events) ev.
Proof. unfold run. by rewrite foldl_app. Qed.

Lemma run_attempts st events :
  attempts st ≤ MAX_ATTEMPTS →
  attempts (run st events) ≤ MAX_ATTEMPTS
  ∧ count is_rasterize (log (run st events)) + attempts st
    = count is_rasterize (log st) + attempts (run st events).
Proof.
  intros Hle. induction events as [|ev events IH] using rev_ind; [simpl; lia|].
  rewrite run_snoc. destruct IH as [IH1 IH2].
  destruct (step_attempts (run st events) ev IH1). lia.
Qed.

Lemma run_keeps p st events :
  (∀ n, p (Rasterize n) = false) → (∀ s, p (Settle s) = false) →
  count p (log (run st events)) = count p (log st).
Proof.
  intros Hr Hs. induction events as [|ev events IH] using rev_ind; [done|].
  by rewrite run_snoc, step_keeps.
Qed.

Lemma generateThumbnail_start load c :
  attempts (generateThumbnail load c) ≤ 1
  ∧ count is_rasterize (log (generateThumbnail load c))
    = attempts (generateThumbnail load c)
  ∧ count is_create_element (log (generateThumbnail load c)) = 1
  ∧ count is_create_url (log (generateThumbnail load c)) = 1
  ∧ count is_revoke (log (generateThumbnail load c)) = 1
  ∧ count is_remove (log (generateThumbnail load c)) = 1.
Proof. destruct load, c; vm_compute; repeat split; lia. Qed.

Lemma settle_result s st :
  result (settle s st) = Some (default s (result st)).
Proof. unfold settle. by destruct (result st) eqn:E. Qed.

(** At three attempts a call only rejects. *)
Lemma tryCapture_exhausted c st :
  attempts st = MAX_ATTEMPTS →
  tryCapture c st = settle (Rejected AttemptsExceeded) st.
Proof. intros H. unfold tryCapture. by rewrite H. Qed.

(** The third attempt, when it throws, rejects with what it threw. *)
Lemma tryCapture_last_throw st :
  attempts st = 2 →
  tryCapture Throws st
  = settle (Rejected CaptureError)
      (mkState 3 (result st) (onseeked st) (timers st) (pending st)
         (log st ++ [Rasterize 3])).
Proof. intros H. unfold tryCapture. by rewrite H. Qed.

(** C2, as the code has it.  Whatever happens after the video has loaded,
    the extractor rasterizes at most 3 times.  Once 3 attempts have been
    made, a further call of [tryCapture] rasterizes nothing, schedules
    nothing and rejects with the attempts-exceeded error, which settles
    the promise only if it is not settled yet.  When the third attempt
    throws, no retry is scheduled and the promise is rejected with the
    error of that attempt. *)
Theorem capture_attempts_bounded (load : Load) (c : Capture)
  (events : list Event) :
  let st := run (generateThumbnail load c) events in
  count is_rasterize (log st) = attempts st
  ∧ attempts st ≤ 3
  ∧ (attempts st = 3 → ∀ c',
       count is_rasterize (log (tryCapture c' st)) = 3
       ∧ timers (tryCapture c' st) = timers st
       ∧ pending (tryCapture c' st) = pending st
       ∧ result (tryCapture c' st)
         = Some (default (Rejected AttemptsExceeded) (result st)))
  ∧ (attempts st = 2 →
       count is_rasterize (log (tryCapture Throws st)) = 3
       ∧ timers (tryCapture Throws st) = timers st
       ∧ result (tryCapture Throws st)
         = Some (default (Rejected CaptureError) (result st))).
Proof.
  cbv zeta.
  destruct (generateThumbnail_start load c) as (H1 & Hcount & _).
  destruct (run_attempts (generateThumbnail load c) events
              ltac:(unfold MAX_ATTEMPTS; lia)) as [Hle Heq].
  set (st := run (generateThumbnail load c) events) in *.
  assert (Hras : count is_rasterize (log st) = attempts st) by lia.
  split; [exact Hras|]. split; [exact Hle|]. split.
  - intros H3 c'. rewrite (tryCapture_exhausted c' st H3).
    destruct (settle_fields (Rejected AttemptsExceeded) st) as (_ & -> & -> & _).
    rewrite count_settle by done. rewrite settle_result. by rewrite Hras.
  - intros H2. rewrite (tryCapture_last_throw st H2).
    match goal with
    | |- context [settle ?s ?st'] =>
        destruct (settle_fields s st') as (_ & -> & _);
        rewrite (count_settle is_rasterize s st') by done;
        rewrite (settle_result s st')
    end.
    cbn [log timers result]. rewrite count_snoc, Hras, H2. done.
Qed.

Lemma capture_attempts_bounded_witness :
  let st := run (generateThumbnail Loaded Throws) [Timer Throws; Seeked Throws] in
  attempts st = 3
  ∧ count is_rasterize (log st) = 3
  ∧ result (tryCapture Drawn st) = Some (Rejected CaptureError).
Proof.
  cbv zeta.
  destruct (capture_attempts_bounded Loaded Throws [Timer Throws; Seeked Throws])
    as (Hcount & _ & Hfull & _).
  split; [reflexivity|]. split; [exact Hcount|].
  destruct (Hfull eq_refl Drawn) as (_ & _ & _ & Hres). exact Hres.
Defined.

(** C2, as stated, fails: three attempts throw, the third rejects with its
    own error, nothing more is scheduled, and a further call of
    [tryCapture] cannot change the rejection into attempts-exceeded. *)
Lemma three_failures_counterexample :
  let st := run (generateThumbnail Loaded Throws) [Timer Throws; Timer Throws] in
  count is_rasterize (log st) = 3
  ∧ timers st = 0
  ∧ pending st = 0
  ∧ result st = Some (Rejected CaptureError)
  ∧ ∀ c, result (tryCapture c st) = Some (Rejected CaptureError)
         ∧ result (tryCapture c st) ≠ Some (Rejected AttemptsExceeded).
Proof.
  cbv zeta. repeat split; try reflexivity; destruct c; try reflexivity; discriminate.
Qed.

(** Every invocation acquires the video element and its object URL once
    and releases each once, whatever happens afterwards. *)
Lemma thumbnail_releases_once (load : Load) (c : Capture) (events : list Event) :
  let st := run (generateThumbnail load c) events in
  count is_create_element (log st) = 1
  ∧ count is_create_url (log st) = 1
  ∧ count is_revoke (log st) = 1
  ∧ count is_remove (log st) = 1.
Proof.
  cbv zeta.
  destruct (generateThumbnail_start load c) as (_ & _ & H1 & H2 & H3 & H4).
  by rewrite !run_keeps.
Qed.

(** C3 at a video that loads and whose first capture reaches [toBlob]:
    the [finally] block has revoked the URL and removed the element while
    the promise is unsettled and the callback pending; the promise is
    settled only afterwards.  The same holds when the first capture throws
    and a retry is scheduled. *)
Lemma release_precedes_result :
  let st := generateThumbnail Loaded Drawn in
  result st = None
  ∧ pending st = 1
  ∧ log st = [CreateElement; CreateObjectURL; Rasterize 1;
              RevokeObjectURL; RemoveVideo]
  ∧ log (step st (BlobReady (Some jpeg)))
    = [CreateElement; CreateObjectURL; Rasterize 1;
       RevokeObjectURL; RemoveVideo; Settle (Resolved jpeg)]
  ∧ let st' := generateThumbnail Loaded Throws in
    result st' = None
    ∧ timers st' = 1
    ∧ log st' = [CreateElement; CreateObjectURL; Rasterize 1;
                 RevokeObjectURL; RemoveVideo].
Proof. cbv zeta. repeat split; reflexivity. Qed.

End ThumbnailFacts.

(** ** More on the serializer *)

Section SerializerMore.
Import DataView Wav Layout.




Lemma truncate_inject_Z z : Num.truncate (inject_Z z) = z.
Proof. unfold Num.truncate. simpl. apply Z.quot_1_r. Qed.

Lemma truncate_integer q z : (q == inject_Z z)%Q → Num.truncate q = z.
Proof.
  destruct q as [n d]. unfold Qeq, Num.truncate. simpl. intros H.
  rewrite Z.mul_1_r in H. subst n. apply Z.quot_mul. lia.
Qed.

Lemma le_value_uint16 v :
  (0 ≤ v < 65536)%Z → le_value (le_bytes 2 v) = v.
Proof. intros H. rewrite le_value_le_bytes. by apply Z.mod_small. Qed.

Lemma le_value_uint32 v :
  (0 ≤ v < 4294967296)%Z → le_value (le_bytes 4 v) = v.
Proof. intros H. rewrite le_value_le_bytes. by apply Z.mod_small. Qed.

(** X2.  When the sizes fit their fields (fewer than 32768 channels, fewer
    than [2^32] bytes in all, an integral sample rate [r] with
    [r * C * 2 < 2^32]), a reader of the serialized buffer finds in the
    header: the RIFF size equal to the length of the buffer minus 8, the
    format chunk size 16, format 1, the channel count, the sample rate,
    the byte rate [r * C * 2], the block align [C * 2], 16 bits, and a
    data size equal to the number of bytes that follow the header. *)
Theorem header_reads_back (b : AudioBuffer.t) (r : Z) :
  let C := AudioBuffer.numberOfChannels b in
  let N := AudioBuffer.length b in
  (Z.of_nat C < 32768)%Z →
  (Z.of_nat (44 + N * C * 2) < 2 ^ 32)%Z →
  AudioBuffer.sampleRate b = inject_Z r →
  (0 ≤ r)%Z → (r * Z.of_nat (C * 2) < 2 ^ 32)%Z → (r < 2 ^ 32)%Z →
  ∃ wav,
    audioBufferToWav b = Some wav
    ∧ Reader.getUint32 wav 4 = Some (Z.of_nat (List.length wav) - 8)%Z
    ∧ Reader.getUint32 wav 16 = Some 16%Z
    ∧ Reader.getUint16 wav 20 = Some 1%Z
    ∧ Reader.getUint16 wav 22 = Some (Z.of_nat C)
    ∧ Reader.getUint32 wav 24 = Some r
    ∧ Reader.getUint32 wav 28 = Some (r * Z.of_nat (C * 2))%Z
    ∧ Reader.getUint16 wav 32 = Some (Z.of_nat (C * 2))
    ∧ Reader.getUint16 wav 34 = Some 16%Z
    ∧ Reader.getUint32 wav 40 = Some (Z.of_nat (List.length wav - 44)).
Proof.
  intros C N HC Hsize HR Hr0 Hrate Hr.
  change (2 ^ 32)%Z with 4294967296%Z in *.
  eexists. split; [apply audioBufferToWav_bytes|].
  fold C N. rewrite HR.
  assert (Hlen : List.length (header C N (inject_Z r) ++ data b) = 44 + N * C * 2).
  { rewrite length_app, length_header, length_data. fold C N. lia. }
  rewrite Hlen.
  assert (Hrc : Num.truncate (inject_Z r * Num.of_nat (C * 2))
                = (r * Z.of_nat (C * 2))%Z).
  { apply truncate_integer. unfold Num.of_nat. by rewrite inject_Z_mult. }
  unfold Reader.getUint32, Reader.getUint16, header.
  cbn [Reader.bytes_at ascii_bytes list_ascii_of_string map uint32_le uint16_le
       le_bytes app lookup list_lookup mbind option_bind fmap option_fmap
       option_map].
  repeat split; f_equal.
  - change (le_value (le_bytes 4 (Z.of_nat (44 + N * C * 2) - 8))
            = (Z.of_nat (44 + N * C * 2) - 8)%Z).
    apply le_value_uint32. lia.
  - change (le_value (le_bytes 2 (Z.of_nat C)) = Z.of_nat C).
    apply le_value_uint16. lia.
  - change (le_value (le_bytes 4 (Num.truncate (inject_Z r))) = r).
    rewrite truncate_inject_Z. apply le_value_uint32. lia.
  - change (le_value (le_bytes 4 (Num.truncate (inject_Z r * Num.of_nat (C * 2))))
            = (r * Z.of_nat (C * 2))%Z).
    rewrite Hrc. apply le_value_uint32. lia.
  - change (le_value (le_bytes 2 (Z.of_nat (C * 2))) = Z.of_nat (C * 2)).
    apply le_value_uint16. lia.
  - change (le_value (le_bytes 4 (Z.of_nat (N * C * 2)))
            = Z.of_nat (44 + N * C * 2 - 44)).
    rewrite le_value_uint32 by lia. f_equal. lia.
Qed.

Lemma header_reads_back_witness :
  (Z.of_nat (AudioBuffer.numberOfChannels sample_buffer) < 32768)%Z
  ∧ ∃ wav,
      audioBufferToWav sample_buffer = Some wav
      ∧ Reader.getUint32 wav 4 = Some 44%Z
      ∧ Reader.getUint16 wav 22 = Some 2%Z
      ∧ Reader.getUint32 wav 24 = Some 44100%Z
      ∧ Reader.getUint32 wav 28 = Some 176400%Z
      ∧ Reader.getUint32 wav 40 = Some 8%Z.
Proof.
  split; [reflexivity|].
  destruct (header_reads_back sample_buffer 44100
              ltac:(reflexivity) ltac:(reflexivity) eq_refl
              ltac:(lia) ltac:(reflexivity) ltac:(reflexivity))
    as (wav & Hw & H4 & _ & _ & H22 & H24 & H28 & _ & _ & H40).
  exists wav. split; [exact Hw|].
  assert (Hlen : List.length wav = 52).
  { rewrite audioBufferToWav_bytes in Hw. injection Hw as <-. reflexivity. }
  rewrite Hlen in H4, H40.
  by repeat split.
Defined.

Lemma getInt16_wav (b : AudioBuffer.t) c pos :
  let C := AudioBuffer.numberOfChannels b in
  c < C → pos < AudioBuffer.length b →
  getInt16 (header C (AudioBuffer.length b) (AudioBuffer.sampleRate b) ++ data b)
    (44 + (pos * C + c) * 2)
  = Some (pcm16 (sample_at b c pos)).
Proof.
  intros C Hc Hpos.
  apply getInt16_lookup; [ | | apply pcm16_range].
  - rewrite lookup_app_r by (rewrite length_header; lia).
    rewrite length_header.
    replace (44 + (pos * C + c) * 2 - 44) with ((pos * C + c) * 2 + 0) by lia.
    apply lookup_data; [exact Hc | exact Hpos | lia].
  - rewrite lookup_app_r by (rewrite length_header; lia).
    rewrite length_header.
    replace (Datatypes.S (44 + (pos * C + c) * 2) - 44)
      with ((pos * C + c) * 2 + 1) by lia.
    apply lookup_data; [exact Hc | exact Hpos | lia].
Qed.

Lemma pcm16_saturates s :
  ((1 <= s)%Q → pcm16 s = 32767%Z) ∧ ((s <= -1)%Q → pcm16 s = (-32768)%Z).
Proof.
  unfold pcm16, scale. cbv zeta.
  destruct (clamp_cases (-1) 1 s ltac:(lra)) as [[H ->]|[(H1 & H2 & ->)|[H ->]]];
    split; intros Hs; try lra; try reflexivity.
  assert (Hneg : Num.ltb s 0 = true) by (apply ltb_true; lra).
  rewrite Hneg. apply truncate_integer.
  change (inject_Z (-32768)) with (-32768)%Q. lra.
Qed.

(** X3.  In the serialized buffer the sample of channel [c] at position
    [pos] sits at byte offset [44 + (pos * C + c) * 2], as a signed 16-bit
    little-endian integer between -32768 and 32767; a sample of 1 or more
    is stored as 32767 and a sample of -1 or less as -32768. *)
Theorem sample_placement (b : AudioBuffer.t) (c pos : nat) (s : Q) :
  AudioBuffer.well_formed b →
  sample b c pos = Some s →
  ∃ wav,
    audioBufferToWav b = Some wav
    ∧ getInt16 wav (44 + (pos * AudioBuffer.numberOfChannels b + c) * 2)
      = Some (pcm16 s)
    ∧ (-32768 ≤ pcm16 s ≤ 32767)%Z
    ∧ ((1 <= s)%Q → pcm16 s = 32767%Z)
    ∧ ((s <= -1)%Q → pcm16 s = (-32768)%Z).
Proof.
  intros Hwf Hs.
  destruct (lookup_sample b c pos s Hwf Hs) as (Hc & Hpos & Hat).
  eexists. split; [apply audioBufferToWav_bytes|].
  split; [rewrite getInt16_wav by done; by rewrite Hat|].
  split; [pose proof (pcm16_range s); lia|].
  apply pcm16_saturates.
Qed.

Lemma sample_placement_witness :
  AudioBuffer.well_formed sample_buffer
  ∧ sample sample_buffer 1 0 = Some 1%Q
  ∧ ∃ wav,
      audioBufferToWav sample_buffer = Some wav
      ∧ getInt16 wav 46 = Some 32767%Z.
Proof.
  split; [exact sample_buffer_well_formed|]. split; [reflexivity|].
  destruct (sample_placement sample_buffer 1 0 1%Q sample_buffer_well_formed eq_refl)
    as (wav & Hw & Hget & _ & Hsat & _).
  exists wav. split; [exact Hw|].
  rewrite <- (Hsat ltac:(discriminate)). exact Hget.
Defined.

Lemma truncate_monotone q r : (q <= r)%Q → (Num.truncate q ≤ Num.truncate r)%Z.
Proof.
  intros Hqr.
  assert (Hinj : ∀ a b : Z, (inject_Z a < inject_Z b + 1)%Q → (a ≤ b)%Z).
  { intros a b. unfold Qlt. simpl. lia. }
  destruct (Qlt_le_dec q 0) as [Hq|Hq]; destruct (Qlt_le_dec r 0) as [Hr|Hr].
  - destruct (truncate_nonpos q ltac:(lra)) as [_ H1].
    destruct (truncate_nonpos r ltac:(lra)) as [H2 _].
    apply Hinj. lra.
  - destruct (truncate_nonpos q ltac:(lra)) as [_ H1].
    destruct (truncate_nonneg r Hr) as [_ H2].
    assert (Num.truncate q ≤ 0)%Z
      by (apply Hinj; change (inject_Z 0) with 0%Q; lra).
    assert (0 ≤ Num.truncate r)%Z
      by (apply Hinj; change (inject_Z 0) with 0%Q; lra).
    lia.
  - lra.
  - destruct (truncate_nonneg q Hq) as [H1 _].
    destruct (truncate_nonneg r Hr) as [_ H2].
    apply Hinj. lra.
Qed.

Lemma scale_monotone s t : (s <= t)%Q → (scale s <= scale t)%Q.
Proof.
  intros Hst. unfold scale. cbv zeta.
  destruct (clamp_cases (-1) 1 s ltac:(lra)) as [[? ->]|[(? & ? & ->)|[? ->]]];
  destruct (clamp_cases (-1) 1 t ltac:(lra)) as [[? ->]|[(? & ? & ->)|[? ->]]];
    try lra;
    repeat match goal with
      | |- context [Num.ltb ?a ?b] =>
          let E := fresh "E" in
          destruct (Num.ltb a b) eqn:E;
          [apply ltb_true in E | apply ltb_false in E]
      end; lra.
Qed.

(** X4.  Quantization keeps the order of samples: a larger sample is never
    stored as a smaller integer. *)
Theorem pcm16_monotone (s t : Q) :
  (s <= t)%Q → (pcm16 s ≤ pcm16 t)%Z.
Proof. intros H. unfold pcm16. by apply truncate_monotone, scale_monotone. Qed.

Lemma pcm16_monotone_witness :
  (-(1 # 4) <= 1 # 2)%Q ∧ (pcm16 (-(1 # 4)) ≤ pcm16 (1 # 2))%Z.
Proof.
  split; [discriminate|].
  apply (pcm16_monotone (-(1 # 4)) (1 # 2)). discriminate.
Defined.

End SerializerMore.

(** ** More on the mixing passes *)

Section MixMore.
Import Mix Closed Compositor.

Lemma imap_update_lengths (g : nat → nat → Q → Q) k n (chs : list (list Q)) :
  Forall (fun ch => List.length ch = n) chs →
  Forall (fun ch => List.length ch = n)
    (imap (fun c data => update_upto k (g c) data) chs).
Proof.
  rewrite !Forall_lookup. intros H c ch. rewrite list_lookup_imap.
  destruct (chs !! c) as [data|] eqn:Hc; [|done].
  cbn [fmap option_fmap option_map]. intros [= <-].
  rewrite length_update_upto. by eapply H.
Qed.

Lemma clamp_unit x : (-1 <= Num.clamp (-1) 1 x)%Q ∧ (Num.clamp (-1) 1 x <= 1)%Q.
Proof. apply clamp_bounds. lra. Qed.

(** X5.  The secondary mixing pass, given a track with a channel, writes
    only the first [audioLength = min (track length) (video length)]
    samples of each output channel: the samples from [audioLength] on keep
    their values, every sample it writes lies in [-1, 1] whatever the
    inputs, and the output buffer keeps its sample rate, its length and the
    length of each of its channels. *)
Theorem secondary_mix_writes_prefix (video track out : AudioBuffer.t)
  (audioVolume : Q) :
  0 < AudioBuffer.numberOfChannels track →
  let audioLength :=
    Nat.min (AudioBuffer.length track) (AudioBuffer.length video) in
  ∃ out',
    secondary_mix video track audioVolume out = (Ok tt, out')
    ∧ AudioBuffer.sampleRate out' = AudioBuffer.sampleRate out
    ∧ AudioBuffer.length out' = AudioBuffer.length out
    ∧ (∀ c i, is_Some (sample out' c i) ↔ is_Some (sample out c i))
    ∧ (∀ c i, audioLength ≤ i → sample out' c i = sample out c i)
    ∧ (∀ c i v, i < audioLength → sample out' c i = Some v →
         (-1 <= v)%Q ∧ (v <= 1)%Q).
Proof.
  intros Hn audioLength.
  eexists. split; [by apply secondary_mix_eq|].
  split; [done|]. split; [done|].
  split; [|split].
  - intros c i. rewrite sample_mixed. by rewrite fmap_is_Some.
  - intros c i Hi. rewrite sample_mixed.
    destruct (sample out c i); [|done].
    cbn [fmap option_fmap option_map].
    by rewrite decide_False by (fold audioLength; lia).
  - intros c i v Hi. rewrite sample_mixed.
    destruct (sample out c i); [|done].
    cbn [fmap option_fmap option_map].
    rewrite decide_True by done. intros [= <-].
    unfold mixed_sample. apply fround_unit; apply clamp_unit.
Qed.

Lemma secondary_mix_writes_prefix_witness :
  0 < AudioBuffer.numberOfChannels mono_track
  ∧ ∃ out',
      secondary_mix sample_buffer mono_track 1 faint_video = (Ok tt, out')
      ∧ sample out' 0 0 = Some (Closed.mixed_sample (1 # 2048) 1 1)
      ∧ AudioBuffer.length out' = 1.
Proof.
  split; [compute; lia|].
  destruct (secondary_mix_writes_prefix sample_buffer mono_track faint_video 1
              ltac:(compute; lia)) as (out' & Hrun & _ & Hlen & _).
  exists out'. split; [exact Hrun|]. split; [|exact Hlen].
  rewrite secondary_mix_eq in Hrun by (compute; lia).
  injection Hrun as <-. reflexivity.
Defined.

(** Lines 64-101 leave the output buffer as it is or mix a decoded track
    with a channel into it. *)
Lemma secondary_pass_cases env video audioTrack audioVolume w :
  ∃ out' logs,
    secondary_pass env video audioTrack audioVolume w
    = (Ok tt, mkWorld (videoElement w) (audioContext w) out' (trace w ++ logs))
    ∧ Forall is_console logs
    ∧ (out' = outputBuffer w
       ∨ ∃ buf, out' = set_channels (outputBuffer w)
                         (mixed video buf audioVolume
                            (AudioBuffer.channels (outputBuffer w)))).
Proof.
  destruct (decide (audioTrack = None ∨ Num.gtb audioVolume 0 = false))
    as [Hskip|Hdo].
  { destruct (secondary_pass_absent env video audioTrack audioVolume w)
      as (logs & Hrun & Hlogs & _).
    { destruct Hskip; [by left | right; by left]. }
    exists (outputBuffer w), logs. split; [exact Hrun|]. split; [exact Hlogs|].
    by left. }
  destruct audioTrack as [track|]; [|by destruct Hdo; left].
  destruct (Num.gtb audioVolume 0) eqn:Hgt; [|by destruct Hdo; right].
  destruct (fetch env (audio_url track)) as [bytes|] eqn:Hfetch.
  2:{ destruct (secondary_pass_absent env video (Some track) audioVolume w)
        as (logs & Hrun & Hlogs & _).
      { right; right. exists track. split; [done|]. by left. }
      exists (outputBuffer w), logs.
      split; [exact Hrun|]. split; [exact Hlogs | by left]. }
  destruct (decodeAudioData env bytes) as [buf|] eqn:Hdec.
  2:{ destruct (secondary_pass_absent env video (Some track) audioVolume w)
        as (logs & Hrun & Hlogs & _).
      { right; right. exists track. split; [done|]. right. by exists bytes. }
      exists (outputBuffer w), logs.
      split; [exact Hrun|]. split; [exact Hlogs | by left]. }
  unfold secondary_pass. rewrite Hgt.
  unfold bind at 1. unfold emit at 1, modify. unfold try_catch, bind.
  rewrite Hfetch. cbn [lift_option ret]. rewrite Hdec. cbn [lift_option ret].
  destruct (Nat.eq_dec (AudioBuffer.numberOfChannels buf) 0) as [H0|H0].
  - destruct (Nat.eq_dec (AudioBuffer.numberOfChannels (outputBuffer w)) 0) as [Ho|Ho].
    + rewrite (on_output_run _ _ (Ok tt) (outputBuffer w)).
      * exists (outputBuffer w), [Console Log].
        split; [by destruct w|].
        split; [repeat constructor; apply is_console_Console | by left].
      * unfold secondary_mix, bind, get. cbn [add_event outputBuffer].
        by rewrite Ho.
    + rewrite (on_output_run _ _ (Throw IndexSizeError) (outputBuffer w)).
      * exists (outputBuffer w), [Console Log; Console Error].
        split; [unfold emit, modify, add_event; simpl; by rewrite <- app_assoc|].
        split; [repeat constructor; apply is_console_Console | by left].
      * apply secondary_mix_no_channels; [done | cbn [add_event outputBuffer]; lia].
  - erewrite on_output_run by (apply secondary_mix_eq; lia).
    eexists _, [Console Log]. split; [reflexivity|].
    split; [repeat constructor; apply is_console_Console|].
    right. by exists buf.
Qed.

(** Lines 38-126: the buffer handed on is the primary result, possibly
    mixed with a track, after the silence check. *)
Lemma mix_cases env video audioTrack videoVolume audioVolume w :
  ∃ mixed_or_not logs,
    mix env video audioTrack videoVolume audioVolume w
    = (Ok tt, mkWorld (videoElement w) (audioContext w)
                (validated video videoVolume mixed_or_not) (trace w ++ logs))
    ∧ Forall is_console logs
    ∧ (mixed_or_not = primary_result video videoVolume
       ∨ ∃ buf, mixed_or_not
                = set_channels (primary_result video videoVolume)
                    (mixed video buf audioVolume
                       (AudioBuffer.channels (primary_result video videoVolume)))).
Proof.
  rewrite mix_unfold.
  set (w1 := mkWorld _ _ _ _).
  destruct (secondary_pass_cases env video audioTrack audioVolume w1)
    as (out2 & logs2 & Hsec & Hlogs2 & Hout2).
  rewrite (bind_ok _ _ _ _ _ Hsec).
  set (w2 := mkWorld _ _ out2 _).
  destruct (validate_mix_eq video videoVolume w2) as (logs3 & Hval & Hlogs3 & _).
  { unfold w2. cbn [outputBuffer].
    destruct Hout2 as [-> | (buf & ->)]; unfold w1; cbn [outputBuffer].
    - by rewrite numberOfChannels_primary_result.
    - unfold AudioBuffer.numberOfChannels at 1, mixed.
      cbn [set_channels AudioBuffer.channels]. rewrite length_imap.
      fold (AudioBuffer.numberOfChannels (primary_result video videoVolume)).
      by rewrite numberOfChannels_primary_result. }
  rewrite Hval. exists out2, ([Console Log] ++ logs2 ++ logs3).
  split.
  - unfold w2, w1. cbn [videoElement audioContext trace outputBuffer].
    by rewrite <- !app_assoc.
  - split.
    + apply Forall_app. split; [repeat constructor; apply is_console_Console|].
      by apply Forall_app.
    + exact Hout2.
Qed.

Lemma primary_result_well_formed video videoVolume :
  AudioBuffer.well_formed (primary_result video videoVolume)
  ∧ AudioBuffer.length (primary_result video videoVolume) = AudioBuffer.length video
  ∧ AudioBuffer.sampleRate (primary_result video videoVolume)
    = AudioBuffer.sampleRate video.
Proof.
  split; [|done]. unfold AudioBuffer.well_formed, primary_result.
  cbn [set_channels AudioBuffer.channels AudioBuffer.length].
  apply (imap_update_lengths
           (fun c i _ =>
              scaled_sample (at_index (channel video c) i)
                (Num.clamp 0 1 videoVolume))).
  apply (createBuffer_well_formed _ _ (AudioBuffer.sampleRate video)).
Qed.

(** The shape of a buffer: rate, length, channel count and the length of
    each channel. *)
Lemma mixed_keeps_shape video buf audioVolume out :
  AudioBuffer.well_formed out →
  let out' := set_channels out (mixed video buf audioVolume (AudioBuffer.channels out)) in
  AudioBuffer.well_formed out'
  ∧ AudioBuffer.numberOfChannels out' = AudioBuffer.numberOfChannels out.
Proof.
  intros Hwf out'. split.
  - unfold AudioBuffer.well_formed, out'.
    cbn [set_channels AudioBuffer.channels AudioBuffer.length].
    by apply (imap_update_lengths
      (fun c i o =>
         mixed_sample o
           (at_index (channel buf (c mod AudioBuffer.numberOfChannels buf)) i)
           audioVolume)).
  - unfold out', AudioBuffer.numberOfChannels, mixed. simpl. apply length_imap.
Qed.

Lemma validated_keeps_shape video videoVolume out :
  AudioBuffer.well_formed out →
  AudioBuffer.well_formed (validated video videoVolume out)
  ∧ AudioBuffer.numberOfChannels (validated video videoVolume out)
    = AudioBuffer.numberOfChannels out
  ∧ AudioBuffer.length (validated video videoVolume out) = AudioBuffer.length out
  ∧ AudioBuffer.sampleRate (validated video videoVolume out)
    = AudioBuffer.sampleRate out.
Proof.
  intros Hwf. unfold validated. destruct (_ && _); [|done].
  split; [|split; [apply numberOfChannels_scaled | done]].
  unfold AudioBuffer.well_formed.
  cbn [set_channels AudioBuffer.channels AudioBuffer.length].
  by apply (imap_update_lengths
              (fun c i _ => scaled_sample (at_index (channel video c) i) videoVolume)).
Qed.

(** X6.  Whenever the video audio decodes, whatever the track, the volumes
    and the fate of the track, the buffer the compositor serializes has the
    sample rate, the length and the channel count of the decoded video
    audio, every channel holding that many samples; so the WAV it makes is
    [44 + N * C * 2] bytes long. *)
Theorem output_keeps_shape (env : Env) (videoBlob : Blob)
  (audioTrack : option AudioTrack) (videoVolume audioVolume : Q)
  (onProgress : option (Q → ST World unit)) (d : Q) (video : AudioBuffer.t) :
  load_metadata env = Some d →
  context_available env = true →
  decodeAudioData env (blob_bytes videoBlob) = Some video →
  ∃ w wav,
    processVideoAudio env videoBlob audioTrack videoVolume audioVolume
      onProgress init
    = (Ok (new_file videoBlob "video.webm" "video/webm"), w)
    ∧ AudioBuffer.sampleRate (outputBuffer w) = AudioBuffer.sampleRate video
    ∧ AudioBuffer.length (outputBuffer w) = AudioBuffer.length video
    ∧ AudioBuffer.numberOfChannels (outputBuffer w)
      = AudioBuffer.numberOfChannels video
    ∧ AudioBuffer.well_formed (outputBuffer w)
    ∧ Wav.audioBufferToWav (outputBuffer w) = Some wav
    ∧ List.length wav
      = 44 + AudioBuffer.length video * AudioBuffer.numberOfChannels video * 2.
Proof.
  intros Hload Hctx Hdec.
  destruct (mix_cases env video audioTrack videoVolume audioVolume (started env))
    as (m & logs & Hmix & _ & Hm).
  destruct (primary_result_well_formed video videoVolume) as (Hpwf & Hplen & Hprate).
  assert (Hshape : AudioBuffer.well_formed m
                   ∧ AudioBuffer.numberOfChannels m = AudioBuffer.numberOfChannels video
                   ∧ AudioBuffer.length m = AudioBuffer.length video
                   ∧ AudioBuffer.sampleRate m = AudioBuffer.sampleRate video).
  { destruct Hm as [-> | (buf & ->)].
    - by rewrite numberOfChannels_primary_result.
    - destruct (mixed_keeps_shape video buf audioVolume _ Hpwf) as [H1 H2].
      split; [exact H1|]. split; [|done].
      rewrite H2. apply numberOfChannels_primary_result. }
  destruct Hshape as (Hwf & Hc & Hn & Hr).
  destruct (validated_keeps_shape video videoVolume m Hwf) as (Hvwf & Hvc & Hvn & Hvr).
  eexists _, _. split; [by eapply exit_return|].
  cbn [outputBuffer].
  split; [congruence|]. split; [congruence|]. split; [congruence|].
  split; [exact Hvwf|]. split; [apply audioBufferToWav_bytes|].
  rewrite length_app, length_header, length_data. rewrite Hvn, Hvc, Hn, Hc. done.
Qed.

Lemma output_keeps_shape_witness :
  load_metadata online = Some 3%Q
  ∧ context_available online = true
  ∧ decodeAudioData online (blob_bytes upload) = Some stereo_video
  ∧ ∃ w wav,
      processVideoAudio online upload (Some track) 1 1 None init
      = (Ok (new_file upload "video.webm" "video/webm"), w)
      ∧ AudioBuffer.numberOfChannels (outputBuffer w) = 2
      ∧ AudioBuffer.length (outputBuffer w) = 2
      ∧ Wav.audioBufferToWav (outputBuffer w) = Some wav
      ∧ List.length wav = 52.
Proof.
  split; [reflexivity|]. split; [reflexivity|]. split; [reflexivity|].
  destruct (output_keeps_shape online upload (Some track) 1 1 None 3%Q stereo_video
              eq_refl eq_refl eq_refl)
    as (w & wav & Hrun & _ & Hn & Hc & _ & Hwav & Hlen).
  exists w, wav. by repeat split.
Defined.

(** X7.  The compositor returns exactly when the metadata load, the audio
    context and the decoding of the video audio all succeed, and it then
    returns the video file; otherwise it throws the load error, the
    context error or the decoding error, in that order of precedence.  No
    failure of the track, of the mixing, of the serializer or of the
    recombination step ever reaches the caller. *)
Theorem processVideoAudio_outcome (env : Env) (videoBlob : Blob)
  (audioTrack : option AudioTrack) (videoVolume audioVolume : Q)
  (onProgress : option (Q → ST World unit)) :
  fst (processVideoAudio env videoBlob audioTrack videoVolume audioVolume
         onProgress init)
  = match load_metadata env with
    | None => Throw VideoLoadError
    | Some _ =>
        if context_available env then
          match decodeAudioData env (blob_bytes videoBlob) with
          | None => Throw EncodingError
          | Some _ => Ok (new_file videoBlob "video.webm" "video/webm")
          end
        else Throw NotSupportedError
    end.
Proof.
  destruct (load_metadata env) as [d|] eqn:Hload.
  2:{ destruct (exit_load_error env videoBlob audioTrack videoVolume audioVolume
                  onProgress Hload) as (w & -> & _). done. }
  destruct (context_available env) eqn:Hctx.
  2:{ destruct (exit_no_context env videoBlob audioTrack videoVolume audioVolume
                  onProgress d Hload Hctx) as (w & -> & _). done. }
  destruct (decodeAudioData env (blob_bytes videoBlob)) as [video|] eqn:Hdec.
  2:{ destruct (exit_decode_error env videoBlob audioTrack videoVolume audioVolume
                  onProgress d Hload Hctx Hdec) as (w & -> & _). done. }
  destruct (mix_frame env video audioTrack videoVolume audioVolume (started env))
    as (out' & logs & Hmix & _).
  by rewrite (exit_return _ _ _ _ _ onProgress d video out' logs Hload Hctx Hdec Hmix).
Qed.

Lemma mix_ignores_track env video track videoVolume audioVolume w :
  Num.gtb audioVolume 0 = false →
  mix env video (Some track) videoVolume audioVolume w
  = mix env video None videoVolume audioVolume w.
Proof.
  intros Hgt. rewrite !mix_unfold. unfold bind.
  assert (Hsec : ∀ w', secondary_pass env video (Some track) audioVolume w'
                       = secondary_pass env video None audioVolume w')
    by (intros w'; unfold secondary_pass; by rewrite Hgt).
  by rewrite Hsec.
Qed.

(** X8.  With an audio volume of zero or less the track is not even
    fetched: the invocation is, effect for effect, the one without a
    track. *)
Theorem track_ignored_without_volume (env : Env) (videoBlob : Blob)
  (track : AudioTrack) (videoVolume audioVolume : Q)
  (onProgress : option (Q → ST World unit)) :
  (audioVolume <= 0)%Q →
  processVideoAudio env videoBlob (Some track) videoVolume audioVolume
    onProgress init
  = processVideoAudio env videoBlob None videoVolume audioVolume onProgress init.
Proof.
  intros Hav. apply gtb_false in Hav.
  unfold processVideoAudio.
  cbv beta delta [bind try_finally try_catch].
  destruct (emit (Console Log) init) as [[u|e] w0]; [|done].
  destruct (await_metadata env w0) as [[d|e] w1]; [|done].
  destruct (new_AudioContext env w1) as [[u'|e] w2]; [|done].
  destruct (lift_option EncodingError (decodeAudioData env (blob_bytes videoBlob)) w2)
    as [[video|e] w3]; [|done].
  by rewrite (mix_ignores_track env video track videoVolume audioVolume w3 Hav).
Qed.

Lemma track_ignored_without_volume_witness :
  (0 <= 0)%Q
  ∧ processVideoAudio offline upload (Some track) 1 0 None init
    = processVideoAudio offline upload None 1 0 None init.
Proof.
  split; [discriminate|].
  apply (track_ignored_without_volume offline upload track 1 0 None). discriminate.
Defined.

Lemma pcm16_proper s t : (s == t)%Q → Layout.pcm16 s = Layout.pcm16 t.
Proof.
  intros H. unfold Layout.pcm16. apply Z.le_antisymm;
    apply truncate_monotone, scale_monotone; lra.
Qed.

(** The run of the compositor when no track is asked for. *)
Lemma video_only_run env videoBlob audioTrack videoVolume audioVolume onProgress
  d video :
  load_metadata env = Some d →
  context_available env = true →
  decodeAudioData env (blob_bytes videoBlob) = Some video →
  audioTrack = None ∨ Num.gtb audioVolume 0 = false →
  ∃ logs,
    processVideoAudio env videoBlob audioTrack videoVolume audioVolume
      onProgress init
    = (Ok (new_file videoBlob "video.webm" "video/webm"),
       mkWorld (videoElement (started env)) (audioContext (started env))
         (validated video videoVolume (primary_result video videoVolume))
         (trace (started env) ++ logs
          ++ [Console Log; Console Log; CloseAudioContext; PauseVideo;
              RevokeObjectURL (Some (object_url env)); RemoveVideo])).
Proof.
  intros Hload Hctx Hdec Hskip.
  pose proof (mix_unfold env video audioTrack videoVolume audioVolume
                (started env)) as Hmix.
  set (w1 := mkWorld _ _ _ _) in Hmix.
  destruct (secondary_pass_absent env video audioTrack audioVolume w1)
    as (logs2 & Hsec & _).
  { destruct Hskip; [by left | right; by left]. }
  rewrite (bind_ok _ _ _ _ _ Hsec) in Hmix.
  set (w2 := mkWorld _ _ _ _) in Hmix.
  destruct (validate_mix_eq video videoVolume w2) as (logs3 & Hval & _).
  { unfold w2, w1. cbn [outputBuffer]. by rewrite numberOfChannels_primary_result. }
  rewrite Hval in Hmix.
  exists ([Console Log] ++ logs2 ++ logs3).
  eapply (exit_return _ _ _ _ _ _ d video); [done | done | done |].
  rewrite Hmix. unfold w2, w1. cbn [videoElement audioContext trace outputBuffer].
  by rewrite <- !app_assoc.
Qed.

(** X9.  Without a track, or with an audio volume of zero or less, and a
    video volume in [0, 1], every sample the compositor serializes is the
    video sample times the video volume, the product rounded to binary64
    and stored as a binary32 number; at video volume 1 the 16-bit integers
    of the WAV are those of the video samples themselves, these being
    binary32 numbers. *)
Theorem video_only_pass (env : Env) (videoBlob : Blob)
  (audioTrack : option AudioTrack) (videoVolume audioVolume : Q)
  (onProgress : option (Q → ST World unit)) (d : Q) (video : AudioBuffer.t) :
  load_metadata env = Some d →
  context_available env = true →
  decodeAudioData env (blob_bytes videoBlob) = Some video →
  AudioBuffer.well_formed video →
  audioTrack = None ∨ (audioVolume <= 0)%Q →
  (0 <= videoVolume)%Q → (videoVolume <= 1)%Q →
  ∃ w wav,
    processVideoAudio env videoBlob audioTrack videoVolume audioVolume
      onProgress init
    = (Ok (new_file videoBlob "video.webm" "video/webm"), w)
    ∧ Wav.audioBufferToWav (outputBuffer w) = Some wav
    ∧ (∀ c i v, sample video c i = Some v →
         sample (outputBuffer w) c i
         = Some (Float.fround (Float.mul v videoVolume))
         ∧ DataView.getInt16 wav
             (44 + (i * AudioBuffer.numberOfChannels video + c) * 2)
           = Some (Layout.pcm16 (Float.fround (Float.mul v videoVolume))))
    ∧ ((videoVolume == 1)%Q →
       ∀ c i v, sample video c i = Some v → Float.binary32 v →
         DataView.getInt16 wav
           (44 + (i * AudioBuffer.numberOfChannels video + c) * 2)
         = Some (Layout.pcm16 v)).
Proof.
  intros Hload Hctx Hdec Hwf Hskip Hv0 Hv1.
  destruct (video_only_run env videoBlob audioTrack videoVolume audioVolume
              onProgress d video Hload Hctx Hdec) as (logs & Hrun).
  { destruct Hskip as [?|Hav]; [by left | right; by apply gtb_false]. }
  destruct (primary_result_well_formed video videoVolume) as (Hpwf & Hplen & Hprate).
  destruct (validated_keeps_shape video videoVolume _ Hpwf) as (Hvwf & Hvc & Hvn & _).
  rewrite numberOfChannels_primary_result in Hvc.
  set (out := validated video videoVolume (primary_result video videoVolume)) in *.
  assert (Hsamples : ∀ c i v, sample video c i = Some v →
            sample out c i = Some (Float.fround (Float.mul v videoVolume))).
  { intros c i v Hv. unfold out, validated.
    destruct (negb _ && _).
    - rewrite sample_scaled_video, Hv; [reflexivity|done|].
      rewrite sample_primary_result by done. by rewrite fmap_is_Some.
    - rewrite sample_primary_result, Hv by done.
      cbn [fmap option_fmap option_map]. unfold scaled_sample. do 2 f_equal.
      apply mul_proper; [reflexivity|]. by apply clamp_id. }
  assert (Hints : ∀ c i v, sample video c i = Some v →
            DataView.getInt16
              (Layout.header (AudioBuffer.numberOfChannels out) (AudioBuffer.length out)
                 (AudioBuffer.sampleRate out) ++ Layout.data out)
              (44 + (i * AudioBuffer.numberOfChannels video + c) * 2)
            = Some (Layout.pcm16 (Float.fround (Float.mul v videoVolume)))).
  { intros c i v Hv. pose proof (Hsamples c i v Hv) as Hv'.
    destruct (lookup_sample out c i _ Hvwf Hv') as (Hc & Hi & Hat).
    rewrite <- Hvc. rewrite getInt16_wav by done.
    by rewrite Hat. }
  eexists _, _. split; [exact Hrun|]. cbn [outputBuffer]. fold out.
  split; [apply audioBufferToWav_bytes|]. split.
  - intros c i v Hv. split; [by apply Hsamples | by apply Hints].
  - intros H1 c i v Hv Hb. rewrite (Hints c i v Hv). f_equal.
    apply pcm16_proper. by apply fround_mul_one.
Qed.

Lemma video_only_pass_witness :
  load_metadata online = Some 3%Q
  ∧ context_available online = true
  ∧ decodeAudioData online (blob_bytes upload) = Some stereo_video
  ∧ AudioBuffer.well_formed stereo_video
  ∧ Float.binary32 (1 # 2)
  ∧ ∃ w wav,
      processVideoAudio online upload None 1 (1 # 2) None init
      = (Ok (new_file upload "video.webm" "video/webm"), w)
      ∧ Wav.audioBufferToWav (outputBuffer w) = Some wav
      ∧ DataView.getInt16 wav 46 = Some (Layout.pcm16 (1 # 2)).
Proof.
  assert (Hwf : AudioBuffer.well_formed stereo_video) by repeat constructor.
  assert (Hhalf : Float.binary32 (1 # 2)).
  { exists 1%Z, (-1)%Z. split; [reflexivity|]. split; [lia | reflexivity]. }
  split; [reflexivity|]. split; [reflexivity|]. split; [reflexivity|].
  split; [exact Hwf|]. split; [exact Hhalf|].
  destruct (video_only_pass online upload None 1 (1 # 2) None 3%Q stereo_video
              eq_refl eq_refl eq_refl Hwf (or_introl eq_refl)
              ltac:(discriminate) ltac:(discriminate))
    as (w & wav & Hrun & Hwav & _ & Hid).
  exists w, wav. split; [exact Hrun|]. split; [exact Hwav|].
  exact (Hid ltac:(reflexivity) 1 0 (1 # 2)%Q eq_refl Hhalf).
Defined.

End MixMore.

(** ** More on the thumbnail extractor *)

Section ThumbnailMore.
Import Thumbnail.

Lemma run_cons st ev events : run st (ev :: events) = run (step st ev) events.
Proof. reflexivity. Qed.

Lemma run_app st e1 e2 : run st (e1 ++ e2) = run (run st e1) e2.
Proof. unfold run. apply foldl_app. Qed.

(** Without handler, timer or callback nothing can happen. *)
Lemma run_idle st events :
  onseeked st = false → timers st = 0 → pending st = 0 →
  run st events = st.
Proof.
  intros H1 H2 H3. induction events as [|ev events IH]; [done|].
  rewrite run_cons.
  assert (step st ev = st) as ->; [|exact IH].
  destruct ev; cbn [step]; by rewrite ?H1, ?H2, ?H3.
Qed.

Lemma load_failure_idle load c events :
  load = LoadFailed ∨ load = TimedOut →
  run (generateThumbnail load c) events = generateThumbnail load c
  ∧ ∃ e, result (generateThumbnail load c) = Some (Rejected e).
Proof.
  intros [-> | ->]; (split; [by apply run_idle | by eexists]).
Qed.

(** X10.  When the video fails to load, or does not load within the 60
    seconds, the promise is rejected with that error, nothing is ever
    rasterized, and no later event changes anything: the [seeked] handler
    was never installed. *)
Theorem load_failure_is_final (c : Capture) (events : list Event) :
  run (generateThumbnail LoadFailed c) events = generateThumbnail LoadFailed c
  ∧ result (generateThumbnail LoadFailed c) = Some (Rejected MediaError)
  ∧ count is_rasterize (log (generateThumbnail LoadFailed c)) = 0
  ∧ run (generateThumbnail TimedOut c) events = generateThumbnail TimedOut c
  ∧ result (generateThumbnail TimedOut c) = Some (Rejected TimeoutError)
  ∧ count is_rasterize (log (generateThumbnail TimedOut c)) = 0.
Proof.
  repeat split; try reflexivity; by apply run_idle.
Qed.

(** The attempt counter never goes back. *)
Lemma tryCapture_attempts_mono c st : attempts st ≤ attempts (tryCapture c st).
Proof.
  unfold tryCapture. destruct (MAX_ATTEMPTS <=? attempts st).
  - by destruct (settle_fields (Rejected AttemptsExceeded) st) as (-> & _).
  - destruct c; cbn [attempts]; [|lia].
    destruct (_ <? _); cbn [attempts]; [lia|].
    match goal with
    | |- context [settle ?s ?st'] =>
        destruct (settle_fields s st') as (-> & _)
    end. cbn [attempts]. lia.
Qed.

Lemma step_attempts_mono st ev : attempts st ≤ attempts (step st ev).
Proof.
  destruct ev as [c|c|blob]; cbn [step].
  - destruct (onseeked st); [apply tryCapture_attempts_mono | done].
  - destruct (timers st); [done|].
    apply (tryCapture_attempts_mono c (mkState _ _ _ _ _ _)).
  - destruct (pending st); [done|].
    destruct blob;
      match goal with
      | |- context [settle ?s ?st'] =>
          by destruct (settle_fields s st') as (-> & _)
      end.
Qed.

Lemma run_attempts_mono st events : attempts st ≤ attempts (run st events).
Proof.
  induction events as [|ev events IH] using rev_ind; [done|].
  rewrite run_snoc. pose proof (step_attempts_mono (run st events) ev). lia.
Qed.

(** How a call of [tryCapture] can settle the promise. *)
Lemma tryCapture_result c st :
  result (tryCapture c st) = result st
  ∨ (result st = None
     ∧ MAX_ATTEMPTS ≤ attempts (tryCapture c st)
     ∧ (result (tryCapture c st) = Some (Rejected AttemptsExceeded)
        ∨ result (tryCapture c st) = Some (Rejected CaptureError))).
Proof.
  unfold tryCapture.
  destruct (Nat.leb_spec MAX_ATTEMPTS (attempts st)) as [Hmax|Hlt].
  - unfold settle. destruct (result st) eqn:E; [by left|].
    right. cbn [result attempts]. split; [done|]. split; [done | by left].
  - destruct c; cbn [attempts result]; [|by left].
    destruct (Nat.ltb_spec (Datatypes.S (attempts st)) MAX_ATTEMPTS) as [H|H];
      [by left|].
    unfold settle. cbn [result].
    destruct (result st) eqn:E; [by left|].
    right. cbn [result attempts]. split; [done|]. split; [done | by right].
Qed.

(** How one turn of the event loop can settle the promise. *)
Lemma step_result st ev :
  result (step st ev) = result st
  ∨ (result st = None
     ∧ ((∃ b, ev = BlobReady (Some b) ∧ result (step st ev) = Some (Resolved b))
        ∨ (ev = BlobReady None ∧ result (step st ev) = Some (Rejected BlobError))
        ∨ (MAX_ATTEMPTS ≤ attempts (step st ev)
           ∧ (result (step st ev) = Some (Rejected AttemptsExceeded)
              ∨ result (step st ev) = Some (Rejected CaptureError))))).
Proof.
  destruct ev as [c|c|blob]; cbn [step].
  - destruct (onseeked st); [|by left].
    destruct (tryCapture_result c st) as [H|(H1 & H2 & H3)]; [by left|].
    right. split; [done|]. right; right. done.
  - destruct (timers st) as [|k]; [by left|].
    destruct (tryCapture_result c
                (mkState (attempts st) (result st) (onseeked st) k (pending st)
                   (log st))) as [H|(H1 & H2 & H3)]; [by left|].
    right. split; [done|]. right; right. done.
  - destruct (pending st) as [|k]; [by left|].
    destruct blob as [b|]; unfold settle; cbn [result];
      destruct (result st) eqn:E; try (by left); right; (split; [done|]).
    + left. by exists b.
    + right; left. done.
Qed.

(** X11.  The promise is resolved only with a blob that a [toBlob]
    callback delivered: if it is resolved with [b], the callback ran with
    [b], the video had loaded and a frame had been rasterized. *)
Theorem resolved_only_with_blob (load : Load) (c : Capture)
  (events : list Event) (b : Compositor.Blob) :
  result (run (generateThumbnail load c) events) = Some (Resolved b) →
  BlobReady (Some b) ∈ events
  ∧ load = Loaded
  ∧ 1 ≤ count is_rasterize (log (run (generateThumbnail load c) events)).
Proof.
  intros Hres.
  assert (Hin : BlobReady (Some b) ∈ events).
  { revert Hres. induction events as [|ev events IH] using rev_ind.
    - destruct load, c; discriminate.
    - rewrite run_snoc. intros Hres. apply elem_of_app.
      destruct (step_result (run (generateThumbnail load c) events) ev)
        as [Hsame|(Hnone & [(b' & -> & Hb)|[(_ & Hb)|(_ & [Hb|Hb])]])].
      + left. apply IH. by rewrite <- Hsame.
      + right. rewrite Hb in Hres. injection Hres as ->. apply list_elem_of_here.
      + rewrite Hb in Hres. discriminate.
      + rewrite Hb in Hres. discriminate.
      + rewrite Hb in Hres. discriminate. }
  split; [exact Hin|].
  destruct load.
  - split; [done|].
    destruct (run_attempts (generateThumbnail Loaded c) events
                ltac:(destruct c; vm_compute; lia)) as [_ Heq].
    destruct (generateThumbnail_start Loaded c) as (_ & Hc & _).
    assert (attempts (generateThumbnail Loaded c) = 1) by (by destruct c).
    pose proof (run_attempts_mono (generateThumbnail Loaded c) events).
    lia.
  - destruct (load_failure_idle LoadFailed c events) as [Hrun [e Hr]]; [by left|].
    rewrite Hrun, Hr in Hres. discriminate.
  - destruct (load_failure_idle TimedOut c events) as [Hrun [e Hr]]; [by right|].
    rewrite Hrun, Hr in Hres. discriminate.
Qed.

Lemma resolved_only_with_blob_witness :
  result (run (generateThumbnail Loaded Drawn) [BlobReady (Some jpeg)])
  = Some (Resolved jpeg)
  ∧ BlobReady (Some jpeg) ∈ [BlobReady (Some jpeg)].
Proof.
  split; [reflexivity|].
  exact (proj1 (resolved_only_with_blob Loaded Drawn [BlobReady (Some jpeg)] jpeg
                  eq_refl)).
Defined.

(** X12.  The promise is rejected with a capture error or with the
    attempts-exceeded error only once three frames have been rasterized:
    before the third attempt a thrown capture is retried, never
    reported. *)
Theorem capture_rejection_after_three (load : Load) (c : Capture)
  (events : list Event) :
  let st := run (generateThumbnail load c) events in
  result st = Some (Rejected CaptureError)
  ∨ result st = Some (Rejected AttemptsExceeded) →
  count is_rasterize (log st) = 3 ∧ attempts st = 3.
Proof.
  cbv zeta. intros Hfatal.
  destruct (generateThumbnail_start load c) as (H1 & Hcount & _).
  destruct (run_attempts (generateThumbnail load c) events
              ltac:(unfold MAX_ATTEMPTS; lia)) as [Hle Heq].
  enough (attempts (run (generateThumbnail load c) events) = 3) by lia.
  clear Heq Hcount.
  revert Hfatal Hle. induction events as [|ev events IH] using rev_ind.
  - destruct load, c; intros [?|?]; discriminate.
  - rewrite run_snoc. intros Hfatal Hle.
    pose proof (step_attempts_mono (run (generateThumbnail load c) events) ev) as Hmono.
    destruct (step_result (run (generateThumbnail load c) events) ev)
      as [Hsame|(Hnone & [(b' & -> & Hb)|[(_ & Hb)|(Hmax & _)]])].
    + rewrite Hsame in Hfatal.
      pose proof (IH Hfatal ltac:(unfold MAX_ATTEMPTS in *; lia)).
      unfold MAX_ATTEMPTS in *. lia.
    + rewrite Hb in Hfatal. by destruct Hfatal.
    + rewrite Hb in Hfatal. by destruct Hfatal.
    + unfold MAX_ATTEMPTS in *. lia.
Qed.

Lemma capture_rejection_after_three_witness :
  let st := run (generateThumbnail Loaded Throws) [Timer Throws; Timer Throws] in
  result st = Some (Rejected CaptureError)
  ∧ count is_rasterize (log st) = 3.
Proof.
  cbv zeta. split; [reflexivity|].
  exact (proj1 (capture_rejection_after_three Loaded Throws
                  [Timer Throws; Timer Throws] (or_introl eq_refl))).
Defined.

(** After three thrown attempts nothing is scheduled any more. *)
Lemma three_throws_settled :
  let st := run (generateThumbnail Loaded Throws) [Timer Throws; Timer Throws] in
  ∀ k b,
    run st (replicate k (Timer Throws) ++ [Timer Drawn; BlobReady (Some b)]) = st.
Proof.
  cbv zeta. intros k b. rewrite run_app.
  set (st := run (generateThumbnail Loaded Throws) [Timer Throws; Timer Throws]).
  assert (Hidle : ∀ k, run st (replicate k (Timer Throws)) = st).
  { intros n. induction n as [|n IH]; [done|].
    cbn [replicate]. rewrite run_cons. exact IH. }
  by rewrite Hidle.
Qed.

(** X13.  Up to two thrown captures are absorbed: when the first [k <= 2]
    attempts throw and the next one reaches [toBlob], which delivers a
    blob, the promise is resolved with that blob after [k + 1]
    rasterizations.  Three thrown captures are not: the promise is
    rejected with the capture error and the later success never happens. *)
Theorem transient_failures_absorbed (k : nat) (blob : Compositor.Blob) :
  let st := run (generateThumbnail Loaded (fst (flaky k blob))) (snd (flaky k blob)) in
  (k ≤ 2 → result st = Some (Resolved blob) ∧ count is_rasterize (log st) = k + 1)
  ∧ (3 ≤ k → result st = Some (Rejected CaptureError)
             ∧ count is_rasterize (log st) = 3).
Proof.
  cbv zeta. split.
  - intros Hk. destruct k as [|[|[|k]]]; [by split | by split | by split | lia].
  - intros Hk. destruct k as [|[|[|k]]]; [lia | lia | lia |].
    cbn [flaky fst snd replicate app]. rewrite !run_cons.
    change (step (step (generateThumbnail Loaded Throws) (Timer Throws)) (Timer Throws))
      with (run (generateThumbnail Loaded Throws) [Timer Throws; Timer Throws]).
    rewrite (three_throws_settled k blob). by split.
Qed.

End ThumbnailMore.

(* ===================================================================== *)
(** ** The stores: file names *)
(* ===================================================================== *)

Lemma is_safe_underscore : VideoStore.is_safe 95 = false.
Proof. reflexivity. Qed.

Lemma sanitize_char_twice (c : N) :
  (let d := if VideoStore.is_safe c then c else 95%N in
   if VideoStore.is_safe d then d else 95%N)
  = if VideoStore.is_safe c then c else 95%N.
Proof.
  cbv zeta. destruct (VideoStore.is_safe c) eqn:Hc.
  - rewrite Hc. reflexivity.
  - rewrite is_safe_underscore. reflexivity.
Qed.

(** X14. [sanitizeFileName] keeps the length of the name; every code unit
    of the result is a letter, a digit, a dot, a hyphen or the underscore
    (which the pattern itself does not list, and which is replaced by
    itself); sanitizing twice is sanitizing once; and the names left as they
    are, are those made of these characters only. *)
Theorem sanitizeFileName_spec (fileName : list N) :
  length (VideoStore.sanitizeFileName fileName) = length fileName
  ∧ Forall (λ c, VideoStore.is_safe c = true ∨ c = 95%N)
      (VideoStore.sanitizeFileName fileName)
  ∧ VideoStore.sanitizeFileName (VideoStore.sanitizeFileName fileName)
    = VideoStore.sanitizeFileName fileName
  ∧ (VideoStore.sanitizeFileName fileName = fileName
     ↔ Forall (λ c, VideoStore.is_safe c = true ∨ c = 95%N) fileName).
Proof.
  unfold VideoStore.sanitizeFileName. repeat split.
  - apply length_map.
  - induction fileName as [|c l IH]; cbn [map]; constructor; [|exact IH].
    destruct (VideoStore.is_safe c) eqn:Hc; [left; exact Hc | right; reflexivity].
  - induction fileName as [|c l IH]; cbn [map]; [reflexivity|].
    f_equal; [apply sanitize_char_twice | exact IH].
  - induction fileName as [|c l IH]; cbn [map]; intros Heq; constructor.
    + injection Heq as Hc _.
      destruct (VideoStore.is_safe c); [left; reflexivity | right; symmetry; exact Hc].
    + injection Heq as _ Hl. apply IH, Hl.
  - induction 1 as [|c l Hc _ IH]; cbn [map]; [reflexivity|].
    f_equal; [|exact IH].
    destruct Hc as [Hc|Hc]; [rewrite Hc; reflexivity|].
    subst c. reflexivity.
Qed.

Lemma split_shape (sep : ascii) (s : string) :
  ∃ segments ext,
    VideoStore.split sep s = segments ++ [ext]
    ∧ ¬ In sep (list_ascii_of_string ext)
    ∧ (segments = [] → s = ext)
    ∧ (segments ≠ [] → ∃ stem, s = (stem ++ String sep ext)%string).
Proof.
  induction s as [|c rest IH].
  - exists [], EmptyString. cbn. repeat split; [tauto|congruence].
  - destruct IH as (segments & ext & Hsplit & Hno & Hnil & Hcons).
    cbn [VideoStore.split]. destruct (Ascii.eqb c sep) eqn:Hc.
    + apply Ascii.eqb_eq in Hc. subst c.
      exists (EmptyString :: segments), ext. rewrite Hsplit.
      repeat split; [exact Hno | discriminate |].
      intros _. destruct segments as [|x segments'].
      * exists EmptyString. rewrite (Hnil eq_refl). reflexivity.
      * destruct Hcons as [stem Hstem]; [discriminate|].
        exists (String sep stem). rewrite Hstem. reflexivity.
    + apply Ascii.eqb_neq in Hc. rewrite Hsplit.
      destruct segments as [|x segments']; cbn [app].
      * exists [], (String c ext). rewrite (Hnil eq_refl).
        repeat split; [|congruence].
        cbn [list_ascii_of_string]. intros [Heq|Hin]; [congruence | exact (Hno Hin)].
      * exists (String c x :: segments'), ext.
        repeat split; [exact Hno | discriminate |].
        intros _. destruct Hcons as [stem Hstem]; [discriminate|].
        exists (String c stem). rewrite Hstem. reflexivity.
Qed.

Lemma split_no_separator (sep : ascii) (s : string) :
  ¬ In sep (list_ascii_of_string s) → VideoStore.split sep s = [s].
Proof.
  induction s as [|c rest IH]; [reflexivity|].
  cbn [list_ascii_of_string VideoStore.split]. intros Hno.
  destruct (Ascii.eqb c sep) eqn:Hc.
  - apply Ascii.eqb_eq in Hc. exfalso. apply Hno. left. exact Hc.
  - rewrite IH; [reflexivity|]. intros Hin. apply Hno. right. exact Hin.
Qed.

(** X15. The extension that [uploadVideo] gives the stored file,
    [file.name.split('.').pop()], never holds a dot.  It is the whole name
    when the name has no dot, and otherwise what follows the last dot: the
    name is some stem, a dot, and the extension. *)
Theorem last_segment_spec (sep : ascii) (s : string) :
  ¬ In sep (list_ascii_of_string (VideoStore.last_segment sep s))
  ∧ (¬ In sep (list_ascii_of_string s) → VideoStore.last_segment sep s = s)
  ∧ (In sep (list_ascii_of_string s) →
     ∃ stem, s = (stem ++ String sep (VideoStore.last_segment sep s))%string).
Proof.
  destruct (split_shape sep s) as (segments & ext & Hsplit & Hno & Hnil & Hcons).
  assert (Hlast : VideoStore.last_segment sep s = ext).
  { unfold VideoStore.last_segment. rewrite Hsplit, last_snoc. reflexivity. }
  rewrite Hlast. repeat split.
  - exact Hno.
  - intros Hs. apply split_no_separator in Hs. rewrite Hs in Hsplit.
    destruct segments as [|x [|y l]]; cbn in Hsplit; congruence.
  - intros Hin. destruct segments as [|x l].
    + rewrite (Hnil eq_refl) in Hin. contradiction.
    + apply Hcons. discriminate.
Qed.

(* ===================================================================== *)
(** ** The audio store *)
(* ===================================================================== *)

Lemma filter_fresh (id' : string) (l : list AudioStore.Audio) :
  id' ∉ map AudioStore.id l →
  filter (λ audio, AudioStore.id audio ≠ id') l = l.
Proof.
  induction l as [|a l IH]; [reflexivity|].
  cbn [map]. intros Hfresh. apply not_elem_of_cons in Hfresh as [Hne Hfresh].
  rewrite filter_cons_True by congruence. f_equal. apply IH, Hfresh.
Qed.

(** X16. Removing the id of an audio just added gives the store back as it
    was, provided no audio of the list had that id; an audio of the list with
    the same id is removed with it. *)
Theorem removeAudio_addAudio (audio : AudioStore.Audio) (state : AudioStore.State)
  (Hfresh : AudioStore.id audio ∉ map AudioStore.id (AudioStore.audios state)) :
  AudioStore.removeAudio (AudioStore.id audio) (AudioStore.addAudio audio state)
  = state.
Proof.
  destruct state as [audios loading error].
  unfold AudioStore.removeAudio, AudioStore.addAudio.
  cbn [AudioStore.audios AudioStore.loading AudioStore.error] in *.
  rewrite filter_cons_False by (intros H; apply H; reflexivity).
  rewrite filter_fresh by exact Hfresh. reflexivity.
Qed.

Lemma removeAudio_addAudio_witness :
  (AudioStore.id new_audio ∉ map AudioStore.id (AudioStore.audios library))
  ∧ AudioStore.removeAudio "a3" (AudioStore.addAudio new_audio library) = library.
Proof.
  assert (H : AudioStore.id new_audio
              ∉ map AudioStore.id (AudioStore.audios library)).
  { cbn. intros H.
    repeat (apply elem_of_cons in H; destruct H as [H|H]; [discriminate H|]).
    by apply elem_of_nil in H. }
  split; [exact H|].
  exact (removeAudio_addAudio new_audio library H).
Defined.

(** X17. [removeAudio id] removes every audio with that id and nothing
    else: the audios left are those of the list with another id, in their
    order; neither [loading] nor [error] changes; removing the same id again
    changes nothing, and two removals commute. *)
Theorem removeAudio_spec (id1 id2 : string) (state : AudioStore.State) :
  (∀ audio, audio ∈ AudioStore.audios (AudioStore.removeAudio id1 state)
            ↔ audio ∈ AudioStore.audios state ∧ AudioStore.id audio ≠ id1)
  ∧ sublist (AudioStore.audios (AudioStore.removeAudio id1 state))
      (AudioStore.audios state)
  ∧ AudioStore.loading (AudioStore.removeAudio id1 state) = AudioStore.loading state
  ∧ AudioStore.error (AudioStore.removeAudio id1 state) = AudioStore.error state
  ∧ AudioStore.removeAudio id1 (AudioStore.removeAudio id1 state)
    = AudioStore.removeAudio id1 state
  ∧ AudioStore.removeAudio id1 (AudioStore.removeAudio id2 state)
    = AudioStore.removeAudio id2 (AudioStore.removeAudio id1 state).
Proof.
  destruct state as [audios loading error].
  unfold AudioStore.removeAudio.
  cbn [AudioStore.audios AudioStore.loading AudioStore.error].
  split; [|split; [|split; [|split; [|split]]]]; try reflexivity.
  - intros audio. rewrite list_elem_of_filter. tauto.
  - apply sublist_filter.
  - f_equal. rewrite list_filter_filter. apply list_filter_iff. tauto.
  - f_equal. rewrite !list_filter_filter. apply list_filter_iff. tauto.
Qed.

(* ===================================================================== *)
(** ** The video store: the counters *)
(* ===================================================================== *)

Section Counters.
Import VideoStore.

Lemma id_set_likes (n : nat) (v : Video) : id (set_likes n v) = id v.
Proof. reflexivity. Qed.
Lemma id_set_comments (n : nat) (v : Video) : id (set_comments n v) = id v.
Proof. reflexivity. Qed.
Lemma id_set_views (n : nat) (v : Video) : id (set_views n v) = id v.
Proof. reflexivity. Qed.
Lemma id_with_counts (v : Video) : id (with_counts v) = id v.
Proof. reflexivity. Qed.

Lemma update_video_ids (videoId : string) (f : Video → Video) (state : State)
  (Hf : ∀ v, id (f v) = id v) :
  map id (videos (update_video videoId f state)) = map id (videos state)
  ∧ id <$> currentVideo (update_video videoId f state) = id <$> currentVideo state.
Proof.
  unfold update_video. cbn [videos currentVideo]. split.
  - rewrite map_map. apply map_ext. intros v.
    destruct (String.eqb (id v) videoId); [apply Hf | reflexivity].
  - destruct (currentVideo state) as [current|]; [|reflexivity].
    destruct (String.eqb (id current) videoId); cbn; [rewrite Hf|]; reflexivity.
Qed.

Lemma update_video_twice (videoId : string) (f g : Video → Video) (state : State)
  (Hg : ∀ v, id (g v) = id v) (Hfg : ∀ v, f (g v) = f v) :
  update_video videoId f (update_video videoId g state)
  = update_video videoId f state.
Proof.
  unfold update_video. cbn [videos currentVideo loading error uploadProgress
    isUploading uploadError hasMore feedType]. f_equal.
  - rewrite map_map. apply map_ext. intros v.
    destruct (String.eqb (id v) videoId) eqn:Hv.
    + rewrite Hg, Hv. apply Hfg.
    + rewrite Hv. reflexivity.
  - destruct (currentVideo state) as [current|]; [|reflexivity].
    destruct (String.eqb (id current) videoId) eqn:Hv.
    + rewrite Hg, Hv, Hfg. reflexivity.
    + rewrite Hv. reflexivity.
Qed.

Lemma update_video_comm (a b : string) (f g : Video → Video) (state : State)
  (Hf : ∀ v, id (f v) = id v) (Hg : ∀ v, id (g v) = id v)
  (Hfg : ∀ v, f (g v) = g (f v)) :
  update_video a f (update_video b g state)
  = update_video b g (update_video a f state).
Proof.
  unfold update_video. cbn [videos currentVideo loading error uploadProgress
    isUploading uploadError hasMore feedType]. f_equal.
  - rewrite !map_map. apply map_ext. intros v.
    destruct (String.eqb (id v) b) eqn:Hb, (String.eqb (id v) a) eqn:Ha;
      rewrite ?Hf, ?Hg, ?Ha, ?Hb; auto.
  - destruct (currentVideo state) as [current|]; [|reflexivity].
    destruct (String.eqb (id current) b) eqn:Hb,
             (String.eqb (id current) a) eqn:Ha;
      rewrite ?Hf, ?Hg, ?Ha, ?Hb, ?Hfg; auto.
Qed.

Lemma update_video_listed (videoId : string) (f : Video → Video) (state : State) :
  current_listed state → current_listed (update_video videoId f state).
Proof.
  intros (current & Hcur & Hin). unfold current_listed, update_video.
  cbn [videos currentVideo]. rewrite Hcur.
  exists (if String.eqb (id current) videoId then f current else current).
  split; [destruct (String.eqb (id current) videoId); reflexivity|].
  apply (list_elem_of_fmap_2
           (λ v, if String.eqb (id v) videoId then f v else v)), Hin.
Qed.

Lemma update_video_normalised (videoId : string) (f : Video → Video)
  (state : State) (Hf : ∀ v, counted v → counted (f v)) :
  normalised state → normalised (update_video videoId f state).
Proof.
  intros [Hall Hcur]. unfold normalised, update_video.
  cbn [videos currentVideo]. split.
  - apply Forall_fmap. eapply Forall_impl; [exact Hall|].
    intros v Hv. cbn. destruct (String.eqb (id v) videoId); auto.
  - intros current'. destruct (currentVideo state) as [current|]; [|discriminate].
    specialize (Hcur current eq_refl).
    destruct (String.eqb (id current) videoId); intros [= <-]; auto.
Qed.

Lemma counted_with_counts (v : Video) : counted (with_counts v).
Proof. repeat split; cbn; eexists; reflexivity. Qed.

Lemma with_counts_counted (v : Video) : counted v → with_counts v = v.
Proof.
  destruct v. intros ([l Hl] & [c Hc] & [w Hw]). cbn in *. subst.
  reflexivity.
Qed.

Lemma find_id (current : Video) (l : list Video) (v : Video) :
  List.find (λ v, String.eqb (id v) (id current)) l = Some v →
  v ∈ l ∧ id v = id current.
Proof.
  intros Hfind. apply find_some in Hfind as [Hin Heq].
  split; [apply list_elem_of_In, Hin | apply String.eqb_eq, Heq].
Qed.

End Counters.

(** X18. How the updates of the counters compose.  Storing a number of
    likes, or of comments, twice for the same video is storing the last one;
    and updates of different counters can be made in either order, for the
    same video or for two videos. *)
Theorem counter_updates_compose (a b : string) (n m : option nat)
  (state : VideoStore.State) :
  VideoStore.store_likes a n (VideoStore.store_likes a m state)
  = VideoStore.store_likes a n state
  ∧ VideoStore.store_comments a n (VideoStore.store_comments a m state)
    = VideoStore.store_comments a n state
  ∧ VideoStore.store_likes a n (VideoStore.store_comments b m state)
    = VideoStore.store_comments b m (VideoStore.store_likes a n state)
  ∧ VideoStore.store_likes a n (VideoStore.count_view b state)
    = VideoStore.count_view b (VideoStore.store_likes a n state)
  ∧ VideoStore.store_comments a n (VideoStore.count_view b state)
    = VideoStore.count_view b (VideoStore.store_comments a n state).
Proof.
  unfold VideoStore.store_likes, VideoStore.store_comments, VideoStore.count_view.
  split; [|split; [|split; [|split]]].
  - apply update_video_twice; reflexivity.
  - apply update_video_twice; reflexivity.
  - apply update_video_comm; reflexivity.
  - apply update_video_comm; reflexivity.
  - apply update_video_comm; reflexivity.
Qed.

(** X19. When the current video is one of the list, it still is after a
    view is counted and after a number of likes or of comments is stored:
    the list and the current video are updated alike. *)
Theorem current_video_stays_listed (videoId : string) (n : option nat)
  (state : VideoStore.State) (Hlisted : current_listed state) :
  current_listed (VideoStore.count_view videoId state)
  ∧ current_listed (VideoStore.store_likes videoId n state)
  ∧ current_listed (VideoStore.store_comments videoId n state).
Proof.
  repeat split; apply update_video_listed, Hlisted.
Qed.

Lemma current_video_stays_listed_witness :
  current_listed watching
  ∧ current_listed (VideoStore.count_view "1" watching)
  ∧ current_listed (VideoStore.store_likes "1" (Some 4) watching)
  ∧ current_listed (VideoStore.store_comments "1" (Some 4) watching).
Proof.
  assert (H : current_listed watching).
  { exists (VideoStore.with_counts (clip 1)). split; [reflexivity|].
    apply list_elem_of_further, list_elem_of_here. }
  split; [exact H|].
  exact (current_video_stays_listed "1" (Some 4) watching H).
Defined.

(* ===================================================================== *)
(** ** The video store: [fetchVideos] *)
(* ===================================================================== *)

Section Fetch.
Import VideoStore.

Lemma fetchVideos_rows (query : nat → nat → Response) (page : nat)
  (state : State) (rows : list Video) :
  query (page * PAGE_SIZE) (page * PAGE_SIZE + PAGE_SIZE - 1) = Rows rows →
  fetchVideos query page state
  = mkState
      (if page =? 0 then map with_counts rows
       else videos state ++ map with_counts rows)
      (match currentVideo state with
       | Some current =>
           match List.find (λ v, String.eqb (id v) (id current))
                   (map with_counts rows) with
           | Some updated => Some updated
           | None => Some current
           end
       | None => None
       end)
      false None (uploadProgress state) (isUploading state)
      (uploadError state) (List.length rows =? PAGE_SIZE) (feedType state).
Proof. intros Hq. unfold fetchVideos. cbv zeta. rewrite Hq. reflexivity. Qed.

Lemma fetchVideos_failed (query : nat → nat → Response) (page : nat)
  (state : State) (e : Thrown) :
  query (page * PAGE_SIZE) (page * PAGE_SIZE + PAGE_SIZE - 1) = Failed e →
  fetchVideos query page state
  = mkState (videos state) (currentVideo state) false (message e)
      (uploadProgress state) (isUploading state) (uploadError state)
      (hasMore state) (feedType state).
Proof. intros Hq. unfold fetchVideos. cbv zeta. rewrite Hq. reflexivity. Qed.

Lemma fetchVideos_current_id (query : nat → nat → Response) (page : nat)
  (state : State) :
  id <$> currentVideo (fetchVideos query page state) = id <$> currentVideo state.
Proof.
  destruct (query (page * PAGE_SIZE) (page * PAGE_SIZE + PAGE_SIZE - 1))
    as [rows|e] eqn:Hq.
  - rewrite (fetchVideos_rows _ _ _ _ Hq). cbn [currentVideo].
    destruct (currentVideo state) as [current|]; [|reflexivity].
    destruct (List.find _ _) as [updated|] eqn:Hfind; [|reflexivity].
    apply find_id in Hfind as [_ Hid]. cbn. rewrite Hid. reflexivity.
  - rewrite (fetchVideos_failed _ _ _ _ Hq). reflexivity.
Qed.

Lemma fetchVideos_normalised (query : nat → nat → Response) (page : nat)
  (state : State) :
  normalised state → normalised (fetchVideos query page state).
Proof.
  intros [Hall Hcur].
  destruct (query (page * PAGE_SIZE) (page * PAGE_SIZE + PAGE_SIZE - 1))
    as [rows|e] eqn:Hq.
  - rewrite (fetchVideos_rows _ _ _ _ Hq). unfold normalised.
    cbn [videos currentVideo].
    assert (Hrows : Forall counted (map with_counts rows)).
    { apply Forall_fmap, Forall_forall. intros v _. apply counted_with_counts. }
    split.
    + destruct (page =? 0); [exact Hrows | apply Forall_app; split; assumption].
    + intros current'. destruct (currentVideo state) as [current|]; [|discriminate].
      destruct (List.find _ _) as [updated|] eqn:Hfind; intros [= <-].
      * apply find_id in Hfind as [Hin _].
        rewrite Forall_forall in Hrows. apply Hrows, Hin.
      * apply Hcur. reflexivity.
  - rewrite (fetchVideos_failed _ _ _ _ Hq). split; assumption.
Qed.

Lemma marcarVideoVisto_cases (user : option User)
  (existing_view : string → string → bool)
  (insert_view : string → string → option Thrown)
  (videoId : string) (state : State) :
  snd (marcarVideoVisto user existing_view insert_view videoId state) = state
  ∨ snd (marcarVideoVisto user existing_view insert_view videoId state)
    = count_view videoId state.
Proof.
  unfold marcarVideoVisto. destruct user as [u|]; [|left; reflexivity].
  destruct (existing_view (uid u) videoId); [left; reflexivity|].
  destruct (insert_view (uid u) videoId) as [e|]; [|right; reflexivity].
  destruct (bool_decide _); left; reflexivity.
Qed.

End Fetch.

(** X20. If every video of the store has its three counters, so it has
    after [fetchVideos], whatever the rows of the answer hold, after a view
    is counted by [marcarVideoVisto], and after a number of likes or of
    comments is stored, also one that the database gave as [null]. *)
Theorem counters_stay_defined (query : nat → nat → VideoStore.Response)
  (page : nat) (user : option VideoStore.User)
  (existing_view : string → string → bool)
  (insert_view : string → string → option Thrown)
  (videoId : string) (n : option nat) (state : VideoStore.State)
  (Hstate : normalised state) :
  normalised (VideoStore.fetchVideos query page state)
  ∧ normalised
      (snd (VideoStore.marcarVideoVisto user existing_view insert_view videoId state))
  ∧ normalised (VideoStore.store_likes videoId n state)
  ∧ normalised (VideoStore.store_comments videoId n state).
Proof.
  assert (Hview : normalised (VideoStore.count_view videoId state)).
  { apply update_video_normalised; [|exact Hstate].
    intros v (Hl & Hc & _). repeat split; try assumption. eexists; reflexivity. }
  split; [apply fetchVideos_normalised, Hstate|].
  split.
  { destruct (marcarVideoVisto_cases user existing_view insert_view videoId state)
      as [-> | ->]; assumption. }
  split; (apply update_video_normalised; [|exact Hstate]);
    intros v (Hl & Hc & Hv); repeat split; try assumption; eexists; reflexivity.
Qed.

Lemma counters_stay_defined_witness :
  normalised watching
  ∧ normalised (VideoStore.fetchVideos (VideoStore.range feed) 1 watching)
  ∧ normalised
      (snd (VideoStore.marcarVideoVisto (Some (VideoStore.mkUser "u1"))
              (λ _ _, false) (λ _ _, None) "1" watching))
  ∧ normalised (VideoStore.store_likes "1" None watching)
  ∧ normalised (VideoStore.store_comments "1" None watching).
Proof.
  assert (H : normalised watching).
  { split.
    - apply Forall_fmap, Forall_forall. intros v _. apply counted_with_counts.
    - intros current [= <-]. apply counted_with_counts. }
  split; [exact H|].
  exact (counters_stay_defined (VideoStore.range feed) 1
           (Some (VideoStore.mkUser "u1")) (λ _ _, false) (λ _ _, None)
           "1" None watching H).
Defined.

(** X21. No action of the store changes which video is the current one:
    [fetchVideos] may replace it by the fetched row of the same id but never
    by another video, and never clears it; the updates of the counters keep
    its id, and keep the ids of the list in their order. *)
Theorem current_video_id_stable (query : nat → nat → VideoStore.Response)
  (page : nat) (user : option VideoStore.User)
  (existing_view : string → string → bool)
  (insert_view : string → string → option Thrown)
  (videoId : string) (n : option nat) (state : VideoStore.State) :
  let unchanged state' :=
    VideoStore.id <$> VideoStore.currentVideo state'
    = VideoStore.id <$> VideoStore.currentVideo state in
  let same_list state' :=
    map VideoStore.id (VideoStore.videos state')
    = map VideoStore.id (VideoStore.videos state) in
  unchanged (VideoStore.fetchVideos query page state)
  ∧ (unchanged (VideoStore.count_view videoId state)
     ∧ same_list (VideoStore.count_view videoId state))
  ∧ (unchanged (VideoStore.store_likes videoId n state)
     ∧ same_list (VideoStore.store_likes videoId n state))
  ∧ (unchanged (VideoStore.store_comments videoId n state)
     ∧ same_list (VideoStore.store_comments videoId n state))
  ∧ (unchanged
       (snd (VideoStore.marcarVideoVisto user existing_view insert_view videoId state))
     ∧ same_list
         (snd (VideoStore.marcarVideoVisto user existing_view insert_view videoId state))).
Proof.
  cbv zeta.
  pose proof (update_video_ids videoId
                (λ v, VideoStore.set_views
                        (VideoStore.or_zero (VideoStore.views_count v) + 1) v)
                state (λ v, eq_refl)) as [Hl Hc].
  split; [apply fetchVideos_current_id|].
  split; [split; [exact Hc | exact Hl]|].
  split; [apply and_comm, update_video_ids; reflexivity|].
  split; [apply and_comm, update_video_ids; reflexivity|].
  destruct (marcarVideoVisto_cases user existing_view insert_view videoId state)
    as [-> | ->]; [split; reflexivity | split; [exact Hc | exact Hl]].
Qed.

(** X22. A failed request of [fetchVideos] loses nothing: the list, the
    current video and [hasMore] stay as they were, [error] takes the message
    of the failure and [loading] is switched off; and asking the same page
    again gives the state that the request would have given without the
    failure. *)
Theorem fetchVideos_retry (query failing : nat → nat → VideoStore.Response)
  (page : nat) (state : VideoStore.State) (e : Thrown)
  (Hfail : failing (page * VideoStore.PAGE_SIZE)
             (page * VideoStore.PAGE_SIZE + VideoStore.PAGE_SIZE - 1)
           = VideoStore.Failed e) :
  VideoStore.videos (VideoStore.fetchVideos failing page state)
  = VideoStore.videos state
  ∧ VideoStore.currentVideo (VideoStore.fetchVideos failing page state)
    = VideoStore.currentVideo state
  ∧ VideoStore.hasMore (VideoStore.fetchVideos failing page state)
    = VideoStore.hasMore state
  ∧ VideoStore.error (VideoStore.fetchVideos failing page state) = message e
  ∧ VideoStore.loading (VideoStore.fetchVideos failing page state) = false
  ∧ VideoStore.fetchVideos query page (VideoStore.fetchVideos failing page state)
    = VideoStore.fetchVideos query page state.
Proof.
  rewrite (fetchVideos_failed _ _ _ _ Hfail).
  repeat (split; [reflexivity|]).
  unfold VideoStore.fetchVideos. cbv zeta.
  destruct (query _ _); reflexivity.
Qed.

Lemma fetchVideos_retry_witness :
  VideoStore.fetchVideos (VideoStore.range feed) 1
    (VideoStore.fetchVideos (λ _ _, VideoStore.Failed (new_Error "offline")) 1
       watching)
  = VideoStore.fetchVideos (VideoStore.range feed) 1 watching.
Proof.
  exact (proj2 (proj2 (proj2 (proj2 (proj2
    (fetchVideos_retry (VideoStore.range feed)
       (λ _ _, VideoStore.Failed (new_Error "offline")) 1 watching
       (new_Error "offline") eq_refl)))))).
Defined.

(** X23. Asking the first page again changes nothing: page 0 replaces the
    list.  Asking any other page again shows its rows twice: they are
    appended each time, without a check for the videos already there. *)
Theorem fetchVideos_twice (query : nat → nat → VideoStore.Response)
  (page : nat) (state : VideoStore.State) :
  VideoStore.fetchVideos query 0 (VideoStore.fetchVideos query 0 state)
  = VideoStore.fetchVideos query 0 state
  ∧ ∀ rows,
      page ≠ 0 →
      query (page * VideoStore.PAGE_SIZE)
        (page * VideoStore.PAGE_SIZE + VideoStore.PAGE_SIZE - 1)
      = VideoStore.Rows rows →
      VideoStore.videos
        (VideoStore.fetchVideos query page (VideoStore.fetchVideos query page state))
      = VideoStore.videos state
        ++ map VideoStore.with_counts rows ++ map VideoStore.with_counts rows.
Proof.
  split.
  - destruct (query (0 * VideoStore.PAGE_SIZE)
                (0 * VideoStore.PAGE_SIZE + VideoStore.PAGE_SIZE - 1))
      as [rows|e] eqn:Hq.
    + rewrite !(fetchVideos_rows _ _ _ _ Hq).
      cbn [VideoStore.videos VideoStore.currentVideo VideoStore.uploadProgress
           VideoStore.isUploading VideoStore.uploadError VideoStore.feedType
           Nat.eqb].
      f_equal.
      destruct (VideoStore.currentVideo state) as [current|]; [|reflexivity].
      destruct (List.find _ _) as [updated|] eqn:Hfind.
      * pose proof (find_id _ _ _ Hfind) as [_ Hid].
        rewrite Hid, Hfind. reflexivity.
      * rewrite Hfind. reflexivity.
    + rewrite !(fetchVideos_failed _ _ _ _ Hq). reflexivity.
  - intros rows Hpage Hq. rewrite !(fetchVideos_rows _ _ _ _ Hq).
    cbn [VideoStore.videos]. apply Nat.eqb_neq in Hpage. rewrite Hpage.
    rewrite <- app_assoc. reflexivity.
Qed.

Lemma fetch_through_S (query : nat → nat → VideoStore.Response) (k : nat)
  (state : VideoStore.State) :
  VideoStore.fetch_through query (Datatypes.S k) state
  = VideoStore.fetchVideos query (Datatypes.S k)
      (VideoStore.fetch_through query k state).
Proof.
  unfold VideoStore.fetch_through.
  rewrite (seq_S (Datatypes.S k)), foldl_app. reflexivity.
Qed.

Lemma range_page (table : list VideoStore.Video) (page : nat) :
  VideoStore.range table (page * VideoStore.PAGE_SIZE)
    (page * VideoStore.PAGE_SIZE + VideoStore.PAGE_SIZE - 1)
  = VideoStore.Rows (take 5 (drop (5 * page) table)).
Proof.
  unfold VideoStore.range, VideoStore.PAGE_SIZE.
  replace (page * 5 + 5 - 1 + 1 - page * 5) with 5 by lia.
  replace (page * 5) with (5 * page) by lia. reflexivity.
Qed.

Lemma full_page (table : list VideoStore.Video) (page : nat) :
  (length (take 5 (drop (5 * page) table)) =? VideoStore.PAGE_SIZE)
  = (5 * (page + 1) <=? length table).
Proof.
  unfold VideoStore.PAGE_SIZE. rewrite length_take, length_drop.
  destruct (Nat.eqb_spec (5 `min` (length table - 5 * page)) 5),
           (Nat.leb_spec (5 * (page + 1)) (length table)); try reflexivity; lia.
Qed.

(** X24. Paging through a table that does not change: after the pages
    0, 1, ..., k have been fetched in turn, from any state, the list is
    the first 5 (k + 1) rows of the table, in the order of the query and
    each once, with their counters filled in; and [hasMore] tells whether
    the table has at least 5 (k + 1) rows, so that it is still set when the
    table ends exactly at the end of page k. *)
Theorem fetch_through_pages (table : list VideoStore.Video) (k : nat)
  (state : VideoStore.State) :
  let state' := VideoStore.fetch_through (VideoStore.range table) k state in
  VideoStore.videos state'
  = map VideoStore.with_counts (take (5 * (k + 1)) table)
  ∧ VideoStore.hasMore state' = (5 * (k + 1) <=? length table)
  ∧ VideoStore.loading state' = false
  ∧ VideoStore.error state' = None.
Proof.
  cbv zeta. induction k as [|k IH].
  - unfold VideoStore.fetch_through. cbn [seq foldl].
    rewrite (fetchVideos_rows _ _ _ _ (range_page table 0)).
    cbn [VideoStore.videos VideoStore.hasMore VideoStore.loading
         VideoStore.error Nat.eqb].
    rewrite (full_page table 0). repeat split.
  - rewrite fetch_through_S.
    rewrite (fetchVideos_rows _ _ _ _ (range_page table (Datatypes.S k))).
    cbn [VideoStore.videos VideoStore.hasMore VideoStore.loading
         VideoStore.error Nat.eqb].
    destruct IH as (Hvideos & _). rewrite Hvideos.
    rewrite (full_page table (Datatypes.S k)).
    split; [|repeat split].
    rewrite <- map_app.
    replace (5 * (Datatypes.S k)) with (5 * (k + 1)) by lia.
    rewrite take_take_drop.
    replace (5 * (k + 1) + 5) with (5 * (Datatypes.S k + 1)) by lia.
    reflexivity.
Qed.

(* ===================================================================== *)
(** ** The video store: [marcarVideoVisto] and [uploadVideo] *)
(* ===================================================================== *)

(** X25. [marcarVideoVisto] counts a view only when it has inserted a row
    of [video_views]: for a signed-in user without a view of the video,
    whose insertion succeeds.  It is rejected only with the error of the
    insertion, never with the duplicate-key error 23505, and then leaves
    the store as it was.  In every case a video of the list keeps its place,
    its likes and its comments, its views grow by one at most, and a video
    with another id is not changed at all. *)
Theorem marcarVideoVisto_spec (user : option VideoStore.User)
  (existing_view : string → string → bool)
  (insert_view : string → string → option Thrown)
  (videoId : string) (state : VideoStore.State) :
  let result :=
    VideoStore.marcarVideoVisto user existing_view insert_view videoId state in
  (snd result = state
   ∨ ∃ u, user = Some u
          ∧ existing_view (VideoStore.uid u) videoId = false
          ∧ insert_view (VideoStore.uid u) videoId = None
          ∧ fst result = Returned tt
          ∧ snd result = VideoStore.count_view videoId state)
  ∧ (∀ e, fst result = Rejected e →
          snd result = state
          ∧ code e ≠ Some "23505"
          ∧ ∃ u, user = Some u
                 ∧ insert_view (VideoStore.uid u) videoId = Some e)
  ∧ ∀ i v,
      VideoStore.videos state !! i = Some v →
      ∃ v',
        VideoStore.videos (snd result) !! i = Some v'
        ∧ VideoStore.or_zero (VideoStore.views_count v)
          ≤ VideoStore.or_zero (VideoStore.views_count v')
          ≤ VideoStore.or_zero (VideoStore.views_count v) + 1
        ∧ VideoStore.likes_count v' = VideoStore.likes_count v
        ∧ VideoStore.comments_count v' = VideoStore.comments_count v
        ∧ (VideoStore.id v ≠ videoId → v' = v).
Proof.
  cbv zeta. split; [|split].
  - unfold VideoStore.marcarVideoVisto. destruct user as [u|]; [|left; reflexivity].
    destruct (existing_view (VideoStore.uid u) videoId) eqn:Hview;
      [left; reflexivity|].
    destruct (insert_view (VideoStore.uid u) videoId) as [e|] eqn:Hinsert.
    + destruct (bool_decide _); left; reflexivity.
    + right. exists u. repeat split; assumption.
  - intros e. unfold VideoStore.marcarVideoVisto.
    destruct user as [u|]; [|discriminate].
    destruct (existing_view (VideoStore.uid u) videoId); [discriminate|].
    destruct (insert_view (VideoStore.uid u) videoId) as [e'|] eqn:Hinsert;
      [|discriminate].
    destruct (bool_decide (code e' = Some "23505")) eqn:Hcode; [discriminate|].
    cbn [fst snd]. intros [= ->]. split; [reflexivity|]. split.
    + apply bool_decide_eq_false in Hcode. exact Hcode.
    + exists u. split; [reflexivity | exact Hinsert].
  - intros i v Hv.
    destruct (marcarVideoVisto_cases user existing_view insert_view videoId state)
      as [-> | ->].
    + exists v. repeat split; [exact Hv | lia | lia].
    + unfold VideoStore.count_view, VideoStore.update_video.
      cbn [VideoStore.videos]. rewrite list_lookup_fmap, Hv. cbn [fmap option_fmap option_map].
      eexists. split; [reflexivity|].
      destruct (String.eqb (VideoStore.id v) videoId) eqn:Hid.
      * apply String.eqb_eq in Hid. cbn. repeat split; try lia. congruence.
      * repeat split; lia.
Qed.

Section Upload.
Import VideoStore.



Lemma uploadVideo_cases (remote : Remote) (file : File)
  (title description : string) (options : option UploadOptions) (state : State) :
  let result := uploadVideo remote file title description options state in
  let started := set_upload true 0 None state in
  let path user :=
    (uid user ++ "/" ++ pretty (Date_now remote 0) ++ "."
     ++ last_segment "." (file_name file))%string in
  let thumb user :=
    (uid user ++ "/" ++ pretty (Date_now remote 1) ++ "_thumb.jpg")%string in
  let video user := Upload "videos" (path user) (file_blob file) in
  let row user :=
    Row.make title (or_null (Some description))
      (getPublicUrl remote "videos" (path user))
      (getPublicUrl remote "thumbnails" (thumb user)) (uid user)
      (or_null (options ≫= audioTrackId)) (or_half (options ≫= audioVolume))
      (toISOString remote (Date_now remote 2))
      (toISOString remote (Date_now remote 3)) in
  (getUser remote = None
   ∧ result = upload_failed (new_Error "No hay usuario autenticado") started [] [0])
  ∨ (∃ user e,
       getUser remote = Some user
       ∧ storage_upload remote "videos" (path user) (file_blob file) = Some e
       ∧ result = upload_failed e started [video user] [0])
  ∨ (∃ user e,
       getUser remote = Some user
       ∧ storage_upload remote "videos" (path user) (file_blob file) = None
       ∧ generateThumbnail remote file = Rejected e
       ∧ result = upload_failed e (set_upload true 50 None state) [video user] [0; 50])
  ∨ (∃ user blob e,
       getUser remote = Some user
       ∧ generateThumbnail remote file = Returned blob
       ∧ storage_upload remote "thumbnails" (thumb user) blob = Some e
       ∧ result = upload_failed e (set_upload true 50 None state)
                    [video user; Upload "thumbnails" (thumb user) blob] [0; 50])
  ∨ (∃ user blob e,
       getUser remote = Some user
       ∧ generateThumbnail remote file = Returned blob
       ∧ insert remote (row user) = Rejected e
       ∧ result = upload_failed e (set_upload true 75 None state)
                    [video user; Upload "thumbnails" (thumb user) blob;
                     Insert (row user)] [0; 50; 75])
  ∨ (∃ user blob record,
       getUser remote = Some user
       ∧ generateThumbnail remote file = Returned blob
       ∧ insert remote (row user) = Returned record
       ∧ result = (Returned (with_counts record),
                   mkRun (set_upload false 100 None state)
                     [video user; Upload "thumbnails" (thumb user) blob;
                      Insert (row user)] [0; 50; 75; 100])).
Proof.
  cbv zeta. unfold uploadVideo. cbv zeta.
  destruct (getUser remote) as [user|]; [|left; split; reflexivity].
  right.
  destruct (storage_upload remote "videos" _ (file_blob file)) as [e|] eqn:Hvideo.
  { left. exists user, e. repeat split. exact Hvideo. }
  right.
  destruct (generateThumbnail remote file) as [blob|e] eqn:Hthumb.
  2:{ left. exists user, e. repeat split. exact Hvideo. }
  right.
  destruct (storage_upload remote "thumbnails" _ blob) as [e|] eqn:Hstored.
  { left. exists user, blob, e. repeat split. exact Hstored. }
  right. unfold insertVideoRecord. cbv zeta. cbn [Data.title Data.description
    Data.video_url Data.thumbnail_url Data.user_id Data.audio_track_id
    Data.audio_volume].
  destruct (insert remote _) as [record|e] eqn:Hinsert.
  - right. exists user, blob, record. repeat split. exact Hinsert.
  - left. exists user, blob, e. repeat split. exact Hinsert.
Qed.

End Upload.

(** X26. However [uploadVideo] ends, [isUploading] is switched off again
    and neither the list of videos nor the current video changes: the new
    video is not added to the list.  When it returns a video, the progress
    has gone through 0, 50, 75 and 100, no error is recorded, the video has
    its three counters, and exactly three requests were sent: the file, the
    thumbnail, the row.  When it is rejected, the progress stays below
    100, [uploadError] is the message of the error if the error is an
    [Error] and 'Error uploading video' otherwise, and if a row was sent,
    it is its insertion that failed with that error. *)
Theorem uploadVideo_outcome (remote : VideoStore.Remote) (file : VideoStore.File)
  (title description : string) (options : option VideoStore.UploadOptions)
  (state : VideoStore.State) :
  let result :=
    VideoStore.uploadVideo remote file title description options state in
  let state' := VideoStore.store (snd result) in
  VideoStore.isUploading state' = false
  ∧ VideoStore.videos state' = VideoStore.videos state
  ∧ VideoStore.currentVideo state' = VideoStore.currentVideo state
  ∧ match fst result with
    | Returned video =>
        VideoStore.uploadProgress state' = 100
        ∧ VideoStore.uploadError state' = None
        ∧ VideoStore.progress (snd result) = [0; 50; 75; 100]
        ∧ counted video
        ∧ ∃ path thumb blob row record,
            VideoStore.calls (snd result)
            = [VideoStore.Upload "videos" path (VideoStore.file_blob file);
               VideoStore.Upload "thumbnails" thumb blob;
               VideoStore.Insert row]
            ∧ VideoStore.generateThumbnail remote file = Returned blob
            ∧ VideoStore.insert remote row = Returned record
            ∧ video = VideoStore.with_counts record
    | Rejected e =>
        VideoStore.uploadProgress state' < 100
        ∧ VideoStore.uploadError state'
          = (if instance_of_Error e then message e
             else Some "Error uploading video")
        ∧ VideoStore.progress (snd result) `prefix_of` [0; 50; 75]
        ∧ rows_satisfy (λ row, VideoStore.insert remote row = Rejected e)
            (VideoStore.calls (snd result))
    end.
Proof.
  cbv zeta.
  pose proof (uploadVideo_cases remote file title description options state)
    as Hcases. cbv zeta in Hcases.
  destruct Hcases as
    [(_ & ->) | [(user & e & _ & _ & ->) | [(user & e & _ & _ & _ & ->)
    | [(user & blob & e & _ & _ & _ & ->) | [(user & blob & e & _ & _ & Hrow & ->)
    | (user & blob & record & _ & Hthumb & Hrow & ->)]]]]];
    unfold VideoStore.upload_failed, rows_satisfy;
    cbn [fst snd VideoStore.store VideoStore.calls VideoStore.progress
         VideoStore.set_upload VideoStore.isUploading VideoStore.videos
         VideoStore.currentVideo VideoStore.uploadProgress
         VideoStore.uploadError];
    (split; [reflexivity|]); (split; [reflexivity|]); (split; [reflexivity|]).
  - repeat split; [lia | by exists [50; 75] | constructor].
  - repeat split; [lia | by exists [50; 75] | repeat constructor].
  - repeat split; [lia | by exists [75] | repeat constructor].
  - repeat split; [lia | by exists [75] | repeat constructor].
  - repeat split; [lia | by exists [] | repeat constructor; exact Hrow].
  - split; [reflexivity|]. split; [reflexivity|]. split; [reflexivity|].
    split; [apply counted_with_counts|].
    eexists _, _, blob, _, record. repeat split; [exact Hthumb | exact Hrow].
Qed.

(** X27. An upload whose video cannot be loaded by the extractor of
    thumbnails.  The file is already in the storage when the extractor is
    called; its promise is rejected with the event of [video.onerror],
    which is no [Error]: [uploadVideo] is rejected with that event, the
    progress stays at 50, the message recorded is the generic 'Error
    uploading video', and the only request made is the upload of the file,
    which is not removed and for which no row is inserted. *)
Theorem unloadable_video_upload (remote : VideoStore.Remote)
  (file : VideoStore.File) (title description : string)
  (options : option VideoStore.UploadOptions) (state : VideoStore.State)
  (user : VideoStore.User) (thrown : Thrown) (c : Thumbnail.Capture)
  (events : list Thumbnail.Event) (s : Thumbnail.Settled)
  (Huser : VideoStore.getUser remote = Some user)
  (Hstored : ∀ path,
     VideoStore.storage_upload remote "videos" path (VideoStore.file_blob file)
     = None)
  (Hsettled :
     Thumbnail.result
       (Thumbnail.run
          (Thumbnail.generateThumbnail Thumbnail.LoadFailed c) events)
     = Some s)
  (Hthumbnail :
     VideoStore.generateThumbnail remote file
     = VideoStore.thumbnail_outcome thrown s) :
  let result :=
    VideoStore.uploadVideo remote file title description options state in
  fst result = Rejected (mkThrown false None None)
  ∧ VideoStore.calls (snd result)
    = [VideoStore.Upload "videos"
         (VideoStore.uid user ++ "/" ++ pretty (VideoStore.Date_now remote 0)
          ++ "." ++ VideoStore.last_segment "." (VideoStore.file_name file))
         (VideoStore.file_blob file)]
  ∧ VideoStore.uploadProgress (VideoStore.store (snd result)) = 50
  ∧ VideoStore.isUploading (VideoStore.store (snd result)) = false
  ∧ VideoStore.uploadError (VideoStore.store (snd result))
    = Some "Error uploading video".
Proof.
  cbv zeta.
  rewrite (run_idle (Thumbnail.generateThumbnail Thumbnail.LoadFailed c) events
             eq_refl eq_refl eq_refl) in Hsettled.
  injection Hsettled as <-. cbn [VideoStore.thumbnail_outcome] in Hthumbnail.
  unfold VideoStore.uploadVideo. cbv zeta.
  rewrite Huser, Hstored, Hthumbnail. repeat split.
Qed.

Lemma unloadable_video_upload_witness :
  let remote :=
    accepting
      (VideoStore.thumbnail_outcome (new_Error "canvas")
         (Thumbnail.Rejected Thumbnail.MediaError)) in
  let result :=
    VideoStore.uploadVideo remote holiday "Holiday" "" None VideoStore.initial in
  fst result = Rejected (mkThrown false None None)
  ∧ VideoStore.calls (snd result)
    = [VideoStore.Upload "videos" "u1/1700000000000.mp4" upload]
  ∧ VideoStore.uploadError (VideoStore.store (snd result))
    = Some "Error uploading video".
Proof.
  cbv zeta.
  pose proof
    (unloadable_video_upload
       (accepting
          (VideoStore.thumbnail_outcome (new_Error "canvas")
             (Thumbnail.Rejected Thumbnail.MediaError)))
       holiday "Holiday" "" None VideoStore.initial (VideoStore.mkUser "u1")
       (new_Error "canvas") Thumbnail.Drawn []
       (Thumbnail.Rejected Thumbnail.MediaError)
       eq_refl (λ _, eq_refl) eq_refl eq_refl) as H.
  cbv zeta in H. destruct H as (H1 & H2 & _ & _ & H5).
  split; [exact H1|]. split; [exact H2 | exact H5].
Defined.


(* ===================================================================== *)
(** ** The video store: [deleteVideo] *)
(* ===================================================================== *)

Lemma string_app_assoc (a b c : string) :
  ((a ++ b) ++ c = a ++ (b ++ c))%string.
Proof.
  induction a as [|x a IH]; [reflexivity|].
  change (String x ((a ++ b) ++ c) = String x (a ++ (b ++ c)))%string.
  f_equal. exact IH.
Qed.

Lemma split_nonempty (sep : ascii) (s : string) : VideoStore.split sep s ≠ [].
Proof.
  destruct (split_shape sep s) as (segments & ext & -> & _).
  destruct segments; discriminate.
Qed.

Lemma split_after (sep : ascii) (a b : string) :
  ∃ before,
    VideoStore.split sep (a ++ String sep b)
    = before ++ VideoStore.split sep b
    ∧ before ≠ [].
Proof.
  induction a as [|c a (before & IH & Hne)].
  - change (EmptyString ++ String sep b)%string with (String sep b).
    cbn [VideoStore.split]. rewrite Ascii.eqb_refl. exists [EmptyString]. split; [reflexivity | discriminate].
  - change (String c a ++ String sep b)%string
      with (String c (a ++ String sep b)%string).
    cbn [VideoStore.split]. rewrite IH. destruct (Ascii.eqb c sep).
    + exists (EmptyString :: before). split; [reflexivity | discriminate].
    + destruct before as [|x before]; [congruence|].
      exists (String c x :: before). split; [reflexivity | discriminate].
Qed.

Lemma last_segment_after (sep : ascii) (a b : string) :
  ¬ In sep (list_ascii_of_string b) →
  VideoStore.last_segment sep (a ++ String sep b) = b.
Proof.
  intros Hb. unfold VideoStore.last_segment.
  destruct (split_after sep a b) as (before & -> & _).
  rewrite (split_no_separator sep b Hb), last_snoc. reflexivity.
Qed.

(** X29. [deleteVideo] removes from the storage the file that
    [uploadVideo] has put there.  When the row of the video holds a URL
    that ends with the path of the file, [<user id>/<name>], and the name
    is not empty and holds no slash, the requests made are the removal of
    exactly that path and then the deletion of the row.  (The name given
    by [uploadVideo] is the time, a dot and the extension of the uploaded
    file.) *)
Theorem deleteVideo_removes_upload (remote : VideoStore.Deletion)
  (videoId : string) (state : VideoStore.State) (base uploader name : string)
  (Hrow : VideoStore.select_video remote videoId
          = Returned
              (Some (VideoStore.mkStored
                       (Some (base ++ "/" ++ uploader ++ "/" ++ name)%string)
                       uploader)))
  (Hname : name ≠ EmptyString)
  (Hflat : ¬ In "/"%char (list_ascii_of_string name)) :
  snd (fst (VideoStore.deleteVideo remote videoId state))
  = [VideoStore.Remove (uploader ++ "/" ++ name); VideoStore.DeleteRow videoId].
Proof.
  assert (Hpath :
    VideoStore.stored_path
      (VideoStore.mkStored
         (Some (base ++ "/" ++ uploader ++ "/" ++ name)%string) uploader)
    = Some (uploader ++ "/" ++ name)%string).
  { unfold VideoStore.stored_path.
    cbn [VideoStore.stored_url VideoStore.owner].
    assert (Hurl : (base ++ "/" ++ uploader ++ "/" ++ name
                    = (base ++ "/" ++ uploader) ++ String "/" name)%string).
    { rewrite !string_app_assoc. reflexivity. }
    rewrite Hurl.
    assert (Hsome : VideoStore.or_null
                      (Some ((base ++ "/" ++ uploader) ++ String "/" name)%string)
                    = Some ((base ++ "/" ++ uploader) ++ String "/" name)%string).
    { destruct ((base ++ "/" ++ uploader) ++ String "/" name)%string eqn:Heq;
        [|reflexivity].
      exfalso. destruct base; discriminate Heq. }
    rewrite Hsome, (last_segment_after "/" _ name Hflat).
    destruct name; [congruence | reflexivity]. }
  unfold VideoStore.deleteVideo. cbv zeta. rewrite Hrow, Hpath.
  destruct (VideoStore.delete_row remote videoId); reflexivity.
Qed.

Lemma deleteVideo_removes_upload_witness :
  snd (fst (VideoStore.deleteVideo
              (VideoStore.mkDeletion
                 (λ _, Returned
                         (Some (VideoStore.mkStored
                                  (Some "https://cdn.example/videos/u1/1700000000000.mp4")
                                  "u1")))
                 (λ _, Some (new_Error "busy")) (λ _, None)
                 (VideoStore.range feed))
              "1" watching))
  = [VideoStore.Remove "u1/1700000000000.mp4"; VideoStore.DeleteRow "1"].
Proof.
  apply (deleteVideo_removes_upload _ "1" watching
           "https://cdn.example/videos" "u1" "1700000000000.mp4").
  - reflexivity.
  - discriminate.
  - cbn. intros H. repeat (destruct H as [H|H]; [discriminate H|]). exact H.
Defined.

(** X30. [deleteVideo] goes on when the file cannot be removed from the
    storage: the store and the requests made do not depend on how the
    removal ends, which is only logged.  The row is asked to be deleted
    exactly when the query found the video.  When the query fails or finds
    nothing, or the deletion of the row fails, the list, the current video
    and [hasMore] stay as they were and [error] is the message of the
    failure; otherwise the store is the one [fetchVideos(0)] gives.  In
    every case [loading] ends switched off. *)
Theorem deleteVideo_outcome
  (select_video : string → Completion (option VideoStore.Stored))
  (removal removal' : string → option Thrown)
  (delete_row : string → option Thrown)
  (refreshed : nat → nat → VideoStore.Response)
  (videoId : string) (state : VideoStore.State) :
  let remote := VideoStore.mkDeletion select_video removal delete_row refreshed in
  let remote' := VideoStore.mkDeletion select_video removal' delete_row refreshed in
  let result := VideoStore.deleteVideo remote videoId state in
  let state' := fst (fst result) in
  fst result = fst (VideoStore.deleteVideo remote' videoId state)
  ∧ VideoStore.loading state' = false
  ∧ (VideoStore.DeleteRow videoId ∈ snd (fst result)
     ↔ ∃ video, select_video videoId = Returned (Some video))
  ∧ match select_video videoId, delete_row videoId with
    | Returned (Some _), None =>
        state' = VideoStore.fetchVideos refreshed 0 state
    | Returned (Some _), Some e | Rejected e, _ =>
        state' = VideoStore.set_loading false (message e) state
    | Returned None, _ =>
        state' = VideoStore.set_loading false (Some "Video no encontrado") state
    end.
Proof.
  cbv zeta. unfold VideoStore.deleteVideo. cbv zeta.
  cbn [VideoStore.select_video VideoStore.storage_remove VideoStore.delete_row
       VideoStore.refreshed].
  destruct (select_video videoId) as [[video|]|e].
  - assert (Hfetch : ∀ st,
      VideoStore.set_loading false
        (VideoStore.error
           (VideoStore.fetchVideos refreshed 0 (VideoStore.set_loading true None st)))
        (VideoStore.fetchVideos refreshed 0 (VideoStore.set_loading true None st))
      = VideoStore.fetchVideos refreshed 0 st).
    { intros st. unfold VideoStore.fetchVideos. cbv zeta.
      destruct (refreshed _ _); reflexivity. }
    destruct (VideoStore.stored_path video) as [path|];
      destruct (delete_row videoId) as [e|]; cbn [fst snd];
      (split; [reflexivity|]); rewrite ?Hfetch;
      (split; [try reflexivity;
               unfold VideoStore.fetchVideos; cbv zeta;
               destruct (refreshed _ _); reflexivity|]);
      (split; [|reflexivity]);
      (split; [intros _; by eexists|]); intros _;
      first [apply list_elem_of_here
            | apply list_elem_of_further, list_elem_of_here].
  - cbn [fst snd]. repeat split; try reflexivity.
    + intros Hin. by apply elem_of_nil in Hin.
    + intros [video [=]].
  - cbn [fst snd]. repeat split; try reflexivity.
    + intros Hin. by apply elem_of_nil in Hin.
    + intros [video [=]].
Qed.
